(** * vitebook, packages/markdown/src/node/parser/utils.ts

    A shallow embedding of the markdown-token utilities

      - [resolveHeadersFromTokens] (the header tree builder),
      - [resolveTitleFromToken]   (the title extractor),
      - [slugify]                  (the slugifier),
      - [preventViteConstantsReplacement] (the constant-replacement guard),

    together with the properties the specification states about them
    and further properties of the same four functions. *)

From stdpp Require Import prelude strings.
From Stdlib Require Import ZArith Lia Sorted.

Set Default Proof Using "Type*".
Set Warnings "-register-all".

(* ===================================================================== *)
(** * 1. JavaScript strings                                               *)
(* ===================================================================== *)

(** A JavaScript string is a sequence of UTF-16 code units; regular
    expressions without the [u] flag, [slice], indexing and [trim] all work
    on code units. *)
Abbreviation jsstring := (list Z) (only parsing).

Module Utf8.
(** String literals of this file are UTF-8; [js] turns one into the
    code units a JavaScript engine holds for the same source text. *)

Fixpoint bytes (s : string) : list Z :=
  match s with
  | EmptyString => []
  | String a s' => Z.of_N (Ascii.N_of_ascii a) :: bytes s'
  end.

Local Open Scope Z_scope.

Fixpoint code_points (bs : list Z) : list Z :=
  match bs with
  | [] => []
  | b0 :: r0 =>
      if b0 <? 0x80 then b0 :: code_points r0
      else match r0 with
      | [] => []
      | b1 :: r1 =>
          if b0 <? 0xE0 then
            ((b0 - 0xC0) * 64 + (b1 - 0x80)) :: code_points r1
          else match r1 with
          | [] => []
          | b2 :: r2 =>
              if b0 <? 0xF0 then
                ((b0 - 0xE0) * 4096 + (b1 - 0x80) * 64 + (b2 - 0x80))
                  :: code_points r2
              else match r2 with
              | [] => []
              | b3 :: r3 =>
                  ((b0 - 0xF0) * 262144 + (b1 - 0x80) * 4096
                   + (b2 - 0x80) * 64 + (b3 - 0x80)) :: code_points r3
              end
          end
      end
  end.

(** A code point above the BMP is a surrogate pair. *)
Definition utf16 (cp : Z) : list Z :=
  if cp <? 0x10000 then [cp]
  else [0xD800 + (cp - 0x10000) / 1024; 0xDC00 + (cp - 0x10000) mod 1024].

Definition js (s : string) : list Z := code_points (bytes s) ≫= utf16.
End Utf8.

Abbreviation js := Utf8.js.

(** The double quote U+0022, by its code. *)
Definition dquote : jsstring := [34%Z].

(** Code-unit equality, [===] on strings. *)
Definition str_eqb (a b : jsstring) : bool := bool_decide (a = b).

(** [String.prototype.slice(1)]: everything after the first code unit. *)
Definition slice1 (s : jsstring) : jsstring := drop 1 s.

(* ===================================================================== *)
(** * 2. Character classes                                                *)
(* ===================================================================== *)

(** A class is a list of inclusive code-unit ranges. *)
Abbreviation cset := (list (Z * Z)) (only parsing).

Definition cset_mem (c : Z) (cs : cset) : bool :=
  existsb (λ r, (r.1 <=? c)%Z && (c <=? r.2)%Z) cs.

Arguments cset_mem : simpl never.

Definition single (c : Z) : Z * Z := (c, c).

(** Every code unit of a string, as a class. *)
Definition chars_of (s : jsstring) : cset := single <$> s.

Section classes.
Local Open Scope Z_scope.

(** [\s], and the set [String.prototype.trim] and [parseInt] skip:
    WhiteSpace and LineTerminator of ECMA-262. *)
Definition cls_space : cset :=
  [ (0x09, 0x0D); (0x20, 0x20); (0xA0, 0xA0); (0x1680, 0x1680);
    (0x2000, 0x200A); (0x2028, 0x2029); (0x202F, 0x202F);
    (0x205F, 0x205F); (0x3000, 0x3000); (0xFEFF, 0xFEFF) ].

(** [\d] *)
Definition cls_digit : cset := [ (0x30, 0x39) ].

(** [\w] *)
Definition cls_word : cset :=
  [ (0x41, 0x5A); (0x61, 0x7A); (0x30, 0x39); (0x5F, 0x5F) ].

Definition cls_hyphen : cset := [ single 0x2D ].
End classes.

Definition is_space (c : Z) : bool := cset_mem c cls_space.
Definition is_digit (c : Z) : bool := cset_mem c cls_digit.
Definition is_word (c : Z) : bool := cset_mem c cls_word.

(** Whether the position between [prev] and the head of [s] has a word
    character on that side; outside the string there is none. *)
Definition word_at (c : option Z) : bool :=
  match c with Some c => is_word c | None => false end.

(* ===================================================================== *)
(** * 3. Regular expressions                                              *)
(* ===================================================================== *)

(** The fragment of ECMAScript patterns this file of the repository
    uses.  A quantifier is only ever applied to a single character or a
    class, which is what [Rep] holds. *)
Inductive regex : Type :=
| Empty                          (* the empty pattern *)
| Chars (cs : cset)              (* a character or a class [...] *)
| WordBoundary                   (* \b *)
| LineStart                      (* ^ *)
| LineEnd                        (* $ *)
| Cat (r1 r2 : regex)            (* r1 r2 *)
| Alt (r1 r2 : regex)            (* r1|r2 *)
| Rep (n : nat) (cs : cset)      (* cs{n,}, greedy; cs+ is n = 1 *)
| Group (r : regex).             (* ( r ) *)

Definition Lit (c : Z) : regex := Chars [single c].

(** A literal string as a pattern. *)
Definition lits (s : jsstring) : regex := foldr (λ c r, Cat (Lit c) r) Empty s.

(** A backtracking matcher in continuation-passing style.  The state is
    the code unit before the current position ([None] at the start of
    the input) and the rest of the input; the continuation says whether
    the rest of the pattern matches from there, and returns what is
    left of the input after the whole match. *)
Abbreviation cont := (option Z → list Z → option (list Z)) (only parsing).

(** [cs{n,}]: take as many as possible, give back one at a time. *)
Fixpoint greedy (cs : cset) (n : nat) (prev : option Z) (s : list Z)
    (k : cont) : option (list Z) :=
  let stop := match n with O => k prev s | S _ => None end in
  match s with
  | [] => stop
  | c :: s' =>
      if cset_mem c cs then
        match greedy cs (pred n) (Some c) s' k with
        | Some rest => Some rest
        | None => stop
        end
      else stop
  end.

Fixpoint rmatch (r : regex) (prev : option Z) (s : list Z) (k : cont)
    : option (list Z) :=
  match r with
  | Empty => k prev s
  | Chars cs =>
      match s with
      | c :: s' => if cset_mem c cs then k (Some c) s' else None
      | [] => None
      end
  | WordBoundary =>
      if xorb (word_at prev) (word_at (head s)) then k prev s else None
  | LineStart => match prev with None => k prev s | Some _ => None end
  | LineEnd => match s with [] => k prev s | _ :: _ => None end
  | Cat r1 r2 => rmatch r1 prev s (λ p s', rmatch r2 p s' k)
  | Alt r1 r2 =>
      match rmatch r1 prev s k with
      | Some rest => Some rest
      | None => rmatch r2 prev s k
      end
  | Rep n cs => greedy cs n prev s k
  | Group r => rmatch r prev s k
  end.

(** The length of the match of [r] that starts at the current position,
    if there is one. *)
Definition match_at (r : regex) (prev : option Z) (s : list Z) : option nat :=
  (λ rest, length s - length rest) <$> rmatch r prev s (λ _ rest, Some rest).

(** ** [String.prototype.replace]

    [m prev s] is the length of the match at the current position and
    [repl] maps the matched substring to its replacement.  With the [g]
    flag every match is replaced, scanning from the left: after a match
    the search goes on at its end, and one code unit further when the
    match was empty (AdvanceStringIndex).  [skip] counts the code units
    of the current match that are still to be passed over. *)
Section replace.
Context (m : option Z → list Z → option nat) (repl : jsstring → jsstring).

Fixpoint replace_go (skip : nat) (prev : option Z) (s : list Z) : list Z :=
  match skip with
  | S k =>
      match s with
      | [] => []
      | c :: s' => replace_go k (Some c) s'
      end
  | O =>
      match m prev s with
      | Some n =>
          repl (take n s) ++
          match s with
          | [] => []
          | c :: s' =>
              match n with
              | O => c :: replace_go 0 (Some c) s'
              | S k => replace_go k (Some c) s'
              end
          end
      | None =>
          match s with
          | [] => []
          | c :: s' => c :: replace_go 0 (Some c) s'
          end
      end
  end.

(** Without the [g] flag only the first match is replaced. *)
Fixpoint replace_first (prev : option Z) (s : list Z) : list Z :=
  match m prev s with
  | Some n => repl (take n s) ++ drop n s
  | None =>
      match s with
      | [] => []
      | c :: s' => c :: replace_first (Some c) s'
      end
  end.
End replace.

(** [s.replace(/r/g, f)] and [s.replace(/r/, f)] *)
Definition replaceAll (r : regex) (repl : jsstring → jsstring) (s : jsstring)
    : jsstring :=
  replace_go (match_at r) repl 0 None s.

Definition replaceOnce (r : regex) (repl : jsstring → jsstring) (s : jsstring)
    : jsstring :=
  replace_first (match_at r) repl None s.

(** Method chains read left to right. *)
Notation "x |> f" := (f x) (at level 68, left associativity, only parsing).

(* ===================================================================== *)
(** * 4. Built-ins that depend on the Unicode Character Database          *)
(* ===================================================================== *)

(** [String.prototype.normalize('NFKD')] and [String.prototype.toLowerCase]
    are table driven.  The general statements below hold for whatever
    these two functions are; the worked examples use [latin1], the part
    of the tables for Basic Latin and the Latin-1 Supplement. *)
Class Unicode := {
  normalizeNFKD : jsstring → jsstring;
  toLowerCase : jsstring → jsstring;
}.

Module Latin1.
Local Open Scope Z_scope.

(** Compatibility decomposition of U+0000..U+00FF (UnicodeData.txt,
    field 5, applied recursively).  Every entry is a starter followed
    by at most one combining mark, so no canonical reordering arises
    for input without combining marks of its own. *)
Definition decompose (c : Z) : jsstring :=
  match c with
  | 0xA0 => [0x20] | 0xA8 => [0x20; 0x308] | 0xAA => [0x61]
  | 0xAF => [0x20; 0x304] | 0xB2 => [0x32] | 0xB3 => [0x33]
  | 0xB4 => [0x20; 0x301] | 0xB5 => [0x3BC] | 0xB8 => [0x20; 0x327]
  | 0xB9 => [0x31] | 0xBA => [0x6F]
  | 0xBC => [0x31; 0x2044; 0x34] | 0xBD => [0x31; 0x2044; 0x32]
  | 0xBE => [0x33; 0x2044; 0x34]
  | 0xC0 => [0x41; 0x300] | 0xC1 => [0x41; 0x301] | 0xC2 => [0x41; 0x302]
  | 0xC3 => [0x41; 0x303] | 0xC4 => [0x41; 0x308] | 0xC5 => [0x41; 0x30A]
  | 0xC7 => [0x43; 0x327]
  | 0xC8 => [0x45; 0x300] | 0xC9 => [0x45; 0x301] | 0xCA => [0x45; 0x302]
  | 0xCB => [0x45; 0x308]
  | 0xCC => [0x49; 0x300] | 0xCD => [0x49; 0x301] | 0xCE => [0x49; 0x302]
  | 0xCF => [0x49; 0x308]
  | 0xD1 => [0x4E; 0x303]
  | 0xD2 => [0x4F; 0x300] | 0xD3 => [0x4F; 0x301] | 0xD4 => [0x4F; 0x302]
  | 0xD5 => [0x4F; 0x303] | 0xD6 => [0x4F; 0x308]
  | 0xD9 => [0x55; 0x300] | 0xDA => [0x55; 0x301] | 0xDB => [0x55; 0x302]
  | 0xDC => [0x55; 0x308] | 0xDD => [0x59; 0x301]
  | 0xE0 => [0x61; 0x300] | 0xE1 => [0x61; 0x301] | 0xE2 => [0x61; 0x302]
  | 0xE3 => [0x61; 0x303] | 0xE4 => [0x61; 0x308] | 0xE5 => [0x61; 0x30A]
  | 0xE7 => [0x63; 0x327]
  | 0xE8 => [0x65; 0x300] | 0xE9 => [0x65; 0x301] | 0xEA => [0x65; 0x302]
  | 0xEB => [0x65; 0x308]
  | 0xEC => [0x69; 0x300] | 0xED => [0x69; 0x301] | 0xEE => [0x69; 0x302]
  | 0xEF => [0x69; 0x308]
  | 0xF1 => [0x6E; 0x303]
  | 0xF2 => [0x6F; 0x300] | 0xF3 => [0x6F; 0x301] | 0xF4 => [0x6F; 0x302]
  | 0xF5 => [0x6F; 0x303] | 0xF6 => [0x6F; 0x308]
  | 0xF9 => [0x75; 0x300] | 0xFA => [0x75; 0x301] | 0xFB => [0x75; 0x302]
  | 0xFC => [0x75; 0x308] | 0xFD => [0x79; 0x301] | 0xFF => [0x79; 0x308]
  | _ => [c]
  end.

(** Simple lower-case mapping: A..Z, and U+00C0..U+00DE but for the
    multiplication sign U+00D7. *)
Definition lower (c : Z) : Z :=
  if ((0x41 <=? c) && (c <=? 0x5A))
     || ((0xC0 <=? c) && (c <=? 0xDE) && negb (c =? 0xD7))
  then c + 0x20 else c.

(** The code units on which [decompose] is the whole truth: Basic
    Latin, the Latin-1 Supplement, and the dash and quotation marks
    U+2014, U+2018, U+2019, U+201C, U+201D, which have no
    decomposition and no case. *)
Definition covered (c : Z) : bool :=
  ((0 <=? c) && (c <=? 0xFF))
  || cset_mem c (single <$> [0x2014; 0x2018; 0x2019; 0x201C; 0x201D]).
End Latin1.

Instance latin1 : Unicode := {|
  normalizeNFKD s := s ≫= Latin1.decompose;
  toLowerCase s := Latin1.lower <$> s;
|}.

(** [String.prototype.trim] *)
Fixpoint trimStart (s : jsstring) : jsstring :=
  match s with
  | c :: s' => if is_space c then trimStart s' else s
  | [] => []
  end.

Definition trimEnd (s : jsstring) : jsstring := reverse (trimStart (reverse s)).

Definition trim (s : jsstring) : jsstring := trimEnd (trimStart s).

(* ===================================================================== *)
(** * 5. [slugify]                                                        *)
(* ===================================================================== *)

(** [/[\u0000-\u001f]/g] *)
Definition rControl : regex := Chars [(0x0000, 0x001f)%Z].

(** The class of [rSpecial]: [\s] and the thirty-six characters listed
    after it in the source, the double quote given by its code. *)
Definition cls_special : cset :=
  cls_space
  ++ chars_of (js "~`!@#$%^&*()-_+=[]{}|\;:")
  ++ chars_of dquote
  ++ chars_of (js "'“”‘’<>,.?/").

(** [/[\s~`!@#$%^&*()\-_+=[\]{}|\\;:...<>,.?/]+/g], the six quotation
    marks left out here. *)
Definition rSpecial : regex := Rep 1 cls_special.

(** [/[\u0300-\u036F]/g] *)
Definition rCombining : regex := Chars [(0x0300, 0x036F)%Z].

(** [/-{2,}/g] *)
Definition rHyphens : regex := Rep 2 cls_hyphen.

(** [/^-+|-+$/g] *)
Definition rEdges : regex :=
  Alt (Cat LineStart (Rep 1 cls_hyphen)) (Cat (Rep 1 cls_hyphen) LineEnd).

(** [/^(\d)/]; its group is the whole match, so [$1] is the match. *)
Definition rLeadingDigit : regex := Cat LineStart (Group (Chars cls_digit)).

Definition slugify `{U : Unicode} (str : jsstring) : jsstring :=
  str
    |> normalizeNFKD
    (* Remove accents *)
    |> replaceAll rCombining (λ _, [])
    (* Remove control characters *)
    |> replaceAll rControl (λ _, [])
    (* Replace special characters *)
    |> replaceAll rSpecial (λ _, js "-")
    (* Remove continuos separators *)
    |> replaceAll rHyphens (λ _, js "-")
    (* Remove prefixing and trailing separators *)
    |> replaceAll rEdges (λ _, [])
    (* Ensure it doesn't start with a number (#121) *)
    |> replaceOnce rLeadingDigit (λ m, js "_" ++ m)
    (* Lowercase *)
    |> toLowerCase.


(* ===================================================================== *)
(** * 6. [new RegExp(source)]                                             *)
(* ===================================================================== *)

(** The guard builds its pattern at run time, so the pattern source is
    parsed here as the engine would.  The parser covers characters,
    identity escapes of punctuation, [\b], groups and alternation;
    [None] stands for a [SyntaxError] or for a construct outside this
    fragment. *)
Inductive ptoken : Type :=
| PChar (c : Z)
| PWordB
| PBar
| POpen
| PClose.

(** SyntaxCharacter of ECMA-262, and the two further characters the
    guard escapes. *)
Definition cls_syntax : cset := chars_of (js "^$\.*+?()[]{}|").
Definition cls_escapable : cset := cls_syntax ++ chars_of (js "-/").

Section lexer.
Local Open Scope Z_scope.

Fixpoint lex (src : jsstring) : option (list ptoken) :=
  match src with
  | [] => Some []
  | c :: rest =>
      if c =? 0x5C (* \ *) then
        match rest with
        | [] => None
        | e :: rest' =>
            if e =? 0x62 (* b *) then (PWordB ::.) <$> lex rest'
            else if cset_mem e cls_escapable then (PChar e ::.) <$> lex rest'
            else None
        end
      else if c =? 0x7C (* | *) then (PBar ::.) <$> lex rest
      else if c =? 0x28 (* ( *) then (POpen ::.) <$> lex rest
      else if c =? 0x29 (* ) *) then (PClose ::.) <$> lex rest
      else if cset_mem c cls_syntax then None
      else (PChar c ::.) <$> lex rest
  end.
End lexer.

(** An Alternative is a sequence of terms, a Disjunction a list of
    alternatives tried from the left. *)
Definition seq_of (terms : list regex) : regex := foldr Cat Empty terms.

Fixpoint alt_of (alts : list regex) : regex :=
  match alts with
  | [] => Empty
  | [a] => a
  | a :: alts' => Alt a (alt_of alts')
  end.

Definition disjunction (done : list regex) (cur : list regex) : regex :=
  alt_of (done ++ [seq_of cur]).

(** [done] holds the finished alternatives of the innermost open
    group, [cur] the terms of its current alternative, [outer] the same
    pair for each enclosing group. *)
Fixpoint parse (ts : list ptoken) (done cur : list regex)
    (outer : list (list regex * list regex)) : option regex :=
  match ts with
  | [] =>
      match outer with
      | [] => Some (disjunction done cur)
      | _ :: _ => None
      end
  | PChar c :: ts' => parse ts' done (cur ++ [Lit c]) outer
  | PWordB :: ts' => parse ts' done (cur ++ [WordBoundary]) outer
  | PBar :: ts' => parse ts' (done ++ [seq_of cur]) [] outer
  | POpen :: ts' => parse ts' [] [] ((done, cur) :: outer)
  | PClose :: ts' =>
      match outer with
      | [] => None
      | (d, c) :: outer' =>
          parse ts' d (c ++ [Group (disjunction done cur)]) outer'
      end
  end.

Definition RegExp (source : jsstring) : option regex :=
  ts ← lex source; parse ts [] [] [].

(** [Array.prototype.join] *)
Fixpoint join (sep : jsstring) (parts : list jsstring) : jsstring :=
  match parts with
  | [] => []
  | [p] => p
  | p :: parts' => p ++ sep ++ join sep parts'
  end.

(* ===================================================================== *)
(** * 7. [preventViteConstantsReplacement]                                *)
(* ===================================================================== *)

(** [/\bimport\.meta/g] and [/\bprocess\.env/g] *)
Definition rImportMeta : regex := Cat WordBoundary (lits (js "import.meta")).
Definition rProcessEnv : regex := Cat WordBoundary (lits (js "process.env")).

(** [/[-[\]/{}()*+?.\\^$|]/g] *)
Definition rMeta : regex := Chars (chars_of (js "-[]/{}()*+?.\^$|")).

(** [key.replace(rMeta, '\\$&')]: a backslash before the match. *)
Definition escapeKey (key : jsstring) : jsstring :=
  replaceAll rMeta (λ m, js "\" ++ m) key.

(** The template [`\\b(${...})`]. *)
Definition defineSource (keys : list jsstring) : jsstring :=
  js "\b(" ++ join (js "|") (escapeKey <$> keys) ++ js ")".

(** [`${_[0]}`]: indexing past the end of a string gives [undefined],
    which a template literal prints as such. *)
Definition index0 (m : jsstring) : jsstring :=
  match m with
  | c :: _ => [c]
  | [] => js "undefined"
  end.

(** [(_) => `${_[0]}<wbr/>${_.slice(1)}`] *)
Definition breakAfterFirst (m : jsstring) : jsstring :=
  index0 m ++ js "<wbr/>" ++ slice1 m.

(** [define] is given by [Object.keys(define)], the only thing the
    function reads of it; [None] is an absent argument.  An object is
    truthy whatever its keys. *)
Definition preventViteConstantsReplacement
    (source : jsstring) (define : option (list jsstring)) : option jsstring :=
  let source :=
    source
      |> replaceAll rImportMeta (λ _, js "import.<wbr/>meta")
      |> replaceAll rProcessEnv (λ _, js "process.<wbr/>env") in
  match define with
  | Some keys =>
      regex ← RegExp (defineSource keys);
      Some (replaceAll regex breakAfterFirst source)
  | None => Some source
  end.


(* ===================================================================== *)
(** * 8. Tokens and headers                                               *)
(* ===================================================================== *)

(** A [markdown-it] token, with the fields this module reads.  [attrs]
    and [children] may be [null]; of [meta] only the truthiness of
    [isPermalinkSymbol] matters. *)
Module Token.
Record Meta : Type := { isPermalinkSymbol : bool }.

Inductive t : Type := mk {
  type : jsstring;
  tag : jsstring;
  attrs : option (list (jsstring * jsstring));
  children : option (list t);
  content : jsstring;
  meta : option Meta;
}.

(** [Token.prototype.attrGet]: the value of the first attribute of
    that name, [null] when there is none. *)
Definition attrGet (token : t) (name : jsstring) : option jsstring :=
  match attrs token with
  | None => None
  | Some l => snd <$> List.find (λ kv, str_eqb kv.1 name) l
  end.
End Token.

Abbreviation Token := Token.t.

(** [MarkdownHeader], the value the caller receives: a tree. *)
Inductive MarkdownHeader : Type := Header {
  level : Z;
  title : jsstring;
  slug : jsstring;
  children : list MarkdownHeader;
}.

(** While the tree is built the header objects live in a store and a
    [children] array holds references: the stack and the result alias
    the same objects, and [stack[0].children.push] is seen through
    both.  An address is an index into the store; objects are never
    freed. *)
Abbreviation addr := nat (only parsing).

Module Obj.
Record t : Type := mk {
  level : Z;
  title : jsstring;
  slug : jsstring;
  children : list addr;
}.

(** [o.children.push(a)] *)
Definition push_child (a : addr) (o : t) : t :=
  mk (level o) (title o) (slug o) (children o ++ [a]).
End Obj.

(** Calls of the injected callbacks, in the order they are made. *)
Inductive Event : Type :=
| CallSlugify (arg : jsstring)
| CallFormat (arg : jsstring).

Module Options.
(** [level] is a set of integers. *)
Record t : Type := mk {
  level : list Z;
  allowHtml : bool;
  escapeText : bool;
  slugify : jsstring → jsstring;
  format : option (jsstring → jsstring);
}.
End Options.

(** The two local arrays of [resolveHeadersFromTokens], the store they
    point into, and the calls made so far. *)
Record State : Type := mkState {
  store : list Obj.t;
  headers : list addr;
  stack : list addr;
  trace : list Event;
}.

Definition initial : State := mkState [] [] [] [].

(** The tree an address denotes.  [fuel] bounds the depth. *)
Fixpoint reify (fuel : nat) (store : list Obj.t) (a : addr)
    : option MarkdownHeader :=
  match fuel with
  | O => None
  | S fuel =>
      o ← store !! a;
      cs ← mapM (reify fuel store) (Obj.children o);
      Some (Header (Obj.level o) (Obj.title o) (Obj.slug o) cs)
  end.

(** [Array.prototype.includes] *)
Definition includes `{EqDecision A} (x : A) (l : list A) : bool :=
  bool_decide (x ∈ l).

Section parseInt.
Local Open Scope Z_scope.

Fixpoint leading_digits (s : jsstring) : list Z :=
  match s with
  | c :: s' => if is_digit c then c :: leading_digits s' else []
  | [] => []
  end.

(** [Number.parseInt(s, 10)]: white space, a sign, decimal digits;
    [None] is [NaN].  The value is the exact integer; the code has the
    double nearest to it, which is the same number below 2^53.  What
    is proved of the value itself is stated below that bound. *)
Definition parseInt (s : jsstring) : option Z :=
  let s := trimStart s in
  let '(sign, s) :=
    match s with
    | c :: s' =>
        if c =? 0x2D (* - *) then (-1, s')
        else if c =? 0x2B (* + *) then (1, s')
        else (1, s)
    | [] => (1, [])
    end in
  match leading_digits s with
  | [] => None
  | ds => Some (sign * foldl (λ acc d, acc * 10 + (d - 0x30)) 0 ds)
  end.
End parseInt.

Section header_tree.
(** [htmlEscape] of [@vitebook/core/node] is not part of this module;
    the title extractor is stated for any such function. *)
Context (htmlEscape : jsstring → jsstring).

Definition resolveTitleFromToken (token : Token)
    (allowHtml escapeText : bool) : jsstring :=
  (* Children of the token contains the parsed result of the heading title. *)
  let children := default [] (Token.children token) in
  (* Type of tokens to be included in the heading title. *)
  let titleTokenTypes :=
    [js "text"; js "emoji"; js "code_inline"]
    (* Include 'html_inline' or not. *)
    ++ (if allowHtml then [js "html_inline"] else []) in
  (* Filter the token type to be included in the title. *)
  let titleTokens :=
    List.filter
      (λ item,
         includes (Token.type item) titleTokenTypes
         (* Filter permalink symbol that generated by markdown-it-anchor. *)
         && negb (from_option Token.isPermalinkSymbol false (Token.meta item)))
      children in
  (* Get title from tokens. *)
  trim
    (foldl
       (λ result item,
          if escapeText
             && (str_eqb (Token.type item) (js "code_inline")
                 || str_eqb (Token.type item) (js "text"))
          then
            (* Escape the content of 'code_inline' and 'text'. *)
            result ++ htmlEscape (Token.content item)
          else
            (* Keep the content of 'emoji' and 'html_inline'. *)
            result ++ Token.content item)
       [] titleTokens).

(** [stack[0].level], for the loop condition. *)
Definition level_at (store : list Obj.t) (a : addr) : option Z :=
  Obj.level <$> store !! a.

(** [while (stack.length !== 0 && header.level <= stack[0].level)
    stack.shift()] *)
Fixpoint shift_while (store : list Obj.t) (lvl : Z) (stack : list addr)
    : list addr :=
  match stack with
  | [] => []
  | top :: stack' =>
      match level_at store top with
      | Some l => if (lvl <=? l)%Z then shift_while store lvl stack' else stack
      | None => stack
      end
  end.

(** Push a header to the headers tree.  The object literal is
    allocated at the end of the store before [push] runs. *)
Definition push (header : Obj.t) (st : State) : State :=
  let a := length (store st) in
  match shift_while (store st) (Obj.level header) (stack st) with
  | [] =>
      mkState (store st ++ [header]) (headers st ++ [a]) [a] (trace st)
  | top :: rest =>
      mkState (alter (Obj.push_child a) top (store st) ++ [header])
              (headers st) (a :: top :: rest) (trace st)
  end.

Definition log (e : Event) (st : State) : State :=
  mkState (store st) (headers st) (stack st) (trace st ++ [e]).

(** The callback of [tokens.forEach]. *)
Definition visit (tokens : list Token) (opts : Options.t) (idx : nat)
    (st : State) : State :=
  match tokens !! idx with
  | None => st
  | Some token =>
      (* If the token type does not match, skip. *)
      if negb (str_eqb (Token.type token) (js "heading_open")) then st else
      (* Get the level from the tag, h1 -> 1. *)
      match parseInt (slice1 (Token.tag token)) with
      | None => st
      | Some headerLevel =>
          (* If the level should not be extracted, skip. *)
          if negb (includes headerLevel (Options.level opts)) then st else
          (* The next token of 'heading_open' contains the heading content. *)
          match tokens !! (idx + 1) with
          (* If the next token does not exist, skip. *)
          | None => st
          | Some nextToken =>
              let title :=
                resolveTitleFromToken nextToken (Options.allowHtml opts)
                  (Options.escapeText opts) in
              let '(slug, st) :=
                match Token.attrGet token (js "id") with
                | Some id => (id, st)
                | None =>
                    (Options.slugify opts title, log (CallSlugify title) st)
                end in
              (* [isFunction(format)]: a format is a function when there is one. *)
              let '(title', st) :=
                match Options.format opts with
                | Some format => (format title, log (CallFormat title) st)
                | None => (title, st)
                end in
              (* Push the header to tree. *)
              push (Obj.mk headerLevel title' slug []) st
          end
      end
  end.

(** The state after [forEach] has visited the first [n] indices. *)
Definition run_to (tokens : list Token) (opts : Options.t) (n : nat) : State :=
  foldl (λ st idx, visit tokens opts idx st) initial (seq 0 n).

Definition run (tokens : list Token) (opts : Options.t) : State :=
  run_to tokens opts (length tokens).

(** [return headers]: the trees the result array denotes.  The fuel is
    the size of the store, which [resolve_outline] shows to be enough:
    the result is never [None]. *)
Definition resolveHeadersFromTokens (tokens : list Token) (opts : Options.t)
    : option (list MarkdownHeader) :=
  let st := run tokens opts in
  mapM (reify (length (store st)) (store st)) (headers st).
End header_tree.


(* ===================================================================== *)
(** * 9. What the specification says, in its own words                    *)
(* ===================================================================== *)

(** ** The outline *)

(** A header without its children. *)
Definition entry (h : MarkdownHeader) : MarkdownHeader :=
  Header (level h) (title h) (slug h) [].

(** The headers of a tree in document order: a node, then its subtrees
    from first to last. *)
Fixpoint outline (h : MarkdownHeader) : list MarkdownHeader :=
  entry h :: flat_map outline (children h).

Definition outline_all (f : list MarkdownHeader) : list MarkdownHeader :=
  flat_map outline f.

(** Every child lies strictly deeper than its parent. *)
Inductive deepening : MarkdownHeader → Prop :=
| Deepening l t s cs :
    Forall (λ c, (l < level c)%Z ∧ deepening c) cs →
    deepening (Header l t s cs).

(** [graft d h f] hangs [h] as the last child below the [d] last
    headers on the way down from the top of the forest [f]; for
    [d = 0] it is a new last entry of the top level. *)
Fixpoint graft (d : nat) (h : MarkdownHeader) (f : list MarkdownHeader)
    : list MarkdownHeader :=
  match d with
  | O => f ++ [h]
  | S d =>
      match reverse f with
      | [] => [h]
      | t :: before =>
          reverse before
          ++ [Header (level t) (title t) (slug t) (graft d h (children t))]
      end
  end.

Section captured.
Context (htmlEscape : jsstring → jsstring).

(** The header a captured heading gives: the slug is the identifier
    attribute of the opening token if it has one and the slugified
    title if not, the title is formatted if a format is supplied. *)
Definition header_of (opts : Options.t) (open next : Token) (lvl : Z)
    : MarkdownHeader :=
  let title :=
    resolveTitleFromToken htmlEscape next (Options.allowHtml opts)
      (Options.escapeText opts) in
  Header lvl
    (from_option (λ format, format title) title (Options.format opts))
    (default (Options.slugify opts title) (Token.attrGet open (js "id")))
    [].

(** The heading that starts at index [idx], if one is captured
    there: an opening token whose level is requested and which is
    followed by a token. *)
Definition capture (tokens : list Token) (opts : Options.t) (idx : nat)
    : option MarkdownHeader :=
  open ← tokens !! idx;
  guard (Token.type open = js "heading_open");;
  lvl ← parseInt (slice1 (Token.tag open));
  guard (lvl ∈ Options.level opts);;
  next ← tokens !! S idx;
  Some (header_of opts open next lvl).

(** The captured headings in document order. *)
Definition captured (tokens : list Token) (opts : Options.t)
    : list MarkdownHeader :=
  omap (capture tokens opts) (seq 0 (length tokens)).

(** The number of headings captured before index [idx]: the position,
    in document order, of the header that a heading captured at [idx]
    gives. *)
Definition captured_before (tokens : list Token) (opts : Options.t)
    (idx : nat) : nat :=
  length (omap (capture tokens opts) (seq 0 idx)).

(** The callbacks a captured heading calls, in order: [slugify] on
    the extracted title unless the opening token has an identifier,
    then [format] on the same title if there is one. *)
Definition calls (opts : Options.t) (open next : Token) : list Event :=
  let title :=
    resolveTitleFromToken htmlEscape next (Options.allowHtml opts)
      (Options.escapeText opts) in
  (if Token.attrGet open (js "id") is Some _ then [] else [CallSlugify title])
  ++ (if Options.format opts is Some _ then [CallFormat title] else []).

(** The calls the heading at [idx] makes, if one is captured there. *)
Definition calls_at (tokens : list Token) (opts : Options.t) (idx : nat)
    : list Event :=
  match tokens !! idx, tokens !! S idx with
  | Some open, Some next => calls opts open next
  | _, _ => []
  end.
End captured.

(** ** The insertion *)

(** The object a header without children is stored as. *)
Definition obj_of (h : MarkdownHeader) : Obj.t :=
  Obj.mk (level h) (title h) (slug h) [].

(** The state with further calls recorded. *)
Definition logs (es : list Event) (st : State) : State :=
  mkState (store st) (headers st) (stack st) (trace st ++ es).

(** [e.level >= lvl], for an entry of the stack. *)
Definition at_least_as_deep (store : list Obj.t) (lvl : Z) (e : addr) : bool :=
  match level_at store e with
  | Some l => (lvl <=? l)%Z
  | None => false
  end.

(** The insertion as the specification words it: every entry at least
    as deep as [H] leaves the stack; [H] becomes a top-level entry if
    none is left and the last child of the front entry if one is, and
    the front entry itself either way. *)
Definition insert_header (H : Obj.t) (st : State) : State :=
  let a := length (store st) in
  let open :=
    List.filter (λ e, negb (at_least_as_deep (store st) (Obj.level H) e))
      (stack st) in
  match open with
  | [] => mkState (store st ++ [H]) (headers st ++ [a]) [a] (trace st)
  | front :: _ =>
      mkState (alter (Obj.push_child a) front (store st) ++ [H])
        (headers st) (a :: open) (trace st)
  end.

(** ** The title *)

Definition title_types (allowHtml : bool) : list jsstring :=
  [js "text"; js "emoji"; js "code_inline"]
  ++ (if allowHtml then [js "html_inline"] else []).

(** A child is part of the title when its type is one of the allowed
    ones and it is not flagged as a permalink symbol. *)
Definition in_title (allowHtml : bool) (item : Token) : bool :=
  includes (Token.type item) (title_types allowHtml)
  && negb (from_option Token.isPermalinkSymbol false (Token.meta item)).

(** What a child adds to the title. *)
Definition piece (htmlEscape : jsstring → jsstring) (escapeText : bool)
    (item : Token) : jsstring :=
  if escapeText
     && (str_eqb (Token.type item) (js "code_inline")
         || str_eqb (Token.type item) (js "text"))
  then htmlEscape (Token.content item)
  else Token.content item.

Definition extractTitle (htmlEscape : jsstring → jsstring) (token : Token)
    (allowHtml escapeText : bool) : jsstring :=
  trim (concat (piece htmlEscape escapeText
                  <$> List.filter (in_title allowHtml)
                        (default [] (Token.children token)))).

(** Modelled from the spec: [htmlEscape] of [@vitebook/core/node], whose
    source is not part of this module; it escapes at minimum the
    characters [&], [<], [>] and the double quote.  Only the worked
    example of the title extractor uses it. *)
Definition htmlEscape_model (s : jsstring) : jsstring :=
  s ≫= λ c,
    if (c =? 0x26)%Z then js "&amp;"
    else if (c =? 0x3C)%Z then js "&lt;"
    else if (c =? 0x3E)%Z then js "&gt;"
    else if (c =? 0x22)%Z then js "&quot;"
    else [c].

(** ** The slugifier, step by step *)

Definition is_hyphen (c : Z) : bool := cset_mem c cls_hyphen.

(** Strip the code units of a class. *)
Definition strip (cs : cset) (s : jsstring) : jsstring :=
  List.filter (λ c, negb (cset_mem c cs)) s.

(** Replace every maximal run of code units of a class with a single
    hyphen: a member of the class becomes a hyphen where it starts a
    run and nothing where it continues one. *)
Fixpoint squash (cs : cset) (in_run : bool) (s : jsstring) : jsstring :=
  match s with
  | [] => []
  | c :: s' =>
      if cset_mem c cs then
        (if in_run then [] else js "-") ++ squash cs true s'
      else c :: squash cs false s'
  end.

(** Collapse runs of two or more hyphens into one: a hyphen that is
    followed by a hyphen goes. *)
Fixpoint collapse (s : jsstring) : jsstring :=
  match s with
  | [] => []
  | c :: s' =>
      if is_hyphen c && from_option is_hyphen false (head s') then collapse s'
      else c :: collapse s'
  end.

(** Trim leading and trailing hyphens. *)
Fixpoint drop_hyphens (s : jsstring) : jsstring :=
  match s with
  | c :: s' => if is_hyphen c then drop_hyphens s' else s
  | [] => []
  end.

Definition trim_hyphens (s : jsstring) : jsstring :=
  reverse (drop_hyphens (reverse (drop_hyphens s))).

(** Prefix an underscore if the string starts with a digit. *)
Definition prefix_underscore (s : jsstring) : jsstring :=
  match s with
  | c :: _ => if is_digit c then js "_" ++ s else s
  | [] => []
  end.

(** The eight steps of the specification, for a given list of special
    characters. *)
Definition slugify_steps `{U : Unicode} (special : jsstring) (s : jsstring)
    : jsstring :=
  s |> normalizeNFKD
    |> strip [(0x0300, 0x036F)%Z]
    |> strip [(0x0000, 0x001F)%Z]
    |> squash (cls_space ++ chars_of special) false
    |> collapse
    |> trim_hyphens
    |> prefix_underscore
    |> toLowerCase.

(** The special characters as the specification lists them (the
    straight double quote twice), and as the source lists them: the
    latter has the backtick and the two curly double quotes as well. *)
Definition special_in_spec : jsstring :=
  js "~!@#$%^&*()-_+=[]{}|\;:" ++ dquote ++ js "'" ++ dquote ++ js "‘’<>,.?/".

Definition special_in_source : jsstring :=
  js "~`!@#$%^&*()-_+=[]{}|\;:" ++ dquote ++ js "'“”‘’<>,.?/".

(** ** The guard *)

(** [s.startsWith(w)] *)
Definition starts_with (w s : jsstring) : bool :=
  bool_decide (take (length w) s = w).

(** A position is a word boundary when exactly one of its two sides is
    a word character. *)
Definition boundary (prev : option Z) (s : jsstring) : bool :=
  xorb (word_at prev) (word_at (head s)).

(** The first of [words] that starts at the current position, when
    that position is a word boundary. *)
Definition find_word (words : list jsstring) (prev : option Z) (s : jsstring)
    : option nat :=
  if boundary prev s then length <$> List.find (λ w, starts_with w s) words
  else None.

(** The invisible break marker. *)
Definition marker : jsstring := js "<wbr/>".

(** A match with the marker after its first [off] code units. *)
Definition break_at (off : nat) (m : jsstring) : jsstring :=
  take off m ++ marker ++ drop off m.

(** Scanning from the left, break every match of [find_word] and go on
    after it. *)
Definition guard_words (words : list jsstring) (off : nat) (s : jsstring)
    : jsstring :=
  replace_go (find_word words) (break_at off) 0 None s.

(** The pattern that matches one of [words] literally at a word
    boundary. *)
Definition words_regex (words : list jsstring) : regex :=
  Cat WordBoundary (Cat (Group (alt_of (lits <$> words))) Empty).

Definition nonempty {A} (l : list A) : bool :=
  match l with [] => false | _ :: _ => true end.

(** The mapping is absent, or it has a key and none of its keys is
    empty. *)
Definition usable (define : option (list jsstring)) : bool :=
  match define with
  | None => true
  | Some keys => nonempty keys && forallb nonempty keys
  end.

(** What the guard does, in words: break [import.meta] and
    [process.env] after the dot, then every key after its first code
    unit. *)
Definition guarded (source : jsstring) (define : option (list jsstring))
    : jsstring :=
  let source :=
    source
      |> guard_words [js "import.meta"] 7
      |> guard_words [js "process.env"] 8 in
  match define with
  | Some keys => guard_words keys 1 source
  | None => source
  end.

(** [t] is [s] with one copy of [x] put in; [inserted]: with copies of
    [x] put in, one after the other. *)
Definition insert1 (x s t : jsstring) : Prop :=
  ∃ a b, s = a ++ b ∧ t = a ++ x ++ b.

Definition inserted (x : jsstring) : relation jsstring := rtc (insert1 x).

(** [x] put in at every word boundary. *)
Fixpoint at_boundaries (x : jsstring) (prev : option Z) (s : jsstring)
    : jsstring :=
  (if boundary prev s then x else [])
  ++ match s with
     | [] => []
     | c :: s' => c :: at_boundaries x (Some c) s'
     end.

(** ** Tokens for the worked examples *)

Module Example.
(** An opening tag, with an identifier attribute or without. *)
Definition heading_open (tag : string) (id : option jsstring) : Token :=
  Token.mk (js "heading_open") (js tag)
    (from_option (λ v, Some [(js "id", v)]) None id) None [] None.

Definition heading_close (tag : string) : Token :=
  Token.mk (js "heading_close") (js tag) None None [] None.

Definition child (type content : string) : Token :=
  Token.mk (js type) [] None None (js content) None.

Definition inline (children : list Token) : Token :=
  Token.mk (js "inline") [] None (Some children) [] None.

(** A heading of plain text at the level of [tag], as the tokenizer
    gives it. *)
Definition heading (tag text : string) : list Token :=
  [heading_open tag None; inline [child "text" text]; heading_close tag].

Definition options (levels : list Z) : Options.t :=
  Options.mk levels false false (slugify (U := latin1)) None.

Definition leaf (l : Z) (title slug : string) : MarkdownHeader :=
  Header l (js title) (js slug) [].
End Example.

Module Example5.
Import Example.

(** A child of the given type and content; [symbol] is the
    [isPermalinkSymbol] flag of its [meta]. *)
Definition item (type : string) (content : jsstring) (symbol : bool) : Token :=
  Token.mk (js type) [] None None content
    (Some {| Token.isPermalinkSymbol := symbol |}).

(** White space at both ends, all four characters to escape, a
    permalink symbol, an emoji and inline HTML. *)
Definition children : list Token :=
  [ item "text" (js "  Q&A: ") false;
    item "code_inline" (js "say " ++ dquote ++ js "<hi>" ++ dquote) false;
    item "text" (js "#") true;
    item "html_inline" (js "<i>x</i>") false;
    item "emoji" (js "<3") false;
    item "softbreak" (js "--") false;
    item "text" (js " " ++ [9; 10; 0xA0]%Z) false ].
End Example5.

Module Example6.
Import Example.

Definition tokens : list Token := heading "h2" "Hello World".

(** A format that puts a section sign before the title. *)
Definition opts : Options.t :=
  Options.mk [2; 3]%Z false false (slugify (U := latin1))
    (Some (λ t, js "§ " ++ t)).

(** The same heading with the identifier [custom]. *)
Definition tokens_id : list Token :=
  [heading_open "h2" (Some (js "custom"));
   inline [child "text" "Hello World"]; heading_close "h2"].

(** The same heading with an identifier that is the empty string. *)
Definition tokens_empty_id : list Token :=
  [heading_open "h2" (Some []);
   inline [child "text" "Hello World"]; heading_close "h2"].

(** A heading without an identifier, then one with the identifier
    [custom], then one whose identifier is the empty string. *)
Definition tokens_three : list Token :=
  heading "h2" "Hello World"
  ++ [heading_open "h3" (Some (js "custom"));
      inline [child "text" "Hello World"]; heading_close "h3"]
  ++ [heading_open "h2" (Some []);
      inline [child "text" "Hello World"]; heading_close "h2"].
End Example6.

(* ===================================================================== *)
(** * 10. Notions for the proofs                                          *)
(* ===================================================================== *)

(** ** The store *)

(** [b] is [a] or one of its descendants. *)
Inductive reaches (store : list Obj.t) : addr → addr → Prop :=
| reaches_refl a : reaches store a a
| reaches_step a o c b :
    store !! a = Some o → c ∈ Obj.children o → reaches store c b →
    reaches store a b.

(** A child is allocated, and after its parent. *)
Definition kids_ok (store : list Obj.t) : Prop :=
  ∀ a o c, store !! a = Some o → c ∈ Obj.children o → a < c < length store.

(** [p] is a path of last children down from the list [kids], and no
    earlier sibling along it leads back to the path. *)
Fixpoint spine (store : list Obj.t) (kids : list addr) (p : list addr) : Prop :=
  match p with
  | [] => True
  | a :: p' =>
      ∃ init o,
        kids = init ++ [a] ∧ store !! a = Some o ∧
        (∀ c b, c ∈ init → reaches store c b → b ∉ p) ∧
        spine store (Obj.children o) p'
  end.

(** The store after [push] when the stack is left with [top] in front:
    [top] has the new object as a further child.  For [top] out of the
    store, as when the stack is left empty, no object changes. *)
Definition linked (store : list Obj.t) (new : Obj.t) (top : addr)
    : list Obj.t :=
  alter (Obj.push_child (length store)) top store ++ [new].

(** A parent is shallower than its children, in the store. *)
Definition deep_ok (store : list Obj.t) : Prop :=
  ∀ a o c oc,
    store !! a = Some o → c ∈ Obj.children o → store !! c = Some oc →
    (Obj.level o < Obj.level oc)%Z.

(** [a] is a strictly deeper heading than [b]. *)
Definition deeper (store : list Obj.t) (a b : addr) : Prop :=
  ∃ la lb,
    level_at store a = Some la ∧ level_at store b = Some lb ∧ (lb < la)%Z.

(** The invariant of the loop of [resolveHeadersFromTokens]: children
    come after their parents, the results are allocated, the stack is
    the path of last children from the last result down, its levels
    grow towards the front, and children are deeper than parents. *)
Record wf (st : State) : Prop := {
  wf_kids : kids_ok (store st);
  wf_roots : Forall (λ a, a < length (store st)) (headers st);
  wf_spine : spine (store st) (headers st) (reverse (stack st));
  wf_stack : StronglySorted (deeper (store st)) (stack st);
  wf_deep : deep_ok (store st);
}.

(** ** Matching *)

(** The length of the run of class members a string starts with. *)
Fixpoint run_length (cs : cset) (s : jsstring) : nat :=
  match s with
  | c :: s' => if cset_mem c cs then S (run_length cs s') else 0
  | [] => 0
  end.

(** What is left when trailing hyphens go. *)
Definition drop_trailing (s : jsstring) : jsstring :=
  reverse (drop_hyphens (reverse s)).

(** What [key.replace(rMeta, ...)] does to one code unit. *)
Definition escape_unit (c : Z) : jsstring :=
  if cset_mem c (chars_of (js "-[]/{}()*+?.\^$|")) then [92%Z; c] else [c].

(** The tokens of the alternatives, with a bar between two. *)
Fixpoint key_tokens (keys : list jsstring) : list ptoken :=
  match keys with
  | [] => []
  | [k] => PChar <$> k
  | k :: keys' => (PChar <$> k) ++ PBar :: key_tokens keys'
  end.

(** No key at all reads as one empty alternative. *)
Definition alternatives (keys : list jsstring) : list jsstring :=
  match keys with [] => [[]] | _ :: _ => keys end.

(** How often a code unit occurs. *)
Definition count (c : Z) (s : jsstring) : nat :=
  length (List.filter (Z.eqb c) s).

(** ** The forest as a value *)

(** The levels on the way down the last children of a tree, and of a
    forest: what the stack holds, from its far end to its front. *)
Fixpoint last_levels (t : MarkdownHeader) : list Z :=
  level t ::
  (fix down (cs : list MarkdownHeader) : list Z :=
     match cs with
     | [] => []
     | c :: cs' => match cs' with [] => last_levels c | _ :: _ => down cs' end
     end) (children t).

Definition forest_levels (f : list MarkdownHeader) : list Z :=
  from_option last_levels [] (last f).

(** The loop of [push] on the levels of the stack, front first. *)
Fixpoint shift_levels (lvl : Z) (levels : list Z) : list Z :=
  match levels with
  | [] => []
  | l :: levels' => if (lvl <=? l)%Z then shift_levels lvl levels' else levels
  end.

(** [push] on a forest that is a value: the loop runs up the path of
    last children, and the header is hung below what it leaves. *)
Definition place (h : MarkdownHeader) (f : list MarkdownHeader)
    : list MarkdownHeader :=
  graft (length (shift_levels (level h) (reverse (forest_levels f)))) h f.

(** The forest of a list of headings, placed one after the other. *)
Definition nest (hs : list MarkdownHeader) : list MarkdownHeader :=
  foldl (λ f h, place h f) [] hs.

(** The headings of [hs] that no heading before them undercuts:
    [before] holds the headings passed so far. *)
Fixpoint tops (before hs : list MarkdownHeader) : list MarkdownHeader :=
  match hs with
  | [] => []
  | h :: hs' =>
      (if forallb (λ b, (level h <=? level b)%Z) before then [h] else [])
      ++ tops (before ++ [h]) hs'
  end.

(** From one sibling to the next the level never grows, at the top
    level and below every header. *)
Definition falling (f : list MarkdownHeader) : Prop :=
  StronglySorted (λ a b, (level b ≤ level a)%Z) f.

Inductive tidy : MarkdownHeader → Prop :=
| Tidy l t s cs : falling cs → Forall tidy cs → tidy (Header l t s cs).

(** The headings at the start of [hs] that are deeper than [lvl], and
    what follows them. *)
Fixpoint below (lvl : Z) (hs : list MarkdownHeader) : list MarkdownHeader :=
  match hs with
  | h :: hs' => if (lvl <? level h)%Z then h :: below lvl hs' else []
  | [] => []
  end.

Fixpoint beyond (lvl : Z) (hs : list MarkdownHeader) : list MarkdownHeader :=
  match hs with
  | h :: hs' => if (lvl <? level h)%Z then beyond lvl hs' else hs
  | [] => []
  end.

(** The forest of sections: a heading takes the headings that follow
    it for as long as they are deeper than itself, and these form its
    own sections.  [fuel] bounds the number of headings. *)
Fixpoint sections_upto (fuel : nat) (hs : list MarkdownHeader)
    : list MarkdownHeader :=
  match fuel, hs with
  | S fuel, h :: hs' =>
      Header (level h) (title h) (slug h)
        (sections_upto fuel (below (level h) hs'))
      :: sections_upto fuel (beyond (level h) hs')
  | _, _ => []
  end.

Definition sections (hs : list MarkdownHeader) : list MarkdownHeader :=
  sections_upto (length hs) hs.

(** A tree with [g] applied to every title. *)
Fixpoint retitle (g : jsstring → jsstring) (t : MarkdownHeader)
    : MarkdownHeader :=
  Header (level t) (g (title t)) (slug t) (retitle g <$> children t).

(** The tokens that open a heading. *)
Definition heading_opens (tokens : list Token) : list Token :=
  List.filter (λ t, str_eqb (Token.type t) (js "heading_open")) tokens.

(** The children of [token] whose content [htmlEscape] can be applied to. *)
Definition escaped_items (token : Token) : list Token :=
  List.filter
    (λ item, str_eqb (Token.type item) (js "code_inline")
             || str_eqb (Token.type item) (js "text"))
    (default [] (Token.children token)).

(** Whether there is a token and it opens a heading. *)
Definition opens (t : option Token) : bool :=
  from_option (λ t, str_eqb (Token.type t) (js "heading_open")) false t.

(** The number a string of decimal digits denotes. *)
Definition decimal (ds : jsstring) : Z :=
  foldl (λ acc d, acc * 10 + (d - 0x30))%Z 0%Z ds.

(** ** The shape of a slug *)

Definition is_control (c : Z) : bool := cset_mem c [(0x0000, 0x001f)%Z].
Definition is_combining (c : Z) : bool := cset_mem c [(0x0300, 0x036F)%Z].
Definition is_special (c : Z) : bool := cset_mem c cls_special.

(** A code unit that [slugify] neither removes nor turns into a
    hyphen. *)
Definition ordinary (c : Z) : bool :=
  negb (is_special c || is_control c || is_combining c).

(** No hyphen is followed by a hyphen. *)
Definition single_hyphens (s : jsstring) : Prop :=
  ∀ i, s !! i = Some 45%Z → s !! S i ≠ Some 45%Z.

(** The string [slugify] has when the hyphens at its ends are gone,
    before the underscore and the lower-casing. *)
Definition slug_body `{U : Unicode} (s : jsstring) : jsstring :=
  s |> normalizeNFKD
    |> strip [(0x0300, 0x036F)%Z]
    |> strip [(0x0000, 0x001F)%Z]
    |> squash cls_special false
    |> trim_hyphens.

(** A lower-case letter or a digit of Basic Latin. *)
Definition slug_unit (c : Z) : bool :=
  ((0x61 <=? c) && (c <=? 0x7A))%Z || is_digit c.

(** Basic Latin but for U+007F, which [slugify] would keep. *)
Definition plain (c : Z) : bool := ((0 <=? c) && (c <? 0x7F))%Z.

(** Lower-case letters, digits, the hyphen and the underscore. *)
Definition url_safe (c : Z) : bool :=
  slug_unit c || bool_decide (c = 45%Z) || bool_decide (c = 95%Z).

(** ** Where a pattern matches *)

(** Whether [m] matches at some position of [s]. *)
Fixpoint matches_in (m : option Z → list Z → option nat) (prev : option Z)
    (s : jsstring) : bool :=
  match m prev s with
  | Some _ => true
  | None =>
      match s with
      | [] => false
      | c :: s' => matches_in m (Some c) s'
      end
  end.

(** The code unit before the position that follows [x]. *)
Definition after (prev : option Z) (x : jsstring) : option Z :=
  from_option Some prev (last x).

(** Breaking the words [ws] after [off] code units cannot give rise to
    [target]: the target holds no [<], the marker goes inside each
    word, the text a word is replaced with does not start with the
    target, and the first code unit of the target does not occur
    further on in that text. *)
Definition breaks (ws : list jsstring) (off : nat) (target : jsstring) : bool :=
  match target with
  | [] => false
  | h :: _ =>
      negb (bool_decide (60%Z ∈ target))
      && forallb
           (λ w, bool_decide (off < length w)
                 && forallb (λ c, negb (c =? h)%Z) (tail (break_at off w))
                 && negb (starts_with target (break_at off w))
                 && bool_decide (length target ≤ length (break_at off w)))
           ws
  end.

(** Wherever [target] starts at a word boundary of [s], one of [ws]
    does. *)
Definition all_matched (ws : list jsstring) (target : jsstring)
    (p : option Z) (s : jsstring) : Prop :=
  ∀ pre post, s = pre ++ post →
    is_Some (find_word [target] (after p pre) post) →
    is_Some (find_word ws (after p pre) post).


(* ===================================================================== *)
(** * 11. The header tree                                                 *)
(* ===================================================================== *)

(** ** Invariants of the store *)

Lemma reaches_le store a b : kids_ok store → reaches store a b → a ≤ b.
Proof.
  intros Hk. induction 1 as [|a o c b Ha Hc _ IH]; [lia|].
  specialize (Hk _ _ _ Ha Hc). lia.
Qed.

Lemma reaches_alloc store a b :
  kids_ok store → reaches store a b → a < length store → b < length store.
Proof.
  intros Hk. induction 1 as [|a o c b Ha Hc _ IH]; [done|].
  intros _. apply IH. by destruct (Hk _ _ _ Ha Hc).
Qed.

Lemma mapM_ext_in {A B} (f g : A → option B) l :
  (∀ x, x ∈ l → f x = g x) → mapM f l = mapM g l.
Proof.
  induction l as [|x l IH]; intros H; [done|].
  simpl. rewrite (H x) by left. rewrite IH; [done|].
  intros y Hy. apply H. by right.
Qed.

Lemma reify_S n store a :
  reify (S n) store a
  = o ← store !! a;
    cs ← mapM (reify n store) (Obj.children o);
    Some (Header (Obj.level o) (Obj.title o) (Obj.slug o) cs).
Proof. done. Qed.

(** Fuel beyond what is needed changes nothing. *)
Lemma reify_mono n m store a t :
  reify n store a = Some t → n ≤ m → reify m store a = Some t.
Proof.
  revert m a t. induction n as [|n IH]; intros m a t; [done|].
  intros H Hm. destruct m as [|m]; [lia|]. simpl in *.
  destruct (store !! a) as [o|]; [|done]. simpl in *.
  destruct (mapM (reify n store) (Obj.children o)) as [cs|] eqn:E; [|done].
  simpl in *. 
  assert (mapM (reify m store) (Obj.children o) = Some cs) as ->; [|done].
  apply mapM_Some in E. apply mapM_Some.
  eapply Forall2_impl; [done|]. intros c t' Hc. apply IH; [done|lia].
Qed.

(** Two stores that agree below [a] give [a] the same tree. *)
Lemma reify_frame n store store' a :
  (∀ b, reaches store a b → store' !! b = store !! b) →
  reify n store' a = reify n store a.
Proof.
  revert a. induction n as [|n IH]; intros a H; [done|].
  simpl. rewrite (H a) by constructor.
  destruct (store !! a) as [o|] eqn:Ha; [|done]. simpl.
  rewrite (mapM_ext_in (reify n store') (reify n store)); [done|].
  intros c Hc. apply IH. intros b Hb. apply H.
  by eapply reaches_step.
Qed.

Lemma reify_total n store a :
  kids_ok store → a < length store → length store - a ≤ n →
  is_Some (reify n store a).
Proof.
  intros Hk. revert a. induction n as [|n IH]; intros a Ha Hn; [lia|].
  simpl. destruct (lookup_lt_is_Some_2 store a Ha) as [o Ho].
  rewrite Ho. simpl.
  assert (is_Some (mapM (reify n store) (Obj.children o))) as [cs ->];
    [|by eexists].
  apply mapM_is_Some. apply Forall_forall. intros c Hc.
  destruct (Hk _ _ _ Ho Hc) as [H1 H2]. apply IH; lia.
Qed.

(** ** The outline of a grafted forest *)

Lemma outline_all_app f g : outline_all (f ++ g) = outline_all f ++ outline_all g.
Proof. apply flat_map_app. Qed.

Lemma outline_graft d h f :
  children h = [] → outline_all (graft d h f) = outline_all f ++ [h].
Proof.
  intros Hh. assert (outline h = [h]) as Hleaf.
  { destruct h; simpl in *; subst; done. }
  revert f. induction d as [|d IH]; intros f; simpl.
  - rewrite outline_all_app. simpl. by rewrite Hleaf, app_nil_r.
  - destruct (reverse f) as [|t before] eqn:E.
    + apply (f_equal reverse) in E. rewrite reverse_involutive in E. subst f.
      simpl. rewrite app_nil_r. exact Hleaf.
    + apply (f_equal reverse) in E. rewrite reverse_involutive in E. subst f.
      rewrite reverse_cons, !outline_all_app. simpl.
      rewrite !app_nil_r. fold (outline_all (graft d h (children t))).
      rewrite IH. fold (outline_all (children t)).
      rewrite <-app_assoc. f_equal. by destruct t.
Qed.

Section store.
Context (store : list Obj.t) (Hk : kids_ok store).

(** Along a spine the addresses grow. *)
Lemma spine_lt kids a q b : spine store kids (a :: q) → b ∈ q → a < b.
Proof.
  revert kids a. induction q as [|a' q IH]; intros kids a Hs Hb.
  { by apply elem_of_nil in Hb. }
  destruct Hs as (init & o & -> & Ho & _ & Hs).
  assert (a < a') as Haa'.
  { destruct Hs as (init' & o' & Hkids & _).
    apply (Hk a o a' Ho). rewrite Hkids.
    apply elem_of_app. right. by apply list_elem_of_singleton. }
  apply elem_of_cons in Hb as [Hb|Hb]; [by subst|].
  specialize (IH _ _ Hs Hb). lia.
Qed.

Lemma spine_alloc kids p a : spine store kids p → a ∈ p → a < length store.
Proof.
  revert kids. induction p as [|a' p IH]; intros kids Hs Ha.
  { by apply elem_of_nil in Ha. }
  destruct Hs as (init & o & -> & Ho & _ & Hs).
  apply elem_of_cons in Ha as [->|Ha]; [by eapply lookup_lt_Some|by eapply IH].
Qed.

(** A spine is still one when its end is left out. *)
Lemma spine_app kids p q : spine store kids (p ++ q) → spine store kids p.
Proof.
  revert kids. induction p as [|a p IH]; intros kids Hs; [done|].
  destruct Hs as (init & o & -> & Ho & Hclosed & Hs).
  exists init, o. split_and!; [done|done| |by eapply IH].
  intros c b Hc Hb Hin. apply (Hclosed c b Hc Hb).
  simpl in *. apply elem_of_cons in Hin as [Hin|Hin]; [subst; by left|].
  right. apply elem_of_app. by left.
Qed.

(** Trees that were read with some fuel are read with more. *)
Lemma reify_all_mono n m l f :
  mapM (reify n store) l = Some f → n ≤ m → mapM (reify m store) l = Some f.
Proof.
  intros Hf Hnm. apply mapM_Some. apply mapM_Some in Hf.
  eapply Forall2_impl; [done|]. intros c t Hc. simpl in Hc. eauto using reify_mono.
Qed.

End store.

Lemma graft_snoc d h f t :
  graft (S d) h (f ++ [t])
  = f ++ [Header (level t) (title t) (slug t) (graft d h (children t))].
Proof. simpl. rewrite reverse_snoc. simpl. by rewrite reverse_involutive. Qed.

(** ** Reachability after a push *)

Section linked.
Context (store : list Obj.t) (new : Obj.t).

Local Abbreviation N := (length store).

Lemma linked_lookup_other top a :
  a ≠ top → a < N → linked store new top !! a = store !! a.
Proof.
  intros. unfold linked. rewrite lookup_app_l by (rewrite length_alter; done).
  by rewrite list_lookup_alter_ne.
Qed.

Lemma linked_lookup_top top o :
  store !! top = Some o → linked store new top !! top = Some (Obj.push_child N o).
Proof.
  intros Ho. unfold linked. pose proof (lookup_lt_Some _ _ _ Ho).
  rewrite lookup_app_l by (rewrite length_alter; done).
  by rewrite list_lookup_alter_eq, Ho.
Qed.

Lemma linked_lookup_new top : linked store new top !! N = Some new.
Proof.
  unfold linked. rewrite lookup_app_r by (rewrite length_alter; done).
  rewrite length_alter. by replace (N - length store) with 0 by lia.
Qed.

Lemma linked_length top : length (linked store new top) = S N.
Proof. unfold linked. rewrite length_app, length_alter. simpl. lia. Qed.

End linked.

Section push_store.
Context (store : list Obj.t) (new : Obj.t).
Context (Hk : kids_ok store) (Hnew : Obj.children new = []).

Local Abbreviation N := (length store).

Lemma linked_reaches_new top b : reaches (linked store new top) N b → b = N.
Proof.
  inversion 1 as [|a o c b' Ho Hc _]; [done|subst].
  rewrite linked_lookup_new in Ho. injection Ho as <-.
  rewrite Hnew in Hc. by apply elem_of_nil in Hc.
Qed.

(** Below the new object the only new edge is the one from [top]. *)
Lemma linked_reaches top a b :
  reaches (linked store new top) a b → a < N →
  reaches store a b ∨ (b = N ∧ reaches store a top).
Proof.
  induction 1 as [a|a o c b Ho Hc Hreach IH]; intros Ha; [left; constructor|].
  destruct (decide (a = top)) as [->|Hne].
  - destruct (lookup_lt_is_Some_2 store top Ha) as [o' Ho'].
    rewrite (linked_lookup_top _ _ _ _ Ho') in Ho. injection Ho as <-.
    simpl in Hc. apply elem_of_app in Hc as [Hc|Hc].
    + destruct (Hk _ _ _ Ho' Hc) as [_ HcN]. 
      destruct (IH HcN) as [?|[-> ?]].
      * left. by eapply reaches_step.
      * right. split; [done|constructor].
    + apply list_elem_of_singleton in Hc as ->.
      apply linked_reaches_new in Hreach as ->.
      right. split; [done|constructor].
  - rewrite linked_lookup_other in Ho by done.
    destruct (Hk _ _ _ Ho Hc) as [_ HcN].
    destruct (IH HcN) as [?|[-> ?]].
    + left. by eapply reaches_step.
    + right. split; [done|]. by eapply reaches_step.
Qed.

(** A tree that does not hold [top] is the same tree afterwards. *)
Lemma linked_reify top n a :
  a < N → ¬ reaches store a top →
  reify n (linked store new top) a = reify n store a.
Proof.
  intros Ha Hno. apply reify_frame. intros b Hb.
  apply linked_lookup_other.
  - intros ->. done.
  - by eapply reaches_alloc.
Qed.

Lemma linked_kids_ok top : kids_ok (linked store new top).
Proof.
  intros a o c Ho Hc. rewrite linked_length.
  destruct (decide (a = N)) as [->|HaN].
  { rewrite linked_lookup_new in Ho. injection Ho as <-.
    rewrite Hnew in Hc. by apply elem_of_nil in Hc. }
  assert (a < N) as Ha.
  { apply lookup_lt_Some in Ho. rewrite linked_length in Ho. lia. }
  destruct (decide (a = top)) as [->|Hne].
  - destruct (lookup_lt_is_Some_2 store top Ha) as [o' Ho'].
    rewrite (linked_lookup_top _ _ _ _ Ho') in Ho. injection Ho as <-.
    simpl in Hc. apply elem_of_app in Hc as [Hc|Hc].
    + destruct (Hk _ _ _ Ho' Hc). lia.
    + apply list_elem_of_singleton in Hc as ->. lia.
  - rewrite linked_lookup_other in Ho by done.
    destruct (Hk _ _ _ Ho Hc). lia.
Qed.

Lemma linked_level_at top a :
  a < N → level_at (linked store new top) a = level_at store a.
Proof.
  intros Ha. unfold level_at. destruct (decide (a = top)) as [->|Hne].
  - destruct (lookup_lt_is_Some_2 store top Ha) as [o' Ho'].
    by rewrite (linked_lookup_top _ _ _ _ Ho'), Ho'.
  - by rewrite linked_lookup_other.
Qed.

Lemma linked_reify_new top n :
  reify (S n) (linked store new top) N
  = Some (Header (Obj.level new) (Obj.title new) (Obj.slug new) []).
Proof. simpl. rewrite linked_lookup_new. simpl. by rewrite Hnew. Qed.

(** Trees away from [top] stay as they are. *)
Lemma linked_reify_all top n m l f :
  mapM (reify n store) l = Some f → n ≤ m →
  (∀ c, c ∈ l → ¬ reaches store c top) →
  mapM (reify m (linked store new top)) l = Some f.
Proof.
  intros Hf Hnm Hno. apply mapM_Some. apply mapM_Some in Hf.
  induction Hf as [|c t l f Hc _ IH]; [constructor|].
  constructor.
  - rewrite linked_reify.
    + by eapply reify_mono.
    + destruct n; [done|]. simpl in Hc.
      destruct (store !! c) eqn:E; [|done]. by eapply lookup_lt_Some.
    + apply Hno. left.
  - apply IH. intros c' Hc'. apply Hno. by right.
Qed.

Lemma child_not_reaches a o c :
  store !! a = Some o → c ∈ Obj.children o → ¬ reaches store c a.
Proof.
  intros Ho Hc Hr. apply reaches_le in Hr; [|done].
  destruct (Hk _ _ _ Ho Hc). lia.
Qed.

(** The trees after the push: the new header is grafted below the
    spine that ends in [top]. *)
Lemma linked_graft top p kids n f :
  spine store kids (p ++ [top]) →
  mapM (reify n store) kids = Some f →
  mapM (reify (S n) (linked store new top)) kids
  = Some (graft (S (length p))
            (Header (Obj.level new) (Obj.title new) (Obj.slug new) []) f).
Proof.
  set (leaf := Header _ _ _ _).
  revert kids n f. induction p as [|a p IH]; intros kids n f Hs Hf.
  - destruct Hs as (init & o & -> & Ho & Hclosed & _).
    pose proof Hf as Hf'.
    apply mapM_Some, Forall2_app_inv_l in Hf' as (finit & ft & Hinit & Htop & ->).
    apply Forall2_cons_inv_l in Htop as (t & ? & Ht & Hnil & ->).
    apply Forall2_nil_inv_l in Hnil as ->.
    destruct n as [|n]; [done|]. simpl in Ht. rewrite Ho in Ht. simpl in Ht.
    destruct (mapM (reify n store) (Obj.children o)) as [cs|] eqn:Hcs; [|done].
    injection Ht as <-.
    rewrite graft_snoc. cbn [level title slug children graft].
    apply mapM_Some, Forall2_app.
    + apply mapM_Some. eapply linked_reify_all; [by apply mapM_Some|lia|].
      intros c Hc Hr. apply (Hclosed c top Hc Hr). left.
    + constructor; [|constructor].
      rewrite reify_S, (linked_lookup_top _ _ _ _ Ho).
        cbn [mbind option_bind Obj.children Obj.push_child].
      assert (mapM (reify (S n) (linked store new top)) (Obj.children o ++ [N])
              = Some (cs ++ [leaf])) as ->; [|done].
      apply mapM_Some, Forall2_app.
      * apply mapM_Some. eapply linked_reify_all; [done|lia|].
        intros c Hc. by eapply child_not_reaches.
      * constructor; [|constructor]. apply linked_reify_new.
  - destruct Hs as (init & o & -> & Ho & Hclosed & Hs).
    pose proof Hf as Hf'.
    apply mapM_Some, Forall2_app_inv_l in Hf' as (finit & ft & Hinit & Htop & ->).
    apply Forall2_cons_inv_l in Htop as (t & ? & Ht & Hnil & ->).
    apply Forall2_nil_inv_l in Hnil as ->.
    destruct n as [|n]; [done|]. simpl in Ht. rewrite Ho in Ht. simpl in Ht.
    destruct (mapM (reify n store) (Obj.children o)) as [cs|] eqn:Hcs; [|done].
    injection Ht as <-.
    assert (a < top) as Hlt.
    { eapply (spine_lt store Hk); [exists init, o; split_and!; done|].
      apply elem_of_app. right. by apply list_elem_of_singleton. }
    cbn [length]. rewrite graft_snoc. cbn [level title slug children].
    apply mapM_Some, Forall2_app.
    + apply mapM_Some. eapply linked_reify_all; [by apply mapM_Some|lia|].
      intros c Hc Hr. apply (Hclosed c top Hc Hr). right.
      apply elem_of_app. right. by apply list_elem_of_singleton.
    + constructor; [|constructor].
      rewrite reify_S, linked_lookup_other, Ho; [|lia|by eapply lookup_lt_Some].
      cbn [mbind option_bind]. by rewrite (IH _ _ _ Hs Hcs).
Qed.

(** The first insertion below a list: a new last entry. *)
Lemma linked_graft_root kids n f :
  Forall (λ c, c < N) kids →
  mapM (reify n store) kids = Some f →
  mapM (reify (S n) (linked store new N)) (kids ++ [N])
  = Some (graft 0
            (Header (Obj.level new) (Obj.title new) (Obj.slug new) []) f).
Proof.
  intros Hkids Hf. apply mapM_Some, Forall2_app.
  - apply mapM_Some. eapply linked_reify_all; [done|lia|].
    intros c Hc Hr. apply reaches_alloc in Hr; [lia|done|].
    by eapply Forall_forall in Hkids.
  - constructor; [|constructor]. apply linked_reify_new.
Qed.

(** The spine after the push ends in the new object. *)
Lemma linked_spine top p kids :
  spine store kids (p ++ [top]) → Forall (λ c, c < N) kids →
  spine (linked store new top) kids (p ++ [top; N]).
Proof.
  revert kids. induction p as [|a p IH]; intros kids Hs Hkids.
  - destruct Hs as (init & o & -> & Ho & Hclosed & _).
    exists init, (Obj.push_child N o). split_and!; [done|by apply linked_lookup_top| |].
    + intros c b Hc Hr Hb.
      assert (c < N) as HcN.
      { eapply Forall_forall in Hkids; [done|]. apply elem_of_app. by left. }
      destruct (linked_reaches _ _ _ Hr HcN) as [Hr'|[-> Hr']].
      * apply elem_of_cons in Hb as [->|Hb].
        { apply (Hclosed c top Hc Hr'). left. }
        apply list_elem_of_singleton in Hb as ->.
        apply reaches_alloc in Hr'; [|done..]. lia.
      * apply (Hclosed c top Hc Hr'). left.
    + exists (Obj.children o), new. split_and!; [done|apply linked_lookup_new| |by rewrite Hnew].
      intros c b Hc Hr Hb. apply list_elem_of_singleton in Hb as ->.
      destruct (Hk _ _ _ Ho Hc) as [_ HcN].
      destruct (linked_reaches _ _ _ Hr HcN) as [Hr'|[_ Hr']].
      * apply reaches_alloc in Hr'; [|done..]. lia.
      * by eapply child_not_reaches.
  - destruct Hs as (init & o & -> & Ho & Hclosed & Hs).
    assert (a < top) as Hlt.
    { eapply (spine_lt store Hk); [exists init, o; split_and!; done|].
      apply elem_of_app. right. by apply list_elem_of_singleton. }
    exists init, o. split_and!; [done| | |].
    + rewrite linked_lookup_other; [done|lia|by eapply lookup_lt_Some].
    + intros c b Hc Hr Hb.
      assert (c < N) as HcN.
      { eapply Forall_forall in Hkids; [done|]. apply elem_of_app. by left. }
      assert (top ∈ (a :: p) ++ [top]) as Htop.
      { apply elem_of_app. right. by apply list_elem_of_singleton. }
      destruct (linked_reaches _ _ _ Hr HcN) as [Hr'|[-> Hr']].
      * assert (b ∈ ((a :: p) ++ [top]) ++ [N]) as Hb'
          by (by rewrite <-app_assoc).
        clear Hb. apply elem_of_app in Hb' as [Hb|Hb].
        { by apply (Hclosed c b Hc Hr'). }
        apply list_elem_of_singleton in Hb as ->.
        apply reaches_alloc in Hr'; [|done..]. lia.
      * by apply (Hclosed c top Hc Hr').
    + apply IH; [done|]. apply Forall_forall. intros c Hc.
      by destruct (Hk _ _ _ Ho Hc).
Qed.

Lemma linked_spine_root kids :
  Forall (λ c, c < N) kids → spine (linked store new N) (kids ++ [N]) [N].
Proof.
  intros Hkids. exists kids, new.
  split_and!; [done|apply linked_lookup_new| |by rewrite Hnew].
  intros c b Hc Hr Hb. apply list_elem_of_singleton in Hb as ->.
  assert (c < N) as HcN by by eapply Forall_forall in Hkids.
  destruct (linked_reaches _ _ _ Hr HcN) as [Hr'|[_ Hr']];
    (apply reaches_alloc in Hr'; [|done..]); lia.
Qed.
End push_store.

Lemma wf_initial : wf initial.
Proof.
  split; simpl.
  - intros a o c Ho. by rewrite lookup_nil in Ho.
  - constructor.
  - done.
  - constructor.
  - intros a o c oc Ho. by rewrite lookup_nil in Ho.
Qed.

(** What the loop of [push] leaves: the entries it took off are all at
    least as deep as the new header, the entry it stopped at is not. *)
Lemma shift_while_spec store lvl stk :
  ∃ popped,
    stk = popped ++ shift_while store lvl stk ∧
    Forall (λ a, ∃ l, level_at store a = Some l ∧ (lvl ≤ l)%Z) popped ∧
    ∀ top, head (shift_while store lvl stk) = Some top →
           ∀ l, level_at store top = Some l → (l < lvl)%Z.
Proof.
  induction stk as [|a stk (popped & IH1 & IH2 & IH3)]; simpl.
  { exists []. split_and!; [done|constructor|done]. }
  destruct (level_at store a) as [l|] eqn:Hl.
  - destruct (Z.leb_spec lvl l).
    + exists (a :: popped). split_and!; [by rewrite IH1 at 1| |done].
      constructor; [by exists l|done].
    + exists []. split_and!; [done|constructor|].
      intros top [= <-] l' Hl'. rewrite Hl in Hl'. injection Hl' as <-. lia.
  - exists []. split_and!; [done|constructor|].
    intros top [= <-] l' Hl'. by rewrite Hl in Hl'.
Qed.

Lemma linked_root store new : store ++ [new] = linked store new (length store).
Proof.
  unfold linked. f_equal. apply list_eq. intros i.
  rewrite list_lookup_alter. case_decide; [subst i|done].
  by rewrite (lookup_ge_None_2 store (length store)).
Qed.

Lemma push_unfold new st :
  let stk := shift_while (store st) (Obj.level new) (stack st) in
  let N := length (store st) in
  push new st
  = mkState (linked (store st) new (default N (head stk)))
      (match stk with [] => headers st ++ [N] | _ :: _ => headers st end)
      (N :: stk) (trace st).
Proof.
  intros stk N. unfold push. fold stk. destruct stk as [|top rest]; simpl.
  - by rewrite linked_root.
  - done.
Qed.

Lemma StronglySorted_impl_in {A} (R R' : A → A → Prop) l :
  StronglySorted R l →
  (∀ x y, x ∈ l → y ∈ l → R x y → R' x y) →
  StronglySorted R' l.
Proof.
  induction 1 as [|x l Hl IH Hx]; intros Himp; constructor.
  - apply IH. intros y z Hy Hz. apply Himp; by right.
  - apply Forall_forall. intros y Hy. apply Himp; [by left|by right|].
    by eapply Forall_forall in Hx.
Qed.

Lemma StronglySorted_suffix {A} (R : A → A → Prop) l1 l2 :
  StronglySorted R (l1 ++ l2) → StronglySorted R l2.
Proof.
  induction l1 as [|x l1 IH]; [done|]. simpl. inversion 1; subst. by apply IH.
Qed.

Lemma linked_deep_ok store new top :
  kids_ok store → Obj.children new = [] → deep_ok store →
  (∀ o, store !! top = Some o → (Obj.level o < Obj.level new)%Z) →
  deep_ok (linked store new top).
Proof.
  intros Hk Hnew Hdeep Htop a o c oc Ho Hc Hoc.
  pose proof (linked_kids_ok store new Hk Hnew top a o c Ho Hc) as [Hac HcN].
  rewrite linked_length in HcN.
  assert (a < length store) as Ha by lia.
  assert (∀ b ob, b < length store → linked store new top !! b = Some ob →
            ∃ ob', store !! b = Some ob' ∧ Obj.level ob' = Obj.level ob ∧
                   (b ≠ top → ob' = ob)) as Hold.
  { intros b ob Hb Hob. destruct (decide (b = top)) as [->|Hne].
    - destruct (lookup_lt_is_Some_2 store top Hb) as [o' Ho'].
      erewrite linked_lookup_top in Hob by done. injection Hob as <-.
      by exists o'.
    - rewrite linked_lookup_other in Hob by done. by exists ob. }
  destruct (Hold a o Ha Ho) as (o' & Ho' & Hlo & Heqo).
  destruct (decide (c = length store)) as [->|HcN'].
  - rewrite linked_lookup_new in Hoc. injection Hoc as <-.
    destruct (decide (a = top)) as [->|Hne].
    + rewrite <-Hlo. by apply Htop.
    + rewrite <-(Heqo Hne) in Hc.
      destruct (Hk _ _ _ Ho' Hc). lia.
  - destruct (Hold c oc ltac:(lia) Hoc) as (oc' & Hoc' & Hloc & _).
    rewrite <-Hlo, <-Hloc. apply (Hdeep a o' c oc'); [done| |done].
    destruct (decide (a = top)) as [->|Hne].
    + erewrite linked_lookup_top in Ho by done. injection Ho as <-.
      simpl in Hc. apply elem_of_app in Hc as [Hc|Hc]; [done|].
      apply list_elem_of_singleton in Hc. lia.
    + by rewrite (Heqo Hne).
Qed.

Lemma push_wf new st : Obj.children new = [] → wf st → wf (push new st).
Proof.
  intros Hnew [Hk Hroots Hspine Hstack Hdeep]. rewrite push_unfold.
  destruct (shift_while_spec (store st) (Obj.level new) (stack st))
    as (popped & Hstk & _ & Htop).
  set (stk := shift_while _ _ _) in *.
  assert (spine (store st) (headers st) (reverse stk)) as Hspine'.
  { rewrite Hstk, reverse_app in Hspine. by eapply spine_app. }
  assert (Forall (λ a, a < length (store st)) stk) as Halloc.
  { apply Forall_forall. intros a Ha. eapply spine_alloc; [done|done|].
    by apply elem_of_reverse. }
  assert (StronglySorted (deeper (store st)) stk) as Hsorted.
  { rewrite Hstk in Hstack. by eapply StronglySorted_suffix. }
  split; simpl.
  - by apply linked_kids_ok.
  - rewrite linked_length.  destruct stk.
    + apply Forall_app. split; [|by repeat constructor].
      eapply Forall_impl; [done|]. simpl. lia.
    + eapply Forall_impl; [done|]. simpl. lia.
  - rewrite reverse_cons. destruct stk as [|top rest]; simpl.
    + by apply linked_spine_root.
    + rewrite reverse_cons, <-app_assoc in *. simpl.
      apply linked_spine; done.
  - constructor.
    + eapply StronglySorted_impl_in; [done|].
      intros x y Hx Hy (lx & ly & ? & ? & ?). exists lx, ly.
      rewrite !linked_level_at; [done|..];
        by eapply Forall_forall in Halloc.
    + apply Forall_forall. intros x Hx.
      assert (x < length (store st)) as HxN by by eapply Forall_forall in Halloc.
      destruct (lookup_lt_is_Some_2 (store st) x HxN) as [ox Hox].
      exists (Obj.level new), (Obj.level ox). split_and!.
      * unfold level_at. by rewrite linked_lookup_new.
      * rewrite linked_level_at by done. unfold level_at. by rewrite Hox.
      * destruct stk as [|top rest]; [by apply elem_of_nil in Hx|].
        assert (∀ l, level_at (store st) top = Some l → (l < Obj.level new)%Z)
          as Htop' by by apply Htop.
        apply elem_of_cons in Hx as [->|Hx].
        { apply Htop'. unfold level_at. by rewrite Hox. }
        inversion Hsorted as [|? ? _ Hall]; subst.
        eapply Forall_forall in Hall as (lt & lx & Hlt & Hlx & ?); [|done].
        unfold level_at in Hlx. rewrite Hox in Hlx. injection Hlx as <-.
        specialize (Htop' _ Hlt). lia.
  - apply linked_deep_ok; [done..|].
    intros o Ho. destruct stk as [|top rest]; simpl in Ho.
    + apply lookup_lt_Some in Ho. lia.
    + apply (Htop top); [done|]. unfold level_at. by rewrite Ho.
Qed.

Lemma push_forest new st f :
  Obj.children new = [] → wf st →
  mapM (reify (length (store st)) (store st)) (headers st) = Some f →
  mapM (reify (length (store (push new st))) (store (push new st)))
       (headers (push new st))
  = Some (graft (length (shift_while (store st) (Obj.level new) (stack st)))
            (Header (Obj.level new) (Obj.title new) (Obj.slug new) []) f).
Proof.
  intros Hnew [Hk Hroots Hspine _ _] Hf. rewrite push_unfold.
  destruct (shift_while_spec (store st) (Obj.level new) (stack st))
    as (popped & Hstk & _ & _).
  set (stk := shift_while _ _ _) in *. cbn [store headers].
  rewrite linked_length.
  assert (spine (store st) (headers st) (reverse stk)) as Hspine'.
  { rewrite Hstk, reverse_app in Hspine. by eapply spine_app. }
  destruct stk as [|top rest]; cbn [head default length].
  - by apply linked_graft_root.
  - rewrite reverse_cons in Hspine'.
    rewrite <-(length_reverse rest). by apply linked_graft.
Qed.

Section run.
Context (htmlEscape : jsstring → jsstring).

Lemma includes_true `{EqDecision A} (x : A) l : includes x l = true ↔ x ∈ l.
Proof. unfold includes. apply bool_decide_eq_true. Qed.

Lemma str_eqb_true a b : str_eqb a b = true ↔ a = b.
Proof. unfold str_eqb. apply bool_decide_eq_true. Qed.

(** One step of the loop, case by case. *)
Lemma visit_heading tokens opts idx st open next lvl :
  tokens !! idx = Some open →
  Token.type open = js "heading_open" →
  parseInt (slice1 (Token.tag open)) = Some lvl →
  lvl ∈ Options.level opts →
  tokens !! S idx = Some next →
  visit htmlEscape tokens opts idx st
  = push (obj_of (header_of htmlEscape opts open next lvl))
      (logs (calls htmlEscape opts open next) st).
Proof.
  intros Hopen Hty Hlvl Hin Hnext. unfold visit.
  rewrite Hopen. apply str_eqb_true in Hty as ->. cbn [negb].
  rewrite Hlvl. apply includes_true in Hin as ->. cbn [negb].
  replace (idx + 1) with (S idx) by lia. rewrite Hnext.
  unfold calls, header_of, obj_of, logs, log. cbn [level title slug].
  destruct (Token.attrGet open (js "id")), (Options.format opts);
    cbn [default from_option trace store headers stack];
    rewrite ?app_nil_r, <-?app_assoc; done.
Qed.

Lemma visit_capture tokens opts idx st :
  match capture htmlEscape tokens opts idx with
  | None => visit htmlEscape tokens opts idx st = st
  | Some h =>
      ∃ es, visit htmlEscape tokens opts idx st = push (obj_of h) (logs es st)
            ∧ children h = []
  end.
Proof.
  unfold capture.
  destruct (tokens !! idx) as [open|] eqn:Hopen; cbn [mbind option_bind];
    [|by unfold visit; rewrite Hopen].
  case_guard as Hty; cbn [mbind option_bind]; cycle 1.
  { unfold visit. rewrite Hopen.
    assert (str_eqb (Token.type open) (js "heading_open") = false) as ->; [|done].
    apply not_true_iff_false. by rewrite str_eqb_true. }
  destruct (parseInt _) as [lvl|] eqn:Hlvl; cbn [mbind option_bind]; cycle 1.
  { unfold visit. rewrite Hopen, Hlvl. by destruct (negb _). }
  case_guard as Hin; cbn [mbind option_bind]; cycle 1.
  { unfold visit. rewrite Hopen, Hlvl.
    assert (includes lvl (Options.level opts) = false) as ->.
    { apply not_true_iff_false. by rewrite includes_true. }
    by destruct (negb _). }
  destruct (tokens !! S idx) as [next|] eqn:Hnext; cbn [mbind option_bind]; cycle 1.
  { unfold visit. rewrite Hopen, Hlvl.
    replace (idx + 1) with (S idx) by lia. rewrite Hnext.
    by repeat case_match. }
  eexists. split; [by apply visit_heading|done].
Qed.

Lemma run_to_S tokens opts n :
  run_to htmlEscape tokens opts (S n)
  = visit htmlEscape tokens opts n (run_to htmlEscape tokens opts n).
Proof. unfold run_to. by rewrite seq_S, foldl_app. Qed.

Lemma wf_logs es st : wf st → wf (logs es st).
Proof. by intros []. Qed.

(** The loop keeps the invariant, and the trees it has built list
    the headings captured so far in document order. *)
Lemma run_to_spec tokens opts n :
  let st := run_to htmlEscape tokens opts n in
  wf st ∧
  ∃ f, mapM (reify (length (store st)) (store st)) (headers st) = Some f ∧
       outline_all f = omap (capture htmlEscape tokens opts) (seq 0 n).
Proof.
  induction n as [|n (Hwf & f & Hf & Hout)]; cbn zeta.
  { split; [apply wf_initial|]. by exists []. }
  rewrite run_to_S, seq_S, omap_app. cbn [omap list_omap].
  pose proof (visit_capture tokens opts n (run_to htmlEscape tokens opts n)) as Hv.
  cbn [plus]. destruct (capture htmlEscape tokens opts n) as [h|].
  - destruct Hv as (es & -> & Hleaf).
    split; [by apply push_wf, wf_logs|].
    eexists. split.
    + apply (push_forest (obj_of h) (logs es _)); [done|by apply wf_logs|done].
    + rewrite outline_graft by done. rewrite Hout.
      by destruct h; simpl in *; subst.
  - rewrite Hv, app_nil_r. split; [done|]. by exists f.
Qed.

(** [resolveHeadersFromTokens] returns, and its trees list the
    captured headings in document order. *)
Lemma resolve_outline tokens opts :
  ∃ f, resolveHeadersFromTokens htmlEscape tokens opts = Some f ∧
       outline_all f = captured htmlEscape tokens opts.
Proof.
  destruct (run_to_spec tokens opts (length tokens)) as (_ & f & Hf & Hout).
  by exists f.
Qed.

Lemma reify_level n store a t :
  reify n store a = Some t →
  ∃ o, store !! a = Some o ∧ level t = Obj.level o.
Proof.
  destruct n as [|n]; [done|]. rewrite reify_S.
  destruct (store !! a) as [o|]; [|done]. cbn [mbind option_bind].
  destruct (mapM _ _); [|done]. intros [= <-]. by exists o.
Qed.

Lemma reify_deepening n store a t :
  deep_ok store → reify n store a = Some t → deepening t.
Proof.
  intros Hdeep. revert a t. induction n as [|n IH]; intros a t; [done|].
  rewrite reify_S. destruct (store !! a) as [o|] eqn:Ho; [|done].
  cbn [mbind option_bind].
  destruct (mapM _ _) as [cs|] eqn:Hcs; [|done]. intros [= <-].
  constructor. apply mapM_Some in Hcs.
  apply Forall_forall. intros tc Htc.
  apply list_elem_of_lookup in Htc as [i Hi].
  destruct (Forall2_lookup_r _ _ _ _ _ Hcs Hi) as (c & Hc & Hr).
  split; [|by eapply IH].
  apply reify_level in Hr as (oc & Hoc & ->).
  eapply Hdeep; [done| |done]. by eapply list_elem_of_lookup_2.
Qed.

Lemma resolve_deepening tokens opts f :
  resolveHeadersFromTokens htmlEscape tokens opts = Some f →
  Forall deepening f.
Proof.
  intros Hf. destruct (run_to_spec tokens opts (length tokens)) as ([] & _).
  apply mapM_Some in Hf. apply Forall_forall. intros t Ht.
  apply list_elem_of_lookup in Ht as [i Hi].
  destruct (Forall2_lookup_r _ _ _ _ _ Hf Hi) as (c & Hc & Hr).
  by eapply reify_deepening.
Qed.
End run.

Lemma filter_all {A} (p : A → bool) l :
  Forall (λ x, p x = true) l → List.filter p l = l.
Proof. induction 1 as [|x l Hx _ IH]; simpl; [done|]. by rewrite Hx, IH. Qed.

(** On a stack whose levels grow towards the front, the loop takes off
    every entry that is at least as deep, not only the first few. *)
Lemma shift_while_filter store lvl stk :
  Forall (λ a, is_Some (store !! a)) stk →
  StronglySorted (deeper store) stk →
  shift_while store lvl stk
  = List.filter (λ e, negb (at_least_as_deep store lvl e)) stk.
Proof.
  intros Halloc Hsorted. induction Hsorted as [|a stk Hs IH Ha]; [done|].
  apply Forall_cons in Halloc as [[o Ho] Halloc].
  cbn [shift_while List.filter]. unfold at_least_as_deep at 1.
  unfold level_at at 1 2. rewrite Ho. cbn [fmap option_fmap option_map].
  destruct (Z.leb_spec lvl (Obj.level o)); cbn [negb]; [by apply IH|].
  f_equal. symmetry. apply filter_all.
  apply Forall_forall. intros x Hx.
  eapply Forall_forall in Ha as (la & lx & Hla & Hlx & Hlt); [|done].
  unfold at_least_as_deep. rewrite Hlx.
  unfold level_at in Hla. rewrite Ho in Hla. injection Hla as <-.
  apply negb_true_iff, Z.leb_gt. lia.
Qed.

(** Under the invariant no reference dangles. *)
Lemma references_allocated st :
  wf st → Forall (λ a, is_Some (store st !! a)) (stack st ++ headers st).
Proof.
  intros [Hk Hroots Hspine _ _]. apply Forall_app. split.
  - apply Forall_forall. intros a Ha.
    apply lookup_lt_is_Some_2. eapply spine_alloc; [done|done|].
    by apply elem_of_reverse.
  - eapply Forall_impl; [done|]. intros a. apply lookup_lt_is_Some_2.
Qed.

Lemma push_insert_header H st : wf st → push H st = insert_header H st.
Proof.
  intros Hwf. pose proof (references_allocated st Hwf) as Halloc.
  apply Forall_app in Halloc as [Halloc _].
  destruct Hwf as [Hk _ Hspine Hsorted _]. unfold push, insert_header.
  rewrite (shift_while_filter _ _ _ Halloc Hsorted).
  by destruct (List.filter _ _).
Qed.

Section header_claims.
Context (htmlEscape : jsstring → jsstring).

Lemma capture_level tokens opts idx h :
  capture htmlEscape tokens opts idx = Some h → level h ∈ Options.level opts.
Proof.
  unfold capture. intros Hc.
  destruct (tokens !! idx) as [open|]; [|done]. cbn [mbind option_bind] in Hc.
  case_guard; [|done]. cbn [mbind option_bind] in Hc.
  destruct (parseInt _) as [lvl|]; [|done]. cbn [mbind option_bind] in Hc.
  case_guard; [|done]. cbn [mbind option_bind] in Hc.
  destruct (tokens !! S idx); [|done]. by injection Hc as <-.
Qed.

Lemma captured_levels tokens opts :
  Forall (λ h, level h ∈ Options.level opts) (captured htmlEscape tokens opts).
Proof.
  unfold captured. apply Forall_forall. intros h Hh.
  apply list_elem_of_omap in Hh as (idx & _ & Hc). by eapply capture_level.
Qed.

Lemma visit_no_next tokens opts idx st :
  tokens !! S idx = None → visit htmlEscape tokens opts idx st = st.
Proof.
  intros Hnext. unfold visit. replace (idx + 1) with (S idx) by lia.
  rewrite Hnext. by repeat case_match.
Qed.

Lemma visit_not_requested tokens opts idx st open lvl :
  tokens !! idx = Some open →
  parseInt (slice1 (Token.tag open)) = Some lvl →
  lvl ∉ Options.level opts →
  visit htmlEscape tokens opts idx st = st.
Proof.
  intros Hopen Hlvl Hin. unfold visit. rewrite Hopen, Hlvl.
  assert (includes lvl (Options.level opts) = false) as ->.
  { apply not_true_iff_false. by rewrite includes_true. }
  by case_match.
Qed.
End header_claims.

(* ===================================================================== *)
(** * 12. Replacing, the slugifier and the guard                          *)
(* ===================================================================== *)

(** ** The slugifier, step by step *)

(** ** Matching *)

Lemma run_le cs s : run_length cs s ≤ length s.
Proof. induction s as [|c s IH]; simpl; [lia|]. destruct (cset_mem c cs); simpl; lia. Qed.

(** With nothing after it, [cs{n,}] takes the whole run. *)
Lemma greedy_final cs n prev s :
  greedy cs n prev s (λ _ rest, Some rest)
  = if decide (n ≤ run_length cs s) then Some (drop (run_length cs s) s) else None.
Proof.
  revert n prev. induction s as [|c s IH]; intros n prev; simpl.
  { destruct n; repeat case_decide; (done || lia). }
  destruct (cset_mem c cs); cycle 1.
  { destruct n; repeat case_decide; (done || lia). }
  rewrite IH. destruct n as [|n]; simpl; repeat case_decide; (done || lia).
Qed.

Lemma match_at_rep cs n prev s :
  match_at (Rep n cs) prev s
  = if decide (n ≤ run_length cs s) then Some (run_length cs s) else None.
Proof.
  unfold match_at. simpl. rewrite greedy_final. case_decide; [|done].
  simpl. f_equal. rewrite length_drop. pose proof (run_le cs s). lia.
Qed.

Lemma match_at_chars cs prev s :
  match_at (Chars cs) prev s
  = match s with
    | c :: _ => if cset_mem c cs then Some 1 else None
    | [] => None
    end.
Proof.
  unfold match_at. destruct s as [|c s]; simpl; [done|].
  destruct (cset_mem c cs); simpl; [|done]. f_equal. lia.
Qed.

(** ** Replacing *)

Lemma replaceAll_chars cs s : replaceAll (Chars cs) (λ _, []) s = strip cs s.
Proof.
  unfold replaceAll. generalize (@None Z).
  induction s as [|c s IH]; intros prev; cbn [replace_go strip List.filter];
    rewrite match_at_chars; [done|].
  destruct (cset_mem c cs); cbn [negb app]; by rewrite IH.
Qed.

Lemma replaceAll_rep1 cs s :
  replaceAll (Rep 1 cs) (λ _, js "-") s = squash cs false s.
Proof.
  unfold replaceAll. generalize (@None Z).
  enough (∀ prev,
    replace_go (match_at (Rep 1 cs)) (λ _, js "-") 0 prev s = squash cs false s ∧
    replace_go (match_at (Rep 1 cs)) (λ _, js "-") (run_length cs s) prev s
    = squash cs true s) as H by (intros; apply H).
  induction s as [|c s IH]; intros prev.
  { cbn [run_length replace_go squash]. by rewrite match_at_rep. }
  assert (replace_go (match_at (Rep 1 cs)) (λ _, js "-") 0 prev (c :: s)
          = squash cs false (c :: s)) as HA.
  { cbn [replace_go squash]. rewrite match_at_rep. cbn [run_length].
    destruct (cset_mem c cs).
    - case_decide; [|lia]. by rewrite (proj2 (IH _)).
    - case_decide; [lia|]. by rewrite (proj1 (IH _)). }
  split; [done|]. cbn [run_length squash]. destruct (cset_mem c cs) eqn:Hc.
  - cbn [replace_go]. by rewrite (proj2 (IH _)).
  - rewrite HA. cbn [squash]. by rewrite Hc.
Qed.

Lemma is_hyphen_eq c : is_hyphen c = true → c = 45%Z.
Proof.
  unfold is_hyphen, cls_hyphen, single, cset_mem. simpl.
  rewrite orb_false_r, andb_true_iff, !Z.leb_le. lia.
Qed.

Lemma head_run cs s :
  from_option (λ c, cset_mem c cs) false (head s) = bool_decide (1 ≤ run_length cs s).
Proof.
  destruct s as [|c s]; simpl; [done|].
  destruct (cset_mem c cs); symmetry.
  - apply bool_decide_eq_true. lia.
  - apply bool_decide_eq_false. lia.
Qed.

Lemma replaceAll_hyphens s : replaceAll rHyphens (λ _, js "-") s = collapse s.
Proof.
  unfold replaceAll, rHyphens. generalize (@None Z).
  set (m := match_at (Rep 2 cls_hyphen)). set (r := λ _ : list Z, js "-").
  enough (∀ prev,
    replace_go m r 0 prev s = collapse s ∧
    (1 ≤ run_length cls_hyphen s →
     js "-" ++ replace_go m r (run_length cls_hyphen s) prev s = collapse s))
    as H by (intros; apply H).
  induction s as [|c s IH]; intros prev.
  { split; [|simpl; lia]. cbn [replace_go collapse]. unfold m.
    by rewrite match_at_rep. }
  assert (from_option is_hyphen false (head s)
          = bool_decide (1 ≤ run_length cls_hyphen s)) as Hhead by apply head_run.
  split.
  - cbn [replace_go collapse]. unfold m at 1. rewrite match_at_rep. cbn [run_length].
    rewrite Hhead. unfold is_hyphen. destruct (cset_mem c cls_hyphen); cbn [andb].
    + destruct (decide (2 ≤ S (run_length cls_hyphen s))).
      * rewrite bool_decide_true by lia. by rewrite <-(proj2 (IH (Some c))) by lia.
      * rewrite bool_decide_false by lia. by rewrite (proj1 (IH _)).
    + rewrite decide_False by lia. by rewrite (proj1 (IH _)).
  - cbn [run_length collapse]. rewrite Hhead. unfold is_hyphen.
    destruct (cset_mem c cls_hyphen) eqn:Hc; [|lia]. intros _.
    cbn [replace_go andb]. case_bool_decide.
    + by apply IH.
    + replace (run_length cls_hyphen s) with 0 by lia. rewrite (proj1 (IH _)).
      by rewrite (is_hyphen_eq c Hc).
Qed.

(** ** The two ends *)

Lemma greedy_end cs n prev s :
  greedy cs n prev s (λ p r, rmatch LineEnd p r (λ _ rest, Some rest))
  = if decide (n ≤ run_length cs s ∧ run_length cs s = length s) then Some [] else None.
Proof.
  revert n prev. induction s as [|c s IH]; intros n prev; simpl.
  { destruct n; repeat case_decide; (done || lia). }
  destruct (cset_mem c cs); cycle 1.
  { destruct n; repeat case_decide; (done || lia). }
  rewrite IH. destruct n as [|n]; simpl; repeat case_decide; (done || lia).
Qed.

Lemma match_at_edges prev s :
  match_at rEdges prev s
  = match prev with
    | None => if decide (1 ≤ run_length cls_hyphen s) then Some (run_length cls_hyphen s) else None
    | Some _ =>
        if decide (1 ≤ run_length cls_hyphen s ∧ run_length cls_hyphen s = length s)
        then Some (length s) else None
    end.
Proof.
  unfold match_at, rEdges. cbn [rmatch]. destruct prev as [p|].
  - rewrite greedy_end. case_decide; [|done]. simpl. f_equal. lia.
  - rewrite greedy_final. case_decide.
    + simpl. f_equal. rewrite length_drop. pose proof (run_le cls_hyphen s). lia.
    + rewrite greedy_end. case_decide; [lia|done].
Qed.

Lemma drop_hyphens_run s : drop_hyphens s = drop (run_length cls_hyphen s) s.
Proof.
  induction s as [|c s IH]; simpl; [done|]. unfold is_hyphen.
  destruct (cset_mem c cls_hyphen); simpl; [apply IH|done].
Qed.

Lemma run_app_all cs l r :
  run_length cs l = length l → run_length cs (l ++ r) = length l + run_length cs r.
Proof.
  induction l as [|c l IH]; simpl; [done|].
  destruct (cset_mem c cs); [|done]. intros [= H]. by rewrite IH.
Qed.

Lemma run_app_some cs l r : run_length cs l < length l → run_length cs (l ++ r) = run_length cs l.
Proof.
  induction l as [|c l IH]; simpl; [lia|].
  destruct (cset_mem c cs); [|done]. intros H. rewrite IH; lia.
Qed.

Lemma run_reverse_all cs s : run_length cs s = length s ↔ run_length cs (reverse s) = length (reverse s).
Proof.
  rewrite length_reverse. induction s as [|c s IH]; [done|].
  rewrite reverse_cons. pose proof (run_le cs s). pose proof (run_le cs (reverse s)).
  rewrite length_reverse in *. cbn [run_length length].
  destruct (decide (run_length cs (reverse s) = length s)) as [Hall|Hnot].
  - rewrite run_app_all by (by rewrite length_reverse).
    rewrite length_reverse. cbn [run_length]. destruct (cset_mem c cs); lia.
  - rewrite run_app_some by (rewrite length_reverse; lia).
    destruct (cset_mem c cs); lia.
Qed.

Lemma drop_trailing_cons c s :
  drop_trailing (c :: s)
  = if decide (run_length cls_hyphen (c :: s) = length (c :: s)) then []
    else c :: drop_trailing s.
Proof.
  unfold drop_trailing. rewrite reverse_cons, !drop_hyphens_run.
  pose proof (run_le cls_hyphen (reverse s ++ [c])).
  pose proof (run_le cls_hyphen (reverse s)) as Hle.
  pose proof (run_reverse_all cls_hyphen (c :: s)) as Hall.
  pose proof (run_reverse_all cls_hyphen s) as Hall'.
  rewrite reverse_cons in Hall. rewrite length_reverse in Hle, Hall'.
  case_decide as Hc.
  - rewrite drop_ge; [done|]. apply Hall in Hc. lia.
  - destruct (decide (run_length cls_hyphen (reverse s) = length s)) as [Hs|Hs].
    + rewrite run_app_all by (by rewrite length_reverse).
      rewrite length_reverse.
      assert (run_length cls_hyphen [c] = 0) as ->.
      { cbn [run_length] in *. destruct (cset_mem c cls_hyphen); [|done].
        exfalso. apply Hc. cbn [length]. f_equal. by apply Hall'. }
      rewrite Nat.add_0_r, drop_app_length', Hs by (by rewrite length_reverse).
      rewrite (drop_ge (reverse s)) by (rewrite length_reverse; lia). done.
    + rewrite run_app_some by (rewrite length_reverse; lia).
      rewrite drop_app_le by (rewrite length_reverse; lia).
      by rewrite reverse_app.
Qed.

Lemma replace_go_skip m repl k p s :
  k ≤ length s →
  ∃ p', replace_go m repl k (Some p) s = replace_go m repl 0 (Some p') (drop k s).
Proof.
  revert p s. induction k as [|k IH]; intros p s Hk; [by exists p|].
  destruct s as [|c s]; [simpl in Hk; lia|]. cbn [replace_go drop].
  apply IH. simpl in Hk. lia.
Qed.

Lemma replaceAll_edges_mid p s :
  replace_go (match_at rEdges) (λ _, []) 0 (Some p) s = drop_trailing s.
Proof.
  revert p. induction s as [|c s IH]; intros p.
  { cbn [replace_go]. rewrite match_at_edges. by case_decide. }
  cbn [replace_go]. rewrite match_at_edges, drop_trailing_cons.
  case_decide as Hall.
  - rewrite decide_True by tauto. cbn [length app].
    destruct (replace_go_skip (match_at rEdges) (λ _, []) (length s) c s)
      as [p' ->]; [done|].
    rewrite drop_all. cbn [replace_go]. rewrite match_at_edges.
    by case_decide.
  - rewrite decide_False; [by rewrite IH|]. intros Heq. apply Hall.
    split; [|done]. rewrite Heq. simpl. lia.
Qed.

Lemma replaceAll_edges s : replaceAll rEdges (λ _, []) s = trim_hyphens s.
Proof.
  unfold replaceAll, trim_hyphens. fold (drop_trailing (drop_hyphens s)).
  destruct s as [|c s]; cbn [replace_go]; rewrite match_at_edges.
  { by case_decide. }
  cbn [run_length drop_hyphens]. unfold is_hyphen.
  destruct (cset_mem c cls_hyphen) eqn:Hc.
  - rewrite decide_True by lia. cbn [app].
    destruct (replace_go_skip (match_at rEdges) (λ _, []) (run_length cls_hyphen s) c s)
      as [p' ->]; [apply run_le|].
    by rewrite replaceAll_edges_mid, drop_hyphens_run.
  - rewrite decide_False by lia. rewrite replaceAll_edges_mid.
    rewrite drop_trailing_cons. cbn [run_length]. rewrite Hc.
    by rewrite decide_False by (simpl; lia).
Qed.

Lemma replace_first_none m repl p s :
  (∀ p s, m (Some p) s = None) → replace_first m repl (Some p) s = s.
Proof.
  intros Hm. revert p. induction s as [|c s IH]; intros p; simpl; rewrite Hm; [done|].
  by rewrite IH.
Qed.

Lemma replaceOnce_leading_digit s :
  replaceOnce rLeadingDigit (λ m, js "_" ++ m) s = prefix_underscore s.
Proof.
  unfold replaceOnce, rLeadingDigit, prefix_underscore.
  destruct s as [|c s]; [done|]. cbn [replace_first].
  unfold match_at at 1. cbn [rmatch]. unfold is_digit.
  destruct (cset_mem c cls_digit).
  - cbn [fmap option_fmap option_map].
    replace (length (c :: s) - length s) with 1 by (simpl; lia). done.
  - cbn [fmap option_fmap option_map]. by rewrite replace_first_none.
Qed.

(** Two lists with the same members. *)
Lemma same_members (l1 l2 : list Z) :
  forallb (λ x, includes x l2) l1 && forallb (λ x, includes x l1) l2 = true →
  ∀ c, c ∈ l1 ↔ c ∈ l2.
Proof.
  rewrite andb_true_iff, !forallb_forall. intros [H12 H21] c.
  split; intros Hc%list_elem_of_In.
  - apply H12 in Hc. by apply bool_decide_eq_true in Hc.
  - apply H21 in Hc. by apply bool_decide_eq_true in Hc.
Qed.

(** The source lists the special characters of the specification, the
    backtick and the two curly double quotes. *)
Lemma special_in_source_spec c :
  c ∈ special_in_source ↔ c ∈ special_in_spec ∨ c ∈ js "`“”".
Proof. rewrite <-elem_of_app. by apply same_members. Qed.

(** The source, step by step. *)
Lemma slugify_steps_source `{U : Unicode} s :
  slugify s = slugify_steps special_in_source s.
Proof.
  unfold slugify, slugify_steps.
  rewrite replaceOnce_leading_digit, replaceAll_edges, replaceAll_hyphens.
  unfold rSpecial, rControl, rCombining.
  by rewrite replaceAll_rep1, !replaceAll_chars.
Qed.

(** ** The guard *)

Lemma cset_mem_single c c' : cset_mem c' [single c] = bool_decide (c' = c).
Proof.
  unfold cset_mem, single. simpl. rewrite orb_false_r.
  case_bool_decide as H.
  - subst. by rewrite Z.leb_refl.
  - apply andb_false_iff. rewrite !Z.leb_gt. lia.
Qed.

Lemma starts_with_nil s : starts_with [] s = true.
Proof. unfold starts_with. by rewrite bool_decide_true. Qed.

Lemma starts_with_cons c w c' s :
  starts_with (c :: w) (c' :: s) = bool_decide (c' = c) && starts_with w s.
Proof.
  unfold starts_with. simpl. apply eq_true_iff_eq.
  rewrite andb_true_iff, !bool_decide_eq_true. split.
  - intros Heq. injection Heq as H1 H2. by split.
  - intros [H1 H2]. by rewrite H1, H2.
Qed.

Lemma starts_with_cons_nil c w : starts_with (c :: w) [] = false.
Proof. unfold starts_with. by rewrite bool_decide_false. Qed.

(** A literal matches where the string starts with it. *)
Lemma rmatch_lits w prev s k :
  rmatch (lits w) prev s k
  = if starts_with w s
    then k (from_option Some prev (last w)) (drop (length w) s)
    else None.
Proof.
  revert prev s. induction w as [|c w IH]; intros prev s.
  { by rewrite starts_with_nil. }
  cbn [lits foldr rmatch Lit]. fold (lits w).
  destruct s as [|c' s]; [by rewrite starts_with_cons_nil|].
  rewrite cset_mem_single, starts_with_cons. case_bool_decide as Hc; [|done].
  subst c'. cbn [andb]. rewrite IH. cbn [length drop].
  rewrite last_cons. by destruct (last w).
Qed.

Lemma starts_with_length w s : starts_with w s = true → length w ≤ length s.
Proof.
  unfold starts_with. rewrite bool_decide_eq_true. intros <-.
  rewrite length_take. lia.
Qed.

Lemma rmatch_words words prev s :
  words ≠ [] →
  rmatch (alt_of (lits <$> words)) prev s (λ p r, Some r)
  = (λ w, drop (length w) s) <$> List.find (λ w, starts_with w s) words.
Proof.
  intros Hne. induction words as [|w words IH]; [done|].
  destruct words as [|w' words].
  - cbn [fmap list_fmap alt_of List.find]. rewrite rmatch_lits.
    by destruct (starts_with w s).
  - change (alt_of (lits <$> w :: w' :: words))
      with (Alt (lits w) (alt_of (lits <$> w' :: words))).
    cbn [rmatch List.find]. rewrite rmatch_lits.
    destruct (starts_with w s); [done|]. by apply IH.
Qed.

Lemma match_at_words words prev s :
  words ≠ [] → match_at (words_regex words) prev s = find_word words prev s.
Proof.
  intros Hne. unfold match_at, words_regex, find_word, boundary. cbn [rmatch].
  destruct (xorb _ _); [|done].
  rewrite rmatch_words by done.
  destruct (List.find _ words) as [w|] eqn:Hfind; [|done]. simpl. f_equal.
  apply find_some in Hfind as [_ Hw]. apply starts_with_length in Hw.
  rewrite length_drop. lia.
Qed.

(** Replacing depends on the matcher and on what the replacement does
    to the matches only. *)
Lemma replace_go_ext m1 m2 r1 r2 k prev s :
  (∀ p t, m1 p t = m2 p t) →
  (∀ p t n, m1 p t = Some n → r1 (take n t) = r2 (take n t)) →
  replace_go m1 r1 k prev s = replace_go m2 r2 k prev s.
Proof.
  intros Hm Hr. revert k prev. induction s as [|c s IH]; intros k prev.
  - destruct k; [|done]. cbn [replace_go]. rewrite <-Hm.
    destruct (m1 prev []) as [n|] eqn:E; [|done]. by rewrite (Hr _ _ _ E).
  - destruct k; cbn [replace_go]; [|by apply IH]. rewrite <-Hm.
    destruct (m1 prev (c :: s)) as [n|] eqn:E.
    + rewrite (Hr _ _ _ E). destruct n; by rewrite IH.
    + by rewrite IH.
Qed.

Lemma find_word_take words prev s n :
  find_word words prev s = Some n →
  ∃ w, w ∈ words ∧ take n s = w ∧ length w = n.
Proof.
  unfold find_word. destruct (boundary prev s); [|done].
  destruct (List.find _ words) as [w|] eqn:Hfind; [|done]. intros [= <-].
  apply find_some in Hfind as [Hin Hw]. exists w. split_and!; [|by apply bool_decide_eq_true in Hw|done].
  by apply list_elem_of_In.
Qed.

Lemma match_at_word w prev s :
  match_at (Cat WordBoundary (lits w)) prev s = find_word [w] prev s.
Proof. by apply (match_at_words [w]). Qed.

(** A fixed word is replaced by itself with the marker inside. *)
Lemma replaceAll_word w off s :
  replaceAll (Cat WordBoundary (lits w)) (λ _, break_at off w) s
  = guard_words [w] off s.
Proof.
  unfold replaceAll, guard_words. apply replace_go_ext.
  - intros p t. apply match_at_word.
  - intros p t n Hn. rewrite match_at_word in Hn.
    apply find_word_take in Hn as (w' & Hw & -> & _).
    by apply list_elem_of_singleton in Hw as ->.
Qed.

(** ** The pattern built from the keys *)

Lemma cset_mem_chars_of c l : cset_mem c (chars_of l) = true ↔ c ∈ l.
Proof.
  unfold chars_of. induction l as [|x l IH].
  { split; [done|]. by intros ?%elem_of_nil. }
  unfold cset_mem in *. cbn [fmap list_fmap existsb].
  rewrite orb_true_iff, IH, elem_of_cons. unfold single. simpl.
  rewrite andb_true_iff, !Z.leb_le. split; (intros [?|?]; [left; lia|by right]).
Qed.

Lemma replaceAll_chars_bind cs repl s :
  replaceAll (Chars cs) repl s
  = s ≫= (λ c, if cset_mem c cs then repl [c] else [c]).
Proof.
  unfold replaceAll. generalize (@None Z).
  induction s as [|c s IH]; intros prev; cbn [replace_go];
    rewrite match_at_chars; [done|].
  cbn [mbind list_bind]. destruct (cset_mem c cs); cbn [take]; by rewrite IH.
Qed.

Lemma escapeKey_bind key : escapeKey key = key ≫= escape_unit.
Proof. unfold escapeKey, rMeta. by rewrite replaceAll_chars_bind. Qed.

(** An escaped code unit is read back as that very character. *)
Lemma lex_escape_unit c rest :
  lex (escape_unit c ++ rest) = (PChar c ::.) <$> lex rest.
Proof.
  unfold escape_unit.
  destruct (cset_mem c (chars_of (js "-[]/{}()*+?.\^$|"))) eqn:Hc.
  - apply cset_mem_chars_of in Hc. vm_compute in Hc.
    repeat (apply elem_of_cons in Hc as [->|Hc]; [done|]).
    by apply elem_of_nil in Hc.
  - assert (∀ x, x ∈ js "-[]/{}()*+?.\^$|" → c ≠ x) as Hne.
    { intros x Hx ->. apply cset_mem_chars_of in Hx. congruence. }
    assert (cset_mem c cls_syntax = false) as Hsyn.
    { apply not_true_iff_false. intros Hs. apply cset_mem_chars_of in Hs.
      vm_compute in Hs.
      repeat (apply elem_of_cons in Hs as [->|Hs];
              [by vm_compute in Hc|]).
      by apply elem_of_nil in Hs. }
    cbn [app lex].
    rewrite (proj2 (Z.eqb_neq c 0x5C)), (proj2 (Z.eqb_neq c 0x7C)),
      (proj2 (Z.eqb_neq c 0x28)), (proj2 (Z.eqb_neq c 0x29)), Hsyn; [done|..];
      apply Hne; vm_compute; set_solver.
Qed.

Lemma lex_escapeKey key rest :
  lex (escapeKey key ++ rest) = ((PChar <$> key) ++.) <$> lex rest.
Proof.
  rewrite escapeKey_bind. induction key as [|c key IH]; cbn [mbind list_bind].
  { cbn [app fmap list_fmap]. by destruct (lex rest). }
  rewrite <-app_assoc, lex_escape_unit, IH. by destruct (lex rest).
Qed.

Lemma join_cons_cons sep x y l :
  join sep (x :: y :: l) = x ++ sep ++ join sep (y :: l).
Proof. done. Qed.

Lemma key_tokens_cons_cons k k' keys :
  key_tokens (k :: k' :: keys) = (PChar <$> k) ++ PBar :: key_tokens (k' :: keys).
Proof. done. Qed.

Lemma lex_bar rest : lex (js "|" ++ rest) = (PBar ::.) <$> lex rest.
Proof. done. Qed.

Lemma lex_join keys rest :
  lex (join (js "|") (escapeKey <$> keys) ++ rest)
  = (key_tokens keys ++.) <$> lex rest.
Proof.
  induction keys as [|k keys IH].
  { cbn [fmap list_fmap join app key_tokens]. by destruct (lex rest). }
  destruct keys as [|k' keys].
  - cbn [fmap list_fmap join key_tokens]. apply lex_escapeKey.
  - rewrite !fmap_cons, join_cons_cons, key_tokens_cons_cons.
    rewrite <-!app_assoc, lex_escapeKey, lex_bar.
    rewrite <-fmap_cons, IH. destruct (lex rest); [|done].
    cbn [fmap option_fmap option_map]. f_equal. by rewrite <-app_assoc.
Qed.

Lemma seq_of_lits k : seq_of (Lit <$> k) = lits k.
Proof.
  unfold seq_of, lits. induction k as [|c k IH]; [done|].
  cbn [fmap list_fmap foldr]. by f_equal.
Qed.

Lemma parse_chars k ts done cur outer :
  parse ((PChar <$> k) ++ ts) done cur outer
  = parse ts done (cur ++ (Lit <$> k)) outer.
Proof.
  revert cur. induction k as [|c k IH]; intros cur; cbn [fmap list_fmap app parse].
  - by rewrite app_nil_r.
  - rewrite IH. by rewrite <-app_assoc.
Qed.

Lemma parse_keys keys ts done d c outer :
  parse (key_tokens keys ++ PClose :: ts) done [] ((d, c) :: outer)
  = parse ts d
      (c ++ [Group (alt_of (done ++ (lits <$> alternatives keys)))]) outer.
Proof.
  revert done. induction keys as [|k keys IH]; intros done.
  { done. }
  destruct keys as [|k' keys].
  - cbn [key_tokens alternatives fmap list_fmap]. rewrite parse_chars.
    cbn [parse app]. unfold disjunction. by rewrite seq_of_lits.
  - rewrite key_tokens_cons_cons, <-app_assoc, parse_chars. cbn [app parse].
    rewrite IH, seq_of_lits. cbn [alternatives fmap list_fmap].
    by rewrite <-app_assoc.
Qed.

(** The keys, escaped and joined, parse as the pattern that matches
    one of them literally at a word boundary. *)
Lemma RegExp_defineSource keys :
  RegExp (defineSource keys) = Some (words_regex (alternatives keys)).
Proof.
  unfold RegExp, defineSource.
  change (js "\b(" ++ ?x) with (0x5C%Z :: 0x62%Z :: 0x28%Z :: x).
  cbn [lex]. change (0x5C =? 0x5C)%Z with true.
  change (0x62 =? 0x62)%Z with true. cbn iota.
  change (0x28 =? 0x5C)%Z with false. change (0x28 =? 0x7C)%Z with false.
  change (0x28 =? 0x28)%Z with true. cbn iota.
  rewrite lex_join. change (lex (js ")")) with (Some [PClose]).
  cbn [fmap option_fmap option_map mbind option_bind parse app].
  by rewrite parse_keys.
Qed.

(** ** The guard as a whole *)

Lemma inserted_app x p q s t :
  inserted x s t → inserted x (p ++ s ++ q) (p ++ t ++ q).
Proof.
  induction 1 as [s|s t u (a & b & -> & ->) _ IH]; [constructor|].
  eapply rtc_l; [|exact IH]. exists (p ++ a), (b ++ q).
  by rewrite <-!app_assoc.
Qed.

Lemma inserted_one x a b : inserted x (a ++ b) (a ++ x ++ b).
Proof. apply rtc_once. by exists a, b. Qed.

Lemma inserted_app_l x p s t : inserted x s t → inserted x (p ++ s) (p ++ t).
Proof.
  intros H. apply (inserted_app x p []) in H. by rewrite !app_nil_r in H.
Qed.

Lemma inserted_cons x c s t : inserted x s t → inserted x (c :: s) (c :: t).
Proof. apply (inserted_app_l x [c]). Qed.

Lemma replace_go_inserted m off k prev s :
  inserted marker (drop k s) (replace_go m (break_at off) k prev s).
Proof.
  revert k prev. induction s as [|c s IH]; intros k prev.
  - destruct k; cbn [replace_go drop]; [|constructor].
    destruct (m prev []) as [n|]; [|constructor].
    rewrite take_nil. unfold break_at. rewrite take_nil, drop_nil.
    apply (inserted_one marker [] []).
  - destruct k as [|k]; cbn [replace_go drop]; [|apply IH].
    destruct (m prev (c :: s)) as [[|n]|].
    + cbn [take]. unfold break_at. rewrite take_nil, drop_nil, app_nil_r.
      etrans; [|apply (inserted_one marker [] (c :: _))].
      apply inserted_cons, (IH 0).
    + set (T := take (S n) (c :: s)). unfold break_at.
      replace (c :: s) with (take off T ++ drop off T ++ drop n s); cycle 1.
      { rewrite app_assoc, take_drop. apply (take_drop (S n) (c :: s)). }
      rewrite <-!app_assoc.
      etrans; [|apply (inserted_one marker (take off T) (drop off T ++ _))].
      apply inserted_app_l, inserted_app_l, IH.
    + apply inserted_cons, (IH 0).
Qed.

Lemma guard_words_inserted words off s :
  inserted marker s (guard_words words off s).
Proof. apply (replace_go_inserted _ off 0 None s). Qed.

Lemma guarded_inserted source define : inserted marker source (guarded source define).
Proof.
  unfold guarded. etrans; [apply (guard_words_inserted [js "import.meta"] 7)|].
  etrans; [apply (guard_words_inserted [js "process.env"] 8)|].
  destruct define; [apply guard_words_inserted|constructor].
Qed.

Lemma breakAfterFirst_nonempty m : m ≠ [] → breakAfterFirst m = break_at 1 m.
Proof. by destruct m. Qed.

(** On a usable mapping the guard is [guarded]. *)
Lemma prevent_guarded source define :
  usable define = true →
  preventViteConstantsReplacement source define = Some (guarded source define).
Proof.
  intros Huse. unfold preventViteConstantsReplacement, guarded.
  change (λ _ : list Z, js "import.<wbr/>meta")
    with (λ _ : list Z, break_at 7 (js "import.meta")).
  change (λ _ : list Z, js "process.<wbr/>env")
    with (λ _ : list Z, break_at 8 (js "process.env")).
  unfold rImportMeta, rProcessEnv. rewrite !replaceAll_word.
  destruct define as [keys|]; [|done].
  apply andb_true_iff in Huse as [Hne Hkeys].
  rewrite forallb_forall in Hkeys.
  rewrite RegExp_defineSource. cbn [mbind option_bind]. f_equal.
  assert (alternatives keys = keys) as -> by by destruct keys.
  assert (keys ≠ []) as Hne' by by destruct keys.
  unfold replaceAll, guard_words. apply replace_go_ext.
  - intros p t. by apply match_at_words.
  - intros p t n Hn. rewrite match_at_words in Hn by done.
    apply find_word_take in Hn as (w & Hw & -> & _).
    apply breakAfterFirst_nonempty. apply list_elem_of_In, Hkeys in Hw.
    by destruct w.
Qed.

(** ** An empty mapping *)

Lemma find_word_empty prev s :
  find_word [[]] prev s = if boundary prev s then Some 0 else None.
Proof. unfold find_word. by destruct (boundary prev s). Qed.

Lemma replace_go_empty repl prev s :
  replace_go (find_word [[]]) repl 0 prev s = at_boundaries (repl []) prev s.
Proof.
  revert prev. induction s as [|c s IH]; intros prev;
    cbn [replace_go at_boundaries]; rewrite find_word_empty;
    destruct (boundary prev _); cbn [take app]; by rewrite ?IH.
Qed.

Lemma prevent_empty source :
  preventViteConstantsReplacement source (Some [])
  = Some (at_boundaries (js "undefined<wbr/>") None (guarded source None)).
Proof.
  unfold preventViteConstantsReplacement.
  rewrite RegExp_defineSource. cbn [mbind option_bind alternatives]. f_equal.
  change (js "undefined<wbr/>") with (breakAfterFirst []).
  rewrite <-replace_go_empty. unfold replaceAll.
  transitivity (replace_go (find_word [[]]) breakAfterFirst 0 None
    (source |> replaceAll rImportMeta (λ _, break_at 7 (js "import.meta"))
            |> replaceAll rProcessEnv (λ _, break_at 8 (js "process.env")))).
  - apply replace_go_ext; [|done]. intros p t. by apply match_at_words.
  - unfold rImportMeta, rProcessEnv. by rewrite !replaceAll_word.
Qed.

Lemma count_app c s t : count c (s ++ t) = count c s + count c t.
Proof. unfold count. by rewrite List.filter_app, length_app. Qed.

Lemma inserted_count x c s t :
  count c x = 0 → inserted x s t → count c t = count c s.
Proof.
  intros Hx. induction 1 as [|s t u (a & b & -> & ->) _ IH]; [done|].
  rewrite IH, !count_app, Hx. lia.
Qed.

(* ===================================================================== *)
(** * 13. The title                                                       *)
(* ===================================================================== *)

(** ** The title, in words *)

Lemma foldl_app_concat {A} (f : A → jsstring) acc l :
  foldl (λ r x, r ++ f x) acc l = acc ++ concat (f <$> l).
Proof.
  revert acc. induction l as [|x l IH]; intros acc; simpl.
  - by rewrite app_nil_r.
  - by rewrite IH, <-app_assoc.
Qed.

Lemma resolveTitle_extractTitle htmlEscape token allowHtml escapeText :
  resolveTitleFromToken htmlEscape token allowHtml escapeText
  = extractTitle htmlEscape token allowHtml escapeText.
Proof.
  unfold resolveTitleFromToken, extractTitle. f_equal.
  rewrite <-(app_nil_l (concat _)), <-foldl_app_concat.
  unfold piece. clear. generalize (@nil Z).
  induction (List.filter _ _) as [|x l IH]; intros acc; [done|].
  cbn [foldl]. rewrite <-IH. by destruct (_ && _).
Qed.

Lemma in_title_spec allowHtml item :
  in_title allowHtml item = true ↔
    (Token.type item = js "text" ∨ Token.type item = js "emoji"
     ∨ Token.type item = js "code_inline"
     ∨ (allowHtml = true ∧ Token.type item = js "html_inline"))
    ∧ from_option Token.isPermalinkSymbol false (Token.meta item) = false.
Proof.
  unfold in_title, title_types.
  rewrite andb_true_iff, negb_true_iff, includes_true.
  apply and_iff_compat_r. rewrite elem_of_app, !elem_of_cons.
  destruct allowHtml.
  - rewrite list_elem_of_singleton, elem_of_nil. tauto.
  - rewrite !elem_of_nil. intuition congruence.
Qed.

Lemma piece_raw htmlEscape escapeText item :
  Token.type item = js "emoji" ∨ Token.type item = js "html_inline" →
  piece htmlEscape escapeText item = Token.content item.
Proof.
  unfold piece, str_eqb. intros [-> | ->]; by rewrite andb_false_r.
Qed.

Lemma piece_escaped htmlEscape item :
  Token.type item = js "text" ∨ Token.type item = js "code_inline" →
  piece htmlEscape true item = htmlEscape (Token.content item).
Proof. unfold piece, str_eqb. by intros [-> | ->]. Qed.

Lemma piece_unescaped htmlEscape item :
  piece htmlEscape false item = Token.content item.
Proof. done. Qed.

Lemma capture_Some htmlEscape tokens opts idx h :
  capture htmlEscape tokens opts idx = Some h →
  ∃ open next lvl,
    tokens !! idx = Some open ∧ Token.type open = js "heading_open" ∧
    parseInt (slice1 (Token.tag open)) = Some lvl ∧
    lvl ∈ Options.level opts ∧ tokens !! S idx = Some next ∧
    h = header_of htmlEscape opts open next lvl.
Proof.
  unfold capture. intros Hc.
  destruct (tokens !! idx) as [open|]; [|done]. cbn [mbind option_bind] in Hc.
  case_guard; [|done]. cbn [mbind option_bind] in Hc.
  destruct (parseInt _) as [lvl|] eqn:Hlvl; [|done]. cbn [mbind option_bind] in Hc.
  case_guard; [|done]. cbn [mbind option_bind] in Hc.
  destruct (tokens !! S idx) as [next|]; [|done]. injection Hc as <-.
  by exists open, next, lvl.
Qed.

(** ** Trimming *)

Lemma head_trimStart s c : head (trimStart s) = Some c → is_space c = false.
Proof.
  induction s as [|x s IH]; simpl; [done|].
  destruct (is_space x) eqn:Hx; [done|]. by intros [= <-].
Qed.

Lemma trimStart_fixed s :
  (∀ c, head s = Some c → is_space c = false) → trimStart s = s.
Proof. destruct s as [|c s]; [done|]. intros H. simpl. by rewrite (H c). Qed.

Lemma trimStart_nil s : trimStart s = [] ↔ Forall (λ c, is_space c = true) s.
Proof.
  induction s as [|x s IH]; simpl; [done|].
  destruct (is_space x) eqn:Hx.
  - rewrite IH, Forall_cons. tauto.
  - split; [done|]. intros [? _]%Forall_cons. congruence.
Qed.

Lemma trimStart_run s : trimStart s = drop (run_length cls_space s) s.
Proof.
  induction s as [|c s IH]; simpl; [done|]. unfold is_space.
  destruct (cset_mem c cls_space); simpl; [apply IH|done].
Qed.

Lemma last_trimEnd s c : last (trimEnd s) = Some c → is_space c = false.
Proof. unfold trimEnd. rewrite last_reverse. apply head_trimStart. Qed.

Lemma trimEnd_fixed s :
  (∀ c, last s = Some c → is_space c = false) → trimEnd s = s.
Proof.
  intros H. unfold trimEnd. rewrite trimStart_fixed; [apply reverse_involutive|].
  intros c. rewrite head_reverse. apply H.
Qed.

Lemma head_trim s c : head (trim s) = Some c → is_space c = false.
Proof.
  unfold trim, trimEnd.
  rewrite (trimStart_run (reverse _)), reverse_drop, reverse_involutive.
  intros Hc. apply (head_trimStart s).
  rewrite head_lookup in *. apply lookup_take_Some in Hc. tauto.
Qed.

Lemma last_trim s c : last (trim s) = Some c → is_space c = false.
Proof. apply last_trimEnd. Qed.

Lemma trim_trim s : trim (trim s) = trim s.
Proof.
  unfold trim at 1. rewrite (trimStart_fixed (trim s)) by apply head_trim.
  apply trimEnd_fixed, last_trim.
Qed.

Lemma trim_nil s : trim s = [] ↔ Forall (λ c, is_space c = true) s.
Proof.
  unfold trim, trimEnd. rewrite <-(reverse_involutive []). split.
  - intros H%(inj reverse). apply trimStart_nil in H.
    rewrite Forall_reverse in H.
    destruct (trimStart s) as [|c t] eqn:E; [by apply trimStart_nil|].
    apply Forall_cons in H as [Hc _].
    pose proof (head_trimStart s c) as Hh. rewrite E in Hh.
    specialize (Hh eq_refl). congruence.
  - intros H. by apply trimStart_nil in H as ->.
Qed.

Lemma trimStart_split s :
  ∃ pre, s = pre ++ trimStart s ∧ Forall (λ c, is_space c = true) pre.
Proof.
  induction s as [|c s (pre & Hs & Hpre)]; [by exists []|]. simpl.
  destruct (is_space c) eqn:Hc; [|by exists []].
  exists (c :: pre). split; [simpl; congruence|by constructor].
Qed.

Lemma trimEnd_split s :
  ∃ post, s = trimEnd s ++ post ∧ Forall (λ c, is_space c = true) post.
Proof.
  unfold trimEnd. destruct (trimStart_split (reverse s)) as (pre & Hs & Hpre).
  exists (reverse pre). split; [|by apply Forall_reverse].
  rewrite <-reverse_app, <-Hs. by rewrite reverse_involutive.
Qed.

Lemma trim_split s :
  ∃ pre post,
    s = pre ++ trim s ++ post
    ∧ Forall (λ c, is_space c = true) pre
    ∧ Forall (λ c, is_space c = true) post.
Proof.
  destruct (trimStart_split s) as (pre & Hs & Hpre).
  destruct (trimEnd_split (trimStart s)) as (post & Hs' & Hpost).
  exists pre, post. split; [|done]. unfold trim. by rewrite <-Hs', <-Hs.
Qed.

Lemma htmlEscape_model_clean s :
  Forall (λ c, c ≠ 0x3C ∧ c ≠ 0x3E ∧ c ≠ 0x22)%Z (htmlEscape_model s).
Proof.
  unfold htmlEscape_model. induction s as [|c s IH]; [constructor|].
  cbn [mbind list_bind]. apply Forall_app. split; [|exact IH].
  destruct (c =? 0x26)%Z eqn:E1; [by vm_compute; repeat constructor|].
  destruct (c =? 0x3C)%Z eqn:E2; [by vm_compute; repeat constructor|].
  destruct (c =? 0x3E)%Z eqn:E3; [by vm_compute; repeat constructor|].
  destruct (c =? 0x22)%Z eqn:E4; [by vm_compute; repeat constructor|].
  constructor; [|constructor]. lia.
Qed.

(** ** Where a captured heading ends up *)

Section emitted.
Context (htmlEscape : jsstring → jsstring).

Lemma capture_heading tokens opts idx open next lvl :
  tokens !! idx = Some open →
  Token.type open = js "heading_open" →
  parseInt (slice1 (Token.tag open)) = Some lvl →
  lvl ∈ Options.level opts →
  tokens !! S idx = Some next →
  capture htmlEscape tokens opts idx
  = Some (header_of htmlEscape opts open next lvl).
Proof.
  intros Hopen Hty Hlvl Hin Hnext. unfold capture.
  rewrite Hopen. cbn [mbind option_bind]. case_guard; [|done].
  cbn [mbind option_bind]. rewrite Hlvl. cbn [mbind option_bind].
  case_guard; [|done]. cbn [mbind option_bind]. by rewrite Hnext.
Qed.

(** The header a captured heading gives is in the result, at the
    position the heading has among the captured ones. *)
Lemma resolve_captured_at tokens opts idx h :
  capture htmlEscape tokens opts idx = Some h →
  ∃ f, resolveHeadersFromTokens htmlEscape tokens opts = Some f
       ∧ outline_all f !! captured_before htmlEscape tokens opts idx = Some h.
Proof.
  intros Hc. destruct (resolve_outline htmlEscape tokens opts) as (f & Hf & Hout).
  exists f. split; [done|]. rewrite Hout. unfold captured, captured_before.
  assert (idx < length tokens) as Hlt.
  { apply lookup_lt_is_Some. unfold capture in Hc.
    destruct (tokens !! idx); [by eexists|done]. }
  replace (length tokens) with (idx + S (length tokens - S idx)) by lia.
  rewrite seq_app, omap_app. cbn [plus seq omap list_omap]. rewrite Hc.
  by rewrite lookup_app_r, Nat.sub_diag by done.
Qed.

Lemma captured_before_levels tokens opts opts' idx :
  Options.level opts' = Options.level opts →
  captured_before htmlEscape tokens opts' idx
  = captured_before htmlEscape tokens opts idx.
Proof.
  intros Hl. unfold captured_before.
  induction (seq 0 idx) as [|i l IH]; [done|]. cbn [omap list_omap].
  assert (is_Some (capture htmlEscape tokens opts' i)
          ↔ is_Some (capture htmlEscape tokens opts i)) as Hs.
  { unfold capture. rewrite Hl.
    destruct (tokens !! i) as [open|]; [|done]. cbn [mbind option_bind].
    case_guard; [|done]. cbn [mbind option_bind].
    destruct (parseInt _); [|done]. cbn [mbind option_bind].
    case_guard; [|done]. cbn [mbind option_bind].
    destruct (tokens !! S i); [|done]. cbn [mbind option_bind].
    split; by eexists. }
  destruct (capture htmlEscape tokens opts' i), (capture htmlEscape tokens opts i);
    cbn [length]; try by rewrite IH.
  - destruct Hs as [Hs _]. by destruct Hs.
  - destruct Hs as [_ Hs]. by destruct Hs.
Qed.
End emitted.

(* ===================================================================== *)
(** * 14. The claims                                                      *)
(* ===================================================================== *)

(** One turn of the loop, in the words of the specification. *)
Lemma run_to_step htmlEscape tokens opts n :
  run_to htmlEscape tokens opts (S n)
  = match capture htmlEscape tokens opts n with
    | None => run_to htmlEscape tokens opts n
    | Some h =>
        insert_header (obj_of h)
          (logs (calls_at htmlEscape tokens opts n)
             (run_to htmlEscape tokens opts n))
    end.
Proof.
  rewrite run_to_S.
  pose proof (visit_capture htmlEscape tokens opts n
                (run_to htmlEscape tokens opts n)) as Hv.
  destruct (capture htmlEscape tokens opts n) as [h|] eqn:Hc; [|done].
  apply capture_Some in Hc
    as (open & next & lvl & Hopen & Hty & Hlvl & Hin & Hnext & ->).
  rewrite (visit_heading htmlEscape tokens opts n _ open next lvl) by done.
  unfold calls_at. rewrite Hopen, Hnext.
  apply push_insert_header, wf_logs.
  apply (run_to_spec htmlEscape tokens opts n).
Qed.

(** C1. For every token sequence, each captured header is inserted by
    taking off the stack every entry whose level is at least its own
    and then appending it to the top level if the stack is empty, and
    as the last child of the front entry otherwise, the header itself
    becoming the front entry.  Hence the trees list the captured
    headings, and nothing else, in document order, every child is
    strictly deeper than its parent, two level-2 headings after a
    level-1 heading are its children in order, and a level-4 heading
    after a level-2 heading is a child of that heading. *)
Theorem C1_insertion (htmlEscape : jsstring → jsstring) (tokens : list Token)
    (opts : Options.t) :
  (∀ n,
     run_to htmlEscape tokens opts (S n)
     = match capture htmlEscape tokens opts n with
       | None => run_to htmlEscape tokens opts n
       | Some h =>
           insert_header (obj_of h)
             (logs (calls_at htmlEscape tokens opts n)
                (run_to htmlEscape tokens opts n))
       end)
  ∧ (∃ f, resolveHeadersFromTokens htmlEscape tokens opts = Some f
          ∧ outline_all f = captured htmlEscape tokens opts
          ∧ Forall deepening f)
  ∧ resolveHeadersFromTokens htmlEscape
      (Example.heading "h1" "One" ++ Example.heading "h2" "Two"
       ++ Example.heading "h2" "Three")
      (Example.options [1; 2; 3; 4; 5; 6]%Z)
    = Some [Header 1 (js "One") (js "one")
              [Example.leaf 2 "Two" "two"; Example.leaf 2 "Three" "three"]]
  ∧ resolveHeadersFromTokens htmlEscape
      (Example.heading "h2" "Two" ++ Example.heading "h4" "Four")
      (Example.options [1; 2; 3; 4; 5; 6]%Z)
    = Some [Header 2 (js "Two") (js "two") [Example.leaf 4 "Four" "four"]].
Proof.
  split_and!.
  - intros n. apply run_to_step.
  - destruct (resolve_outline htmlEscape tokens opts) as (f & Hf & Hout).
    exists f. split_and!; [done..|]. by eapply resolve_deepening.
  - by vm_compute.
  - by vm_compute.
Qed.

(** C2. Every header of the returned trees, at whatever depth, has a
    level of the requested set, and a heading whose level is not in
    the set (or is not a number) leaves the stack, the result and the
    store as they are. *)
Theorem C2_levels (htmlEscape : jsstring → jsstring) (tokens : list Token)
    (opts : Options.t) :
  (∃ f, resolveHeadersFromTokens htmlEscape tokens opts = Some f
        ∧ Forall (λ h, level h ∈ Options.level opts) (outline_all f))
  ∧ (∀ idx st open lvl,
       tokens !! idx = Some open →
       parseInt (slice1 (Token.tag open)) = Some lvl →
       lvl ∉ Options.level opts →
       visit htmlEscape tokens opts idx st = st)
  ∧ (∀ idx st open,
       tokens !! idx = Some open →
       parseInt (slice1 (Token.tag open)) = None →
       visit htmlEscape tokens opts idx st = st).
Proof.
  split_and!.
  - destruct (resolve_outline htmlEscape tokens opts) as (f & Hf & Hout).
    exists f. split; [done|]. rewrite Hout. apply captured_levels.
  - intros idx st open lvl. apply visit_not_requested.
  - intros idx st open Hopen Hlvl. unfold visit. rewrite Hopen, Hlvl.
    by case_match.
Qed.

(** A level-5 heading when only levels 1 and 2 are requested. *)
Lemma C2_levels_witness :
  visit id (Example.heading "h5" "Five") (Example.options [1; 2]%Z) 0 initial
  = initial.
Proof.
  apply (proj1 (proj2 (C2_levels id (Example.heading "h5" "Five")
                         (Example.options [1; 2]%Z)))
           0 initial (Example.heading_open "h5" None) 5%Z).
  - reflexivity.
  - reflexivity.
  - intros Hin. apply (bool_decide_pack _) in Hin. vm_compute in Hin.
    exact Hin.
Defined.

(** Two slugs of the specification. *)
Example slugify_hello_world :
  slugify (U := latin1) (js "Hello, World!") = js "hello-world".
Proof. by vm_compute. Qed.

Example slugify_123_start :
  slugify (U := latin1) (js "123 Start") = js "_123-start".
Proof. by vm_compute. Qed.

(** C3 (as amended). For every input string, [slugify] performs these
    steps in order: normalize to the decomposed form; strip the
    combining marks U+0300..U+036F; strip the control characters
    U+0000..U+001F; replace every maximal run of white space or of the
    characters the source lists (those of the specification, the
    backtick and the curly double quotes U+201C and U+201D) with a
    single hyphen; collapse runs of two or more hyphens into one; trim
    leading and trailing hyphens; prefix an underscore if the result
    starts with a digit; lowercase the result. *)
Theorem C3_slugify_steps `{U : Unicode} (s : jsstring) :
  slugify s = slugify_steps special_in_source s
  ∧ ∀ c, c ∈ special_in_source ↔ c ∈ special_in_spec ∨ c ∈ js "`“”".
Proof. split; [apply slugify_steps_source|apply special_in_source_spec]. Qed.

(** C3 as stated fails: with the class as the specification lists it,
    a backtick or a curly double quote would stay, and [slugify] turns
    each into a hyphen. *)
Lemma C3_slugify_steps_counterexample :
  slugify (U := latin1) (js "a`b") = js "a-b"
  ∧ slugify_steps (U := latin1) special_in_spec (js "a`b") = js "a`b"
  ∧ slugify (U := latin1) (js "a“b") = js "a-b"
  ∧ slugify_steps (U := latin1) special_in_spec (js "a“b") = js "a“b"
  ∧ slugify (U := latin1) (js "a`b")
    ≠ slugify_steps (U := latin1) special_in_spec (js "a`b").
Proof. split_and!; by vm_compute. Qed.

(** C4 (as amended). [slugify] applied to the string "Café — Déjà Vu"
    returns "cafe-—-deja-vu": the em dash is neither white space nor
    one of the special characters, so it stays, with a hyphen for the
    space on either side.  All code units of the input lie in the
    part of the Unicode tables that [latin1] holds. *)
Theorem C4_slugify_cafe :
  slugify (U := latin1) (js "Café — Déjà Vu") = js "cafe-—-deja-vu"
  ∧ forallb Latin1.covered (js "Café — Déjà Vu") = true.
Proof. split; by vm_compute. Qed.

(** C4 as stated fails: the result is not "cafe-deja-vu". *)
Lemma C4_slugify_cafe_counterexample :
  slugify (U := latin1) (js "Café — Déjà Vu") = js "cafe-—-deja-vu"
  ∧ js "cafe-—-deja-vu" ≠ js "cafe-deja-vu".
Proof. split; by vm_compute. Qed.

(** C5. For every token, the title is made of the children whose type
    is text, emoji or inline code (and inline HTML when [allowHtml] is
    set) and which are not flagged as permalink symbols, in order;
    with [escapeText] the content of text and inline code is
    HTML-escaped, that of emoji and inline HTML never is; the
    concatenation is trimmed: the title is what is left of it between
    a longest run of white space at its start and one at its end, so
    the title neither starts nor ends with white space.  The escaping
    function, as the specification has it, lets no [<], [>] or double
    quote through and writes [&] as an entity.  For the children text
    "Intro ", inline code "<b>" and inline HTML "<i>x</i>", with both
    flags set, the title is "Intro &lt;b&gt;<i>x</i>". *)
Theorem C5_title (htmlEscape : jsstring → jsstring) (token : Token)
    (allowHtml escapeText : bool) :
  let whole :=
    concat (piece htmlEscape escapeText
              <$> List.filter (in_title allowHtml)
                    (default [] (Token.children token))) in
  let title := resolveTitleFromToken htmlEscape token allowHtml escapeText in
  title = trim whole
  ∧ (∃ before after,
       whole = before ++ title ++ after
       ∧ Forall (λ c, is_space c = true) before
       ∧ Forall (λ c, is_space c = true) after)
  ∧ (∀ c, head title = Some c → is_space c = false)
  ∧ (∀ c, last title = Some c → is_space c = false)
  ∧ (∀ item,
       in_title allowHtml item = true ↔
         (Token.type item = js "text" ∨ Token.type item = js "emoji"
          ∨ Token.type item = js "code_inline"
          ∨ (allowHtml = true ∧ Token.type item = js "html_inline"))
         ∧ from_option Token.isPermalinkSymbol false (Token.meta item) = false)
  ∧ (∀ item,
       Token.type item = js "text" ∨ Token.type item = js "code_inline" →
       piece htmlEscape true item = htmlEscape (Token.content item))
  ∧ (∀ item,
       Token.type item = js "emoji" ∨ Token.type item = js "html_inline" →
       piece htmlEscape escapeText item = Token.content item)
  ∧ (∀ item, piece htmlEscape false item = Token.content item)
  ∧ (∀ s, Forall (λ c, c ≠ 0x3C ∧ c ≠ 0x3E ∧ c ≠ 0x22)%Z (htmlEscape_model s))
  ∧ htmlEscape_model (js "&<>" ++ dquote) = js "&amp;&lt;&gt;&quot;"
  ∧ resolveTitleFromToken htmlEscape_model
      (Example.inline
         [Example.child "text" "Intro "; Example.child "code_inline" "<b>";
          Example.child "html_inline" "<i>x</i>"])
      true true
    = js "Intro &lt;b&gt;<i>x</i>"
  ∧ resolveTitleFromToken htmlEscape_model
      (Example.inline Example5.children) false true
    = js "Q&amp;A: say &quot;&lt;hi&gt;&quot;<3"
  ∧ resolveTitleFromToken htmlEscape_model
      (Example.inline Example5.children) true false
    = js "Q&A: say " ++ dquote ++ js "<hi>" ++ dquote ++ js "<i>x</i><3".
Proof.
  cbn zeta. rewrite resolveTitle_extractTitle. unfold extractTitle.
  split_and!.
  - done.
  - apply trim_split.
  - apply head_trim.
  - apply last_trim.
  - apply in_title_spec.
  - apply piece_escaped.
  - apply piece_raw.
  - done.
  - apply htmlEscape_model_clean.
  - by vm_compute.
  - by vm_compute.
  - by vm_compute.
  - by vm_compute.
Qed.

Lemma push_trace new st : trace (push new st) = trace st.
Proof. unfold push. by destruct (shift_while _ _ _). Qed.

(** C6. For every captured heading, the header of the result that it
    gives (the one at its position among the captured headings, in
    document order) has as its slug the identifier attribute of the
    opening token when it has one, whatever the title, and [slugify]
    of the extracted title otherwise, and as its title the formatted
    title; [format] is applied to the title that is stored only after
    the slug is there, so [slugify] is called, if at all, before
    [format], and both on the title as extracted. *)
Theorem C6_slug (htmlEscape : jsstring → jsstring) (tokens : list Token)
    (opts : Options.t) (idx : nat) (st : State) (open next : Token) (lvl : Z)
    (Hopen : tokens !! idx = Some open)
    (Htype : Token.type open = js "heading_open")
    (Hlevel : parseInt (slice1 (Token.tag open)) = Some lvl)
    (Hrequested : lvl ∈ Options.level opts)
    (Hnext : tokens !! S idx = Some next) :
  let title :=
    resolveTitleFromToken htmlEscape next (Options.allowHtml opts)
      (Options.escapeText opts) in
  let slug :=
    match Token.attrGet open (js "id") with
    | Some id => id
    | None => Options.slugify opts title
    end in
  let stored :=
    match Options.format opts with
    | Some format => format title
    | None => title
    end in
  (∃ f, resolveHeadersFromTokens htmlEscape tokens opts = Some f
        ∧ outline_all f !! captured_before htmlEscape tokens opts idx
          = Some (Header lvl stored slug []))
  ∧ visit htmlEscape tokens opts idx st
    = push (Obj.mk lvl stored slug [])
        (logs (calls htmlEscape opts open next) st)
  ∧ trace (visit htmlEscape tokens opts idx st)
    = trace st
      ++ (if Token.attrGet open (js "id") is Some _ then []
          else [CallSlugify title])
      ++ (if Options.format opts is Some _ then [CallFormat title] else []).
Proof.
  intros title slug stored.
  assert (header_of htmlEscape opts open next lvl = Header lvl stored slug [])
    as Hh.
  { unfold header_of, slug, stored, title.
    by destruct (Token.attrGet open (js "id")), (Options.format opts). }
  split; [|split].
  - rewrite <-Hh. by apply resolve_captured_at, capture_heading.
  - rewrite (visit_heading htmlEscape tokens opts idx st open next lvl) by done.
    by rewrite Hh.
  - rewrite (visit_heading htmlEscape tokens opts idx st open next lvl) by done.
    by rewrite push_trace.
Qed.

(** Of three headings with the same title, the first has no identifier
    and gets the slug of the title, the second has the identifier
    [custom] and gets that. *)
Lemma C6_slug_witness :
  ((∃ f, resolveHeadersFromTokens id Example6.tokens_three Example6.opts
         = Some f
         ∧ outline_all f !! 0
           = Some (Header 2 (js "§ Hello World") (js "hello-world") []))
   ∧ visit id Example6.tokens_three Example6.opts 0 initial
     = push (Obj.mk 2 (js "§ Hello World") (js "hello-world") [])
         (logs [CallSlugify (js "Hello World"); CallFormat (js "Hello World")]
            initial)
   ∧ trace (visit id Example6.tokens_three Example6.opts 0 initial)
     = [CallSlugify (js "Hello World"); CallFormat (js "Hello World")])
  ∧ ((∃ f, resolveHeadersFromTokens id Example6.tokens_three Example6.opts
           = Some f
           ∧ outline_all f !! 1
             = Some (Header 3 (js "§ Hello World") (js "custom") []))
     ∧ visit id Example6.tokens_three Example6.opts 3 initial
       = push (Obj.mk 3 (js "§ Hello World") (js "custom") [])
           (logs [CallFormat (js "Hello World")] initial)
     ∧ trace (visit id Example6.tokens_three Example6.opts 3 initial)
       = [CallFormat (js "Hello World")]).
Proof.
  split.
  - apply (C6_slug id Example6.tokens_three Example6.opts 0 initial
             (Example.heading_open "h2" None)
             (Example.inline [Example.child "text" "Hello World"]) 2%Z).
    + reflexivity.
    + reflexivity.
    + reflexivity.
    + apply (bool_decide_unpack _). vm_compute. exact I.
    + reflexivity.
  - apply (C6_slug id Example6.tokens_three Example6.opts 3 initial
             (Example.heading_open "h3" (Some (js "custom")))
             (Example.inline [Example.child "text" "Hello World"]) 3%Z).
    + reflexivity.
    + reflexivity.
    + reflexivity.
    + apply (bool_decide_unpack _). vm_compute. exact I.
    + reflexivity.
Defined.

(** An explicit identifier is the slug, whatever the title. *)
Example slug_custom_id htmlEscape :
  resolveHeadersFromTokens htmlEscape Example6.tokens_id Example6.opts
  = Some [Header 2 (js "§ Hello World") (js "custom") []].
Proof. by vm_compute. Qed.

(** C7. A heading-opening token with no token after it is skipped: it
    leaves the state as it is; in particular the last token of a
    sequence never changes it.  No step of the loop fails: every
    reference the stack or the result holds is to an allocated object,
    so [stack[0].level] and [stack[0].children] are always there, and
    [resolveHeadersFromTokens] returns trees for every token
    sequence. *)
Theorem C7_no_next_token (htmlEscape : jsstring → jsstring)
    (tokens : list Token) (opts : Options.t) :
  (∀ idx st,
     tokens !! S idx = None → visit htmlEscape tokens opts idx st = st)
  ∧ (∀ st, visit htmlEscape tokens opts (pred (length tokens)) st = st)
  ∧ (∀ n,
       Forall (λ a, is_Some (store (run_to htmlEscape tokens opts n) !! a))
         (stack (run_to htmlEscape tokens opts n)
          ++ headers (run_to htmlEscape tokens opts n)))
  ∧ is_Some (resolveHeadersFromTokens htmlEscape tokens opts)
  ∧ resolveHeadersFromTokens htmlEscape
      (Example.heading "h1" "One" ++ [Example.heading_open "h2" None])
      (Example.options [1; 2]%Z)
    = Some [Example.leaf 1 "One" "one"].
Proof.
  split_and!.
  - intros idx st. apply visit_no_next.
  - intros st. apply visit_no_next. apply lookup_ge_None_2. lia.
  - intros n. apply references_allocated, (run_to_spec htmlEscape tokens opts n).
  - destruct (resolve_outline htmlEscape tokens opts) as (f & -> & _).
    by eexists.
  - by vm_compute.
Qed.

(** C8 (as amended). For every source string and every mapping that
    is absent or has at least one key and no empty key, the guard
    breaks every [import.meta] that starts at a word boundary by
    putting the marker after its dot, then every such [process.env]
    likewise, then, scanning the resulting text from the left, every
    match that starts at a word boundary of the first key in key order
    that occurs there, putting the marker after the first code unit of
    the match; the keys are escaped and joined into one pattern that
    matches them literally; the result is the source text with markers
    put in and nothing else changed. *)
Theorem C8_guard (source : jsstring) (define : option (list jsstring))
    (Husable : usable define = true) :
  preventViteConstantsReplacement source define = Some (guarded source define)
  ∧ inserted marker source (guarded source define)
  ∧ (∀ keys, RegExp (defineSource keys) = Some (words_regex (alternatives keys)))
  ∧ (∀ keys prev s,
       keys ≠ [] →
       match_at (words_regex keys) prev s = find_word keys prev s).
Proof.
  split_and!.
  - by apply prevent_guarded.
  - apply guarded_inserted.
  - apply RegExp_defineSource.
  - intros keys prev s. apply match_at_words.
Qed.

(** The example of the specification: the marker goes after the dot of
    [import.meta] and after the first letter of the key. *)
Lemma C8_guard_witness :
  preventViteConstantsReplacement (js "import.meta.env.FOO") (Some [js "FOO"])
  = Some (js "import.<wbr/>meta.env.F<wbr/>OO").
Proof.
  apply (proj1 (C8_guard (js "import.meta.env.FOO") (Some [js "FOO"])
                  eq_refl)).
Defined.

(** C8 as stated fails: the marker of [import.meta] and [process.env]
    goes after the dot, not after the first character; an occurrence
    that does not start at a word boundary is left alone; and a key is
    matched at the start of a longer word. *)
Lemma C8_guard_counterexample :
  preventViteConstantsReplacement (js "import.meta") None
  = Some (js "import.<wbr/>meta")
  ∧ js "import.<wbr/>meta" ≠ js "i<wbr/>mport.meta"
  ∧ preventViteConstantsReplacement (js "process.env") None
    = Some (js "process.<wbr/>env")
  ∧ preventViteConstantsReplacement (js "ximport.meta") None
    = Some (js "ximport.meta")
  ∧ preventViteConstantsReplacement (js "FOOBAR") (Some [js "FOO"])
    = Some (js "F<wbr/>OOBAR").
Proof. split_and!; by vm_compute. Qed.

(** C9. There is an input on which the guard does not return the
    source with only markers put in: when the mapping is present but
    has no key, the pattern is [\b()], which matches the empty string
    at every word boundary, and the replacement puts the text
    "undefined<wbr/>" at every word boundary of the text it runs on
    (the source after the two fixed replacements); for the source "a"
    the result is "undefined<wbr/>aundefined<wbr/>". *)
Theorem C9_empty_mapping :
  RegExp (defineSource []) = RegExp (js "\b()")
  ∧ RegExp (js "\b()") = Some (words_regex [[]])
  ∧ (∀ prev s,
       match_at (words_regex [[]]) prev s
       = if boundary prev s then Some 0 else None)
  ∧ (∀ source,
       preventViteConstantsReplacement source (Some [])
       = Some (at_boundaries (js "undefined<wbr/>") None (guarded source None)))
  ∧ preventViteConstantsReplacement (js "a") (Some [])
    = Some (js "undefined<wbr/>aundefined<wbr/>")
  ∧ ¬ inserted marker (js "a") (js "undefined<wbr/>aundefined<wbr/>").
Proof.
  split_and!.
  - done.
  - by vm_compute.
  - intros prev s. rewrite match_at_words by done. apply find_word_empty.
  - apply prevent_empty.
  - by vm_compute.
  - intros Hins. apply (inserted_count marker 0x75%Z) in Hins; [|done].
    vm_compute in Hins. discriminate.
Qed.

(** C10. For every captured heading whose opening token has an
    identifier attribute with the empty string as its value, the header
    of the result that it gives has the empty string as its slug,
    whatever [slugify] is, and [slugify] is not called: no call of it
    is recorded, and the step is the same whatever [slugify] is. *)
Theorem C10_empty_id (htmlEscape : jsstring → jsstring) (tokens : list Token)
    (opts : Options.t) (idx : nat) (st : State) (open next : Token) (lvl : Z)
    (Hopen : tokens !! idx = Some open)
    (Htype : Token.type open = js "heading_open")
    (Hlevel : parseInt (slice1 (Token.tag open)) = Some lvl)
    (Hrequested : lvl ∈ Options.level opts)
    (Hnext : tokens !! S idx = Some next)
    (Hid : Token.attrGet open (js "id") = Some []) :
  let title :=
    resolveTitleFromToken htmlEscape next (Options.allowHtml opts)
      (Options.escapeText opts) in
  let stored :=
    match Options.format opts with
    | Some format => format title
    | None => title
    end in
  let calls :=
    if Options.format opts is Some _ then [CallFormat title] else [] in
  let position := captured_before htmlEscape tokens opts idx in
  (∀ slugify',
     ∃ f, resolveHeadersFromTokens htmlEscape tokens
            (Options.mk (Options.level opts) (Options.allowHtml opts)
               (Options.escapeText opts) slugify' (Options.format opts))
          = Some f
          ∧ outline_all f !! position = Some (Header lvl stored [] []))
  ∧ (∃ f, resolveHeadersFromTokens htmlEscape tokens opts = Some f
          ∧ outline_all f !! position = Some (Header lvl stored [] []))
  ∧ visit htmlEscape tokens opts idx st
    = push (Obj.mk lvl stored [] []) (logs calls st)
  ∧ trace (visit htmlEscape tokens opts idx st) = trace st ++ calls
  ∧ ∀ slugify',
      visit htmlEscape tokens
        (Options.mk (Options.level opts) (Options.allowHtml opts)
           (Options.escapeText opts) slugify' (Options.format opts))
        idx st
      = visit htmlEscape tokens opts idx st.
Proof.
  intros extracted stored calls' position.
  assert (∀ o,
    Options.level o = Options.level opts →
    Options.allowHtml o = Options.allowHtml opts →
    Options.escapeText o = Options.escapeText opts →
    Options.format o = Options.format opts →
    header_of htmlEscape o open next lvl = Header lvl stored [] []
    ∧ calls htmlEscape o open next = calls') as Hsame.
  { intros o Hl Ha He Hf. unfold header_of, calls. rewrite Hid, Ha, He, Hf.
    split; [|done]. unfold stored, extracted. by destruct (Options.format opts). }
  assert (∀ o,
    Options.level o = Options.level opts →
    Options.allowHtml o = Options.allowHtml opts →
    Options.escapeText o = Options.escapeText opts →
    Options.format o = Options.format opts →
    visit htmlEscape tokens o idx st
    = push (Obj.mk lvl stored [] []) (logs calls' st)) as Hany.
  { intros o Hl Ha He Hf. destruct (Hsame o Hl Ha He Hf) as [Hh Hc].
    rewrite (visit_heading htmlEscape tokens o idx st open next lvl);
      [|done..|by rewrite Hl|done].
    by rewrite Hh, Hc. }
  assert (∀ o,
    Options.level o = Options.level opts →
    Options.allowHtml o = Options.allowHtml opts →
    Options.escapeText o = Options.escapeText opts →
    Options.format o = Options.format opts →
    ∃ f, resolveHeadersFromTokens htmlEscape tokens o = Some f
         ∧ outline_all f !! position = Some (Header lvl stored [] [])) as Hres.
  { intros o Hl Ha He Hf. destruct (Hsame o Hl Ha He Hf) as [Hh _].
    unfold position. rewrite <-(captured_before_levels htmlEscape tokens opts o) by done.
    rewrite <-Hh. apply resolve_captured_at, capture_heading; try done.
    by rewrite Hl. }
  split_and!.
  - intros slugify'. by apply Hres.
  - by apply Hres.
  - by apply Hany.
  - rewrite Hany by done. by rewrite push_trace.
  - intros slugify'. by rewrite !Hany.
Qed.

(** The third of the three headings has the empty identifier. *)
Lemma C10_empty_id_witness :
  (∀ slugify',
     ∃ f, resolveHeadersFromTokens id Example6.tokens_three
            (Options.mk [2; 3]%Z false false slugify' (Some (λ t, js "§ " ++ t)))
          = Some f
          ∧ outline_all f !! 2 = Some (Header 2 (js "§ Hello World") [] []))
  ∧ (∃ f, resolveHeadersFromTokens id Example6.tokens_three Example6.opts
          = Some f
          ∧ outline_all f !! 2 = Some (Header 2 (js "§ Hello World") [] []))
  ∧ visit id Example6.tokens_three Example6.opts 6 initial
    = push (Obj.mk 2 (js "§ Hello World") [] [])
        (logs [CallFormat (js "Hello World")] initial)
  ∧ trace (visit id Example6.tokens_three Example6.opts 6 initial)
    = [CallFormat (js "Hello World")]
  ∧ ∀ slugify',
      visit id Example6.tokens_three
        (Options.mk [2; 3]%Z false false slugify' (Some (λ t, js "§ " ++ t)))
        6 initial
      = visit id Example6.tokens_three Example6.opts 6 initial.
Proof.
  apply (C10_empty_id id Example6.tokens_three Example6.opts 6 initial
           (Example.heading_open "h2" (Some []))
           (Example.inline [Example.child "text" "Hello World"]) 2%Z).
  - reflexivity.
  - reflexivity.
  - reflexivity.
  - apply (bool_decide_unpack _). vm_compute. exact I.
  - reflexivity.
  - reflexivity.
Defined.

Example empty_id_result htmlEscape :
  resolveHeadersFromTokens htmlEscape Example6.tokens_empty_id Example6.opts
  = Some [Header 2 (js "§ Hello World") [] []].
Proof. by vm_compute. Qed.

(* ===================================================================== *)
(** * 15. Further properties of the header tree                           *)
(* ===================================================================== *)

(** ** The forest as a value *)

Lemma last_levels_eq t : last_levels t = level t :: forest_levels (children t).
Proof.
  destruct t as [l t s cs]. cbn [last_levels level children]. f_equal.
  unfold forest_levels. induction cs as [|c cs IH]; [done|].
  destruct cs as [|c' cs]; [done|]. by rewrite IH.
Qed.

Lemma forest_levels_snoc f t :
  forest_levels (f ++ [t]) = level t :: forest_levels (children t).
Proof. unfold forest_levels at 1. by rewrite last_snoc, <-last_levels_eq. Qed.

Lemma forest_levels_graft d h f :
  children h = [] → d ≤ length (forest_levels f) →
  forest_levels (graft d h f) = take d (forest_levels f) ++ [level h].
Proof.
  intros Hh. revert f. induction d as [|d IH]; intros f Hd.
  - cbn [graft take app]. by rewrite forest_levels_snoc, Hh.
  - destruct f as [|t f _] using rev_ind.
    { simpl in Hd. lia. }
    rewrite graft_snoc, !forest_levels_snoc. cbn [level children take app].
    rewrite forest_levels_snoc in Hd. cbn [length] in Hd.
    by rewrite IH by lia.
Qed.

(** What the loop leaves is the end of the list, what it passed is at
    least as deep, and it stopped at a shallower level. *)
Lemma shift_levels_suffix lvl l :
  ∃ popped, l = popped ++ shift_levels lvl l ∧ Forall (λ x, (lvl ≤ x)%Z) popped
    ∧ ∀ x, head (shift_levels lvl l) = Some x → (x < lvl)%Z.
Proof.
  induction l as [|x l (popped & IH1 & IH2 & IH3)]; cbn [shift_levels].
  { exists []. split_and!; [done|constructor|done]. }
  destruct (Z.leb_spec lvl x).
  - exists (x :: popped). split_and!; [by rewrite IH1 at 1|by constructor|done].
  - exists []. split_and!; [done|constructor|]. by intros ? [= <-].
Qed.

Lemma shift_levels_take lvl L :
  let d := length (shift_levels lvl (reverse L)) in
  shift_levels lvl (reverse L) = reverse (take d L)
  ∧ Forall (λ x, (lvl ≤ x)%Z) (drop d L)
  ∧ (∀ x, last (take d L) = Some x → (x < lvl)%Z).
Proof.
  cbn zeta.
  destruct (shift_levels_suffix lvl (reverse L)) as (popped & Hsplit & Hpop & Htop).
  set (R := shift_levels lvl (reverse L)) in *.
  assert (L = reverse R ++ reverse popped) as HL.
  { by rewrite <-reverse_app, <-Hsplit, reverse_involutive. }
  assert (take (length R) L = reverse R) as Htake.
  { rewrite HL at 1. rewrite take_app_length'; [done|by rewrite length_reverse]. }
  split_and!.
  - by rewrite Htake, reverse_involutive.
  - rewrite HL at 1. rewrite drop_app_length' by (by rewrite length_reverse).
    by apply Forall_reverse.
  - intros x. rewrite Htake, last_reverse. apply Htop.
Qed.

(** The loop of [push] on the stack and on its levels go together. *)
Lemma shift_while_levels store lvl stk levels :
  Forall2 (λ a l, level_at store a = Some l) stk levels →
  Forall2 (λ a l, level_at store a = Some l)
    (shift_while store lvl stk) (shift_levels lvl levels).
Proof.
  induction 1 as [|a l stk levels Ha Hrest IH]; [constructor|].
  cbn [shift_while shift_levels]. rewrite Ha.
  destruct (lvl <=? l)%Z; [done|by constructor].
Qed.

Lemma nest_snoc hs h : nest (hs ++ [h]) = place h (nest hs).
Proof. unfold nest. by rewrite foldl_app. Qed.

Lemma leaf_eta h : children h = [] → Header (level h) (title h) (slug h) [] = h.
Proof. destruct h as [l t s cs]. simpl. by intros ->. Qed.

Section nest.
Context (htmlEscape : jsstring → jsstring).

(** The trees in the store are the forest of the headings captured so
    far, and the stack holds the levels down its last children. *)
Lemma run_to_nest tokens opts n :
  let st := run_to htmlEscape tokens opts n in
  let f := nest (omap (capture htmlEscape tokens opts) (seq 0 n)) in
  mapM (reify (length (store st)) (store st)) (headers st) = Some f
  ∧ Forall2 (λ a l, level_at (store st) a = Some l)
      (stack st) (reverse (forest_levels f)).
Proof.
  induction n as [|n (Hf & Hlv)]; cbn zeta.
  { split; [done|constructor]. }
  destruct (run_to_spec htmlEscape tokens opts n) as (Hwf & _).
  rewrite run_to_S, seq_S, omap_app. cbn [omap list_omap plus].
  pose proof (visit_capture htmlEscape tokens opts n
                (run_to htmlEscape tokens opts n)) as Hv.
  destruct (capture htmlEscape tokens opts n) as [h|]; cycle 1.
  { by rewrite Hv, app_nil_r. }
  destruct Hv as (es & -> & Hleaf).
  rewrite nest_snoc.
  set (st := run_to htmlEscape tokens opts n) in *.
  set (f := nest _) in *.
  pose proof (shift_while_levels (store st) (level h) _ _ Hlv) as Hstk.
  pose proof (Forall2_length _ _ _ Hstk) as Hlen.
  destruct (shift_levels_take (level h) (forest_levels f)) as (Hrev & _ & _).
  assert (length (shift_levels (level h) (reverse (forest_levels f)))
          ≤ length (forest_levels f)) as Hle.
  { rewrite Hrev, length_reverse, length_take. lia. }
  split.
  - rewrite (push_forest (obj_of h) (logs es st) f); [|done|by apply wf_logs|done].
    cbn [obj_of Obj.level Obj.title Obj.slug logs store stack].
    rewrite leaf_eta by done. unfold place. by rewrite Hlen.
  - rewrite push_unfold. cbn [store stack logs obj_of Obj.level].
    unfold place. rewrite forest_levels_graft by done.
    rewrite reverse_app, <-Hrev. cbn [reverse app].
    set (stk := shift_while _ _ _) in *.
    assert (Forall (λ a, a < length (store st)) stk) as Halloc.
    { apply Forall_forall. intros a Ha.
      apply list_elem_of_lookup in Ha as [i Hi].
      destruct (Forall2_lookup_l _ _ _ _ _ Hstk Hi) as (l & _ & Hl).
      unfold level_at in Hl. destruct (store st !! a) eqn:E; [|done].
      by eapply lookup_lt_Some. }
    constructor.
    + unfold level_at. by rewrite linked_lookup_new.
    + generalize (default (length (store st)) (head stk)). intros top.
      destruct Hwf as [Hk _ _ _ _].
      clear -Hstk Halloc Hk.
      induction Hstk as [|a l stk' ls Ha _ IH]; [constructor|].
      apply Forall_cons in Halloc as [Ha' Halloc].
      constructor; [|by apply IH]. by rewrite linked_level_at.
Qed.

Lemma resolve_nest tokens opts :
  resolveHeadersFromTokens htmlEscape tokens opts
  = Some (nest (captured htmlEscape tokens opts)).
Proof. apply (run_to_nest tokens opts (length tokens)). Qed.

Lemma captured_leaves tokens opts :
  Forall (λ h, children h = []) (captured htmlEscape tokens opts).
Proof.
  apply Forall_forall. intros h Hh. unfold captured in Hh.
  apply list_elem_of_omap in Hh as (idx & _ & Hc).
  by apply capture_Some in Hc as (? & ? & ? & _ & _ & _ & _ & _ & ->).
Qed.
End nest.

(** ** The top level *)

Lemma tops_snoc before hs h :
  tops before (hs ++ [h])
  = tops before hs
    ++ (if forallb (λ b, (level h <=? level b)%Z) (before ++ hs) then [h] else []).
Proof.
  revert before. induction hs as [|x hs IH]; intros before; cbn [tops app].
  - by rewrite !app_nil_r.
  - by rewrite IH, <-!app_assoc.
Qed.

Lemma entry_graft_S d h f :
  f ≠ [] → entry <$> graft (S d) h f = entry <$> f.
Proof.
  intros Hf. destruct f as [|t f _] using rev_ind; [done|].
  by rewrite graft_snoc, !fmap_app.
Qed.

Lemma StronglySorted_snoc {A} (R : A → A → Prop) l x :
  StronglySorted R l → Forall (λ y, R y x) l → StronglySorted R (l ++ [x]).
Proof.
  induction 1 as [|y l Hl IH Hy]; intros Hx; simpl.
  - repeat constructor.
  - apply Forall_cons in Hx as [Hyx Hx]. constructor; [by apply IH|].
    apply Forall_app. split; [done|by constructor].
Qed.

Lemma StronglySorted_take {A} (R : A → A → Prop) n l :
  StronglySorted R l → StronglySorted R (take n l).
Proof.
  intros H. revert n.
  induction H as [|y l Hl IH Hy]; intros [|n]; simpl; try constructor.
  - apply IH.
  - apply Forall_forall. intros z Hz. eapply Forall_forall in Hy; [done|].
    by apply (subseteq_take n l).
Qed.

(** In a sorted list the last entry is related to all before it. *)
Lemma StronglySorted_last {A} (R : A → A → Prop) l x :
  StronglySorted R (l ++ [x]) → Forall (λ y, R y x) l.
Proof.
  intros Hs. apply Forall_forall. intros y Hy.
  apply list_elem_of_split in Hy as (l1 & l2 & ->).
  rewrite <-!app_assoc in Hs. apply StronglySorted_suffix in Hs.
  inversion Hs as [|? ? _ Hall]; subst.
  rewrite Forall_app, Forall_singleton in Hall. tauto.
Qed.

(** The top level of the forest, the levels down its last children,
    and the level of its last top-level entry: the least so far. *)
Lemma nest_tops hs :
  Forall (λ h, children h = []) hs →
  let f := nest hs in
  entry <$> f = tops [] hs
  ∧ StronglySorted Z.lt (forest_levels f)
  ∧ match head (forest_levels f) with
    | Some l => Forall (λ h, (l ≤ level h)%Z) hs ∧ l ∈ level <$> hs
    | None => hs = []
    end.
Proof.
  induction hs as [|h hs IH] using rev_ind; intros Hleaf; cbn zeta.
  { split_and!; [done|constructor|done]. }
  apply Forall_app in Hleaf as [Hleaf Hh]. apply Forall_cons in Hh as [Hh _].
  destruct (IH Hleaf) as (Hroots & Hsorted & Hmin). clear IH.
  assert (entry h = h) as He by (by apply leaf_eta).
  rewrite nest_snoc, tops_snoc. cbn [app]. unfold place.
  set (f := nest hs) in *. set (L := forest_levels f) in *.
  destruct (shift_levels_take (level h) L) as (HR & Hdrop & Hlast).
  set (d := length (shift_levels (level h) (reverse L))) in *.
  assert (d ≤ length L) as Hd.
  { unfold d. rewrite HR, length_reverse, length_take. lia. }
  rewrite forest_levels_graft by done. fold L.
  destruct d as [|d'] eqn:Ed.
  - (* a new top-level entry *)
    rewrite drop_0 in Hdrop. cbn [take app graft head].
    assert (Forall (λ b, (level h ≤ level b)%Z) hs) as Hall.
    { destruct L as [|l0 L'] eqn:EL; cbn [head] in Hmin; [subst hs; constructor|].
      destruct Hmin as [Hmin _]. apply Forall_cons in Hdrop as [Hl0 _].
      eapply Forall_impl; [done|]. simpl. lia. }
    assert (forallb (λ b, (level h <=? level b)%Z) hs = true) as ->.
    { apply forallb_forall. intros b Hb%list_elem_of_In.
      eapply Forall_forall in Hall; [|done]. by apply Z.leb_le. }
    split; [|split; [|split]].
    + rewrite fmap_app, Hroots. cbn [fmap list_fmap]. by rewrite He.
    + repeat constructor.
    + apply Forall_app. split; [done|]. by apply Forall_singleton.
    + rewrite fmap_app. apply elem_of_app. right. by left.
  - (* below an entry that stays *)
    destruct L as [|l0 L'] eqn:EL; [simpl in Hd; lia|].
    cbn [head] in Hmin. destruct Hmin as [Hmin Hin].
    assert (f ≠ []) as Hf.
    { intros Hnil. unfold L, forest_levels in EL. by rewrite Hnil in EL. }
    cbn [take app head].
    assert (Forall (λ x, (x < level h)%Z) (take (S d') (l0 :: L'))) as Hbelow.
    { destruct (last (take (S d') (l0 :: L'))) as [x|] eqn:Hx;
        [|by apply last_None in Hx].
      specialize (Hlast x eq_refl).
      apply last_Some in Hx as [init Hinit].
      pose proof (StronglySorted_take Z.lt (S d') _ Hsorted) as Hs.
      rewrite Hinit in Hs |- *.
      apply Forall_app. split; [|by apply Forall_singleton].
      eapply Forall_impl; [by apply (StronglySorted_last Z.lt)|]. simpl. lia. }
    assert ((l0 < level h)%Z) as Hl0 by (by apply Forall_cons in Hbelow as [? _]).
    assert (forallb (λ b, (level h <=? level b)%Z) hs = false) as ->.
    { apply not_true_iff_false. rewrite forallb_forall. intros Hall.
      apply list_elem_of_fmap in Hin as (b & -> & Hb).
      apply list_elem_of_In, Hall, Z.leb_le in Hb. lia. }
    split; [|split; [|split]].
    + by rewrite app_nil_r, entry_graft_S.
    + change (l0 :: take d' L' ++ [level h])
        with (take (S d') (l0 :: L') ++ [level h]).
      apply StronglySorted_snoc; [by apply StronglySorted_take|done].
    + apply Forall_app. split; [done|]. apply Forall_singleton. lia.
    + rewrite fmap_app. apply elem_of_app. by left.
Qed.

(** ** Siblings *)

Lemma falling_snoc f h :
  falling f → (∀ t, last f = Some t → (level h ≤ level t)%Z) → falling (f ++ [h]).
Proof.
  intros Hf Hlast. apply StronglySorted_snoc; [done|].
  destruct f as [|t f _] using rev_ind; [constructor|].
  specialize (Hlast t (last_snoc _ _)).
  apply Forall_app. split; [|by apply Forall_singleton].
  eapply Forall_impl;
    [by apply (StronglySorted_last (λ a b, (level b ≤ level a)%Z))|].
  simpl. lia.
Qed.

Lemma falling_change f t t' :
  level t' = level t → falling (f ++ [t]) → falling (f ++ [t']).
Proof.
  intros Hl Hf. apply StronglySorted_snoc.
  - clear -Hf. induction f as [|x f IH]; [constructor|].
    inversion Hf as [|? ? Hs Hall]; subst.
    apply Forall_app in Hall as [Hall _]. constructor; [by apply IH|done].
  - rewrite Hl. by apply (StronglySorted_last (λ a b, (level b ≤ level a)%Z)).
Qed.

(** Hanging a header below the first [d] headers of the path keeps the
    siblings falling if the next header of the path is at least as
    deep as the new one. *)
Lemma graft_tidy d h f :
  children h = [] → falling f → Forall tidy f →
  (∀ l, forest_levels f !! d = Some l → (level h ≤ l)%Z) →
  falling (graft d h f) ∧ Forall tidy (graft d h f).
Proof.
  intros Hh. assert (tidy h) as Hth.
  { destruct h as [l t s cs]. simpl in Hh. subst. by repeat constructor. }
  revert f. induction d as [|d IH]; intros f Hf Ht Hd.
  - cbn [graft]. split; [|apply Forall_app; split; [done|by apply Forall_singleton]].
    apply falling_snoc; [done|]. intros t Hlast. apply Hd.
    unfold forest_levels. rewrite Hlast. cbn [from_option].
    by rewrite last_levels_eq.
  - destruct f as [|t f _] using rev_ind.
    { cbn. split; [repeat constructor|by apply Forall_singleton]. }
    rewrite graft_snoc.
    apply Forall_app in Ht as [Ht Htt]. apply Forall_cons in Htt as [Htt _].
    destruct t as [l ti s cs]. inversion Htt as [? ? ? ? Hfc Htc]; subst.
    cbn [level title slug children].
    destruct (IH cs Hfc Htc) as [IH1 IH2].
    { intros l' Hl'. apply Hd. by rewrite forest_levels_snoc. }
    split.
    + by apply (falling_change f (Header l ti s cs)).
    + apply Forall_app. split; [done|]. apply Forall_singleton. by constructor.
Qed.

Lemma nest_tidy hs :
  Forall (λ h, children h = []) hs → falling (nest hs) ∧ Forall tidy (nest hs).
Proof.
  induction hs as [|h hs IH] using rev_ind; intros Hleaf.
  { split; constructor. }
  apply Forall_app in Hleaf as [Hleaf Hh]. apply Forall_cons in Hh as [Hh _].
  destruct (IH Hleaf) as [Hf Ht]. rewrite nest_snoc. unfold place.
  apply graft_tidy; [done..|].
  destruct (shift_levels_take (level h) (forest_levels (nest hs)))
    as (_ & Hdrop & _).
  intros l Hl. eapply Forall_forall in Hdrop; [done|].
  apply list_elem_of_lookup. exists 0. by rewrite lookup_drop, Nat.add_0_r.
Qed.

(** ** Titles, counts and calls *)

Lemma header_forall_ind (P : MarkdownHeader → Prop) :
  (∀ l t s cs, Forall P cs → P (Header l t s cs)) → ∀ h, P h.
Proof.
  intros H. fix IH 1. intros [l t s cs]. apply H.
  induction cs as [|c cs IHcs]; constructor; [apply IH|apply IHcs].
Qed.

Lemma last_levels_retitle g t : last_levels (retitle g t) = last_levels t.
Proof.
  induction t as [l t s cs IH] using header_forall_ind.
  rewrite !last_levels_eq. cbn [retitle level children]. f_equal.
  unfold forest_levels. rewrite fmap_last.
  destruct (last cs) as [c|] eqn:Hc; [|done].
  cbn [fmap option_fmap option_map from_option].
  eapply Forall_forall in IH; [done|]. by eapply last_Some_elem_of.
Qed.

Lemma forest_levels_retitle g f :
  forest_levels (retitle g <$> f) = forest_levels f.
Proof.
  unfold forest_levels. rewrite fmap_last. destruct (last f); [|done].
  apply last_levels_retitle.
Qed.

Lemma graft_retitle g d h f :
  graft d (retitle g h) (retitle g <$> f) = retitle g <$> graft d h f.
Proof.
  revert f. induction d as [|d IH]; intros f.
  - cbn [graft]. by rewrite fmap_app.
  - destruct f as [|[l t s cs] f _] using rev_ind; [done|].
    rewrite fmap_app. cbn [fmap list_fmap]. rewrite !graft_snoc, fmap_app.
    cbn [fmap list_fmap retitle level title slug children]. by rewrite IH.
Qed.

Lemma nest_retitle g hs : nest (retitle g <$> hs) = retitle g <$> nest hs.
Proof.
  induction hs as [|h hs IH] using rev_ind; [done|].
  rewrite fmap_app. cbn [fmap list_fmap]. rewrite !nest_snoc, IH. unfold place.
  rewrite forest_levels_retitle, <-graft_retitle. by destruct h.
Qed.

Lemma omap_fmap_ext {A B} (c c' : A → option B) (g : B → B) (l : list A) :
  (∀ i, c' i = g <$> c i) → omap c' l = g <$> omap c l.
Proof.
  intros H. induction l as [|i l IH]; [done|]. cbn [omap list_omap].
  rewrite H. destruct (c i); cbn; by rewrite IH.
Qed.

Lemma length_omap_le {A B} (c : A → option B) (l : list A) :
  length (omap c l) ≤ length l.
Proof.
  induction l as [|i l IH]; [done|]. cbn [omap list_omap].
  destruct (c i); simpl; lia.
Qed.

Lemma insert_header_trace H st : trace (insert_header H st) = trace st.
Proof. unfold insert_header. by destruct (List.filter _ _). Qed.

Section counts.
Context (htmlEscape : jsstring → jsstring).

Lemma capture_format tokens lv ah et sl g idx :
  capture htmlEscape tokens (Options.mk lv ah et sl (Some g)) idx
  = retitle g <$> capture htmlEscape tokens (Options.mk lv ah et sl None) idx.
Proof.
  unfold capture. destruct (tokens !! idx) as [open|]; [|done].
  cbn [mbind option_bind]. case_guard; [|done]. cbn [mbind option_bind].
  destruct (parseInt _) as [lvl|]; [|done]. cbn [mbind option_bind Options.level].
  case_guard; [|done]. cbn [mbind option_bind].
  by destruct (tokens !! S idx).
Qed.

Lemma capture_opens tokens opts idx h :
  capture htmlEscape tokens opts idx = Some h →
  ∃ t, tokens !! idx = Some t ∧ str_eqb (Token.type t) (js "heading_open") = true
       ∧ S idx < length tokens.
Proof.
  intros (open & next & lvl & Ho & Hty & _ & _ & Hn & _)%capture_Some.
  exists open. split_and!; [done|by apply str_eqb_true|by eapply lookup_lt_Some].
Qed.

Lemma captured_count tokens opts n :
  n ≤ length tokens →
  length (omap (capture htmlEscape tokens opts) (seq 0 n))
  ≤ length (heading_opens (take n tokens)).
Proof.
  induction n as [|n IH]; intros Hn; [done|].
  destruct (lookup_lt_is_Some_2 tokens n) as [t Ht]; [lia|].
  rewrite seq_S, omap_app, length_app, (take_S_r _ _ t) by done.
  unfold heading_opens in *. rewrite List.filter_app, length_app.
  cbn [omap list_omap plus List.filter]. specialize (IH ltac:(lia)).
  destruct (capture htmlEscape tokens opts n) as [h|] eqn:Hc.
  - apply capture_opens in Hc as (t' & Ht' & Hty & _).
    rewrite Ht in Ht'. injection Ht' as <-. rewrite Hty. simpl. lia.
  - simpl. lia.
Qed.

Lemma captured_length tokens opts :
  length (captured htmlEscape tokens opts) ≤ length (heading_opens tokens)
  ∧ length (captured htmlEscape tokens opts) ≤ pred (length tokens).
Proof.
  unfold captured. split.
  - etrans; [by apply captured_count|]. by rewrite firstn_all.
  - destruct tokens as [|t0 ts] eqn:E; [done|]. rewrite <-E.
    replace (length tokens) with (S (pred (length tokens))) at 1
      by (subst; simpl; lia).
    rewrite seq_S, omap_app, length_app. cbn [plus omap list_omap].
    destruct (capture htmlEscape tokens opts (pred (length tokens)))
      as [h|] eqn:Hc.
    { apply capture_opens in Hc as (_ & _ & _ & Hlt). subst. simpl in Hlt. lia. }
    pose proof (length_omap_le (capture htmlEscape tokens opts)
                  (seq 0 (pred (length tokens)))).
    rewrite length_seq in *. simpl. lia.
Qed.

Lemma captured_no_level tokens opts :
  Options.level opts = [] → captured htmlEscape tokens opts = [].
Proof.
  intros Hnil. pose proof (captured_levels htmlEscape tokens opts) as H.
  rewrite Hnil in H. destruct (captured htmlEscape tokens opts) as [|h hs]; [done|].
  apply Forall_cons in H as [H _]. by apply elem_of_nil in H.
Qed.

Lemma run_to_trace tokens opts n :
  trace (run_to htmlEscape tokens opts n)
  = seq 0 n ≫= λ idx,
      if capture htmlEscape tokens opts idx is Some _
      then calls_at htmlEscape tokens opts idx else [].
Proof.
  induction n as [|n IH]; [done|].
  rewrite seq_S, bind_app, run_to_step. cbn [plus mbind list_bind].
  destruct (capture htmlEscape tokens opts n).
  - by rewrite insert_header_trace, app_nil_r, <-IH.
  - by rewrite !app_nil_r.
Qed.
End counts.

(** X1. The forest [resolveHeadersFromTokens] returns is the forest a
    store-free insertion builds from the captured headings, taken in
    document order: each heading runs up the path of last children of
    the forest built so far, past every header at least as deep as
    itself, and becomes the last child of the header it stops at, or
    the last top-level entry if it stops at none. *)
Theorem X1_pure_insertion (htmlEscape : jsstring → jsstring)
    (tokens : list Token) (opts : Options.t) :
  resolveHeadersFromTokens htmlEscape tokens opts
  = Some (nest (captured htmlEscape tokens opts)).
Proof. apply resolve_nest. Qed.

(** X2. The top-level entries of the result are, in document order,
    the captured headings that no earlier captured heading undercuts:
    those whose level is at most the level of every captured heading
    before them. *)
Theorem X2_top_level (htmlEscape : jsstring → jsstring)
    (tokens : list Token) (opts : Options.t) :
  ∃ f, resolveHeadersFromTokens htmlEscape tokens opts = Some f
       ∧ entry <$> f = tops [] (captured htmlEscape tokens opts).
Proof.
  eexists. split; [apply resolve_nest|].
  apply nest_tops, captured_leaves.
Qed.

(** X3. From one sibling to the next the level never grows: at the top
    level and among the children of every header of the result, a
    header is at most as deep as the sibling before it.  After a
    level-1 heading, a level-3 heading and a level-2 heading are both
    its children, in that order. *)
Theorem X3_sibling_levels (htmlEscape : jsstring → jsstring)
    (tokens : list Token) (opts : Options.t) :
  (∃ f, resolveHeadersFromTokens htmlEscape tokens opts = Some f
        ∧ falling f ∧ Forall tidy f)
  ∧ resolveHeadersFromTokens htmlEscape
      (Example.heading "h1" "One" ++ Example.heading "h3" "Three"
       ++ Example.heading "h2" "Two")
      (Example.options [1; 2; 3]%Z)
    = Some [Header 1 (js "One") (js "one")
              [Example.leaf 3 "Three" "three"; Example.leaf 2 "Two" "two"]].
Proof.
  split; [|by vm_compute].
  eexists. split; [apply resolve_nest|].
  apply nest_tidy, captured_leaves.
Qed.

(** X4. [format] changes titles and nothing else: the result with a
    format is the result without one with the format applied to every
    title; the shape of the trees, the levels and the slugs are the
    same. *)
Theorem X4_format_titles (htmlEscape : jsstring → jsstring)
    (tokens : list Token) (levels : list Z) (allowHtml escapeText : bool)
    (slugifier formatter : jsstring → jsstring) :
  resolveHeadersFromTokens htmlEscape tokens
    (Options.mk levels allowHtml escapeText slugifier (Some formatter))
  = (λ f : list MarkdownHeader, retitle formatter <$> f)
      <$> resolveHeadersFromTokens htmlEscape tokens
            (Options.mk levels allowHtml escapeText slugifier None).
Proof.
  rewrite !resolve_nest. cbn [fmap option_fmap option_map]. f_equal.
  rewrite <-nest_retitle. f_equal. unfold captured.
  apply omap_fmap_ext. intros idx. apply capture_format.
Qed.

(** X5. The result holds, at all depths together, at most as many
    headers as there are heading-opening tokens, and at most one less
    than there are tokens; it is empty when no level is requested. *)
Theorem X5_header_count (htmlEscape : jsstring → jsstring)
    (tokens : list Token) (opts : Options.t) :
  ∃ f, resolveHeadersFromTokens htmlEscape tokens opts = Some f
       ∧ length (outline_all f) ≤ length (heading_opens tokens)
       ∧ length (outline_all f) ≤ pred (length tokens)
       ∧ (Options.level opts = [] → f = []).
Proof.
  destruct (resolve_outline htmlEscape tokens opts) as (f & Hf & Hout).
  exists f. rewrite Hout. split_and!; [done|apply captured_length..|].
  intros Hnil. rewrite resolve_nest in Hf. injection Hf as <-.
  by rewrite captured_no_level.
Qed.

(** X6. Over the whole run the callbacks are called for the captured
    headings only, in document order: for each of them [slugify] once
    unless the opening token has an identifier, then [format] once if
    there is one, both on the title as extracted. *)
Theorem X6_callback_trace (htmlEscape : jsstring → jsstring)
    (tokens : list Token) (opts : Options.t) :
  trace (run htmlEscape tokens opts)
  = seq 0 (length tokens) ≫= λ idx,
      if capture htmlEscape tokens opts idx is Some _
      then calls_at htmlEscape tokens opts idx else [].
Proof. apply run_to_trace. Qed.

(** ** The level of a tag *)

Lemma digit_facts c :
  is_digit c = true → is_space c = false ∧ c ≠ 0x2D%Z ∧ c ≠ 0x2B%Z.
Proof.
  unfold is_digit, is_space, cls_digit, cls_space, cset_mem. simpl.
  rewrite orb_false_r, andb_true_iff, !Z.leb_le. intros [? ?].
  split; [|lia].
  repeat (apply orb_false_iff; split); try done;
    apply andb_false_iff; rewrite !Z.leb_gt; lia.
Qed.

Lemma leading_digits_app ds rest :
  forallb is_digit ds = true → from_option is_digit false (head rest) = false →
  leading_digits (ds ++ rest) = ds.
Proof.
  intros Hds Hrest. induction ds as [|d ds IH]; cbn [app leading_digits].
  - destruct rest as [|r rest]; [done|]. cbn in Hrest. cbn [leading_digits].
    by rewrite Hrest.
  - cbn [forallb] in Hds. apply andb_true_iff in Hds as [-> Hds]. by rewrite IH.
Qed.

Lemma parseInt_digits ds rest :
  ds ≠ [] → forallb is_digit ds = true →
  from_option is_digit false (head rest) = false →
  parseInt (ds ++ rest) = Some (decimal ds).
Proof.
  intros Hne Hds Hrest. destruct ds as [|d ds]; [done|].
  pose proof Hds as Hd. cbn [forallb] in Hd. apply andb_true_iff in Hd as [Hd _].
  destruct (digit_facts d Hd) as (Hsp & Hminus & Hplus).
  unfold parseInt. cbn [app trimStart]. rewrite Hsp.
  rewrite (proj2 (Z.eqb_neq d 0x2D)), (proj2 (Z.eqb_neq d 0x2B)) by done.
  change (d :: ds ++ rest) with ((d :: ds) ++ rest).
  rewrite leading_digits_app by done.
  unfold decimal. f_equal. apply Z.mul_1_l.
Qed.

(** ** Tokens that do not matter *)

Section frame.
Context (htmlEscape : jsstring → jsstring).

Lemma capture_not_open tokens opts idx :
  opens (tokens !! idx) = false → capture htmlEscape tokens opts idx = None.
Proof.
  unfold capture, opens. destruct (tokens !! idx) as [open|]; [|done].
  cbn [from_option mbind option_bind]. intros H.
  case_guard as Hty; [|done].
  pose proof (proj2 (str_eqb_true _ _) Hty). congruence.
Qed.

Lemma capture_same tokens tokens' opts idx :
  tokens !! idx = tokens' !! idx → tokens !! S idx = tokens' !! S idx →
  capture htmlEscape tokens opts idx = capture htmlEscape tokens' opts idx.
Proof. unfold capture. by intros -> ->. Qed.
End frame.

(** X17. The level of the header a heading gives is the decimal number
    that follows the first character of the tag of its opening token,
    whatever that character is and whatever follows the digits, for
    numbers below 2^53, which the code computes exactly.  So "h10" is
    level 10, "x3" level 3, "h2x" level 2 and "h007" level 7. *)
Theorem X17_level_of_tag (htmlEscape : jsstring → jsstring)
    (tokens : list Token) (opts : Options.t) (idx : nat) (open next : Token)
    (c : Z) (ds rest : jsstring)
    (Hopen : tokens !! idx = Some open)
    (Htype : Token.type open = js "heading_open")
    (Htag : Token.tag open = c :: ds ++ rest)
    (Hds : ds ≠ [])
    (Hdigits : forallb is_digit ds = true)
    (Hrest : from_option is_digit false (head rest) = false)
    (Hexact : (decimal ds < 2 ^ 53)%Z)
    (Hrequested : decimal ds ∈ Options.level opts)
    (Hnext : tokens !! S idx = Some next) :
  (∃ f, resolveHeadersFromTokens htmlEscape tokens opts = Some f
        ∧ level <$> outline_all f !! captured_before htmlEscape tokens opts idx
          = Some (decimal ds))
  ∧ resolveHeadersFromTokens htmlEscape (Example.heading "h10" "Ten")
      (Example.options [1; 10]%Z)
    = Some [Example.leaf 10 "Ten" "ten"]
  ∧ resolveHeadersFromTokens htmlEscape (Example.heading "x3" "Three")
      (Example.options [3]%Z)
    = Some [Example.leaf 3 "Three" "three"]
  ∧ resolveHeadersFromTokens htmlEscape (Example.heading "h2x" "Two")
      (Example.options [2]%Z)
    = Some [Example.leaf 2 "Two" "two"]
  ∧ resolveHeadersFromTokens htmlEscape (Example.heading "h007" "Seven")
      (Example.options [7]%Z)
    = Some [Example.leaf 7 "Seven" "seven"].
Proof.
  split; [|split_and!; by vm_compute].
  assert (parseInt (slice1 (Token.tag open)) = Some (decimal ds)) as Hlvl.
  { rewrite Htag. by apply parseInt_digits. }
  destruct (resolve_captured_at htmlEscape tokens opts idx
              (header_of htmlEscape opts open next (decimal ds)))
    as (f & Hf & Hat); [by apply capture_heading|].
  exists f. split; [done|]. by rewrite Hat.
Qed.

(** The second of two headings, with the tag "h12". *)
Lemma X17_level_of_tag_witness :
  (∃ f, resolveHeadersFromTokens id
          (Example.heading "h1" "One" ++ Example.heading "h12" "Twelve")
          (Example.options [1; 12]%Z)
        = Some f
        ∧ level <$> outline_all f !! 1 = Some 12%Z)
  ∧ resolveHeadersFromTokens id (Example.heading "h10" "Ten")
      (Example.options [1; 10]%Z)
    = Some [Example.leaf 10 "Ten" "ten"]
  ∧ resolveHeadersFromTokens id (Example.heading "x3" "Three")
      (Example.options [3]%Z)
    = Some [Example.leaf 3 "Three" "three"]
  ∧ resolveHeadersFromTokens id (Example.heading "h2x" "Two")
      (Example.options [2]%Z)
    = Some [Example.leaf 2 "Two" "two"]
  ∧ resolveHeadersFromTokens id (Example.heading "h007" "Seven")
      (Example.options [7]%Z)
    = Some [Example.leaf 7 "Seven" "seven"].
Proof.
  apply (X17_level_of_tag id
           (Example.heading "h1" "One" ++ Example.heading "h12" "Twelve")
           (Example.options [1; 12]%Z) 3
           (Example.heading_open "h12" None)
           (Example.inline [Example.child "text" "Twelve"])
           104%Z (js "12") []).
  - reflexivity.
  - reflexivity.
  - reflexivity.
  - discriminate.
  - reflexivity.
  - reflexivity.
  - reflexivity.
  - apply (bool_decide_unpack _). vm_compute. exact I.
  - reflexivity.
Defined.

(** X18. Only the tokens that open a heading and the tokens right
    after them matter: two token sequences of the same length give the
    same result if, wherever they differ, neither holds an opening
    token there and neither holds one just before. *)
Theorem X18_other_tokens (htmlEscape : jsstring → jsstring)
    (tokens tokens' : list Token) (opts : Options.t)
    (Hlength : length tokens = length tokens')
    (Hsame : ∀ i,
       tokens !! i = tokens' !! i
       ∨ (opens (tokens !! i) = false ∧ opens (tokens' !! i) = false
          ∧ (i = 0 ∨ (opens (tokens !! pred i) = false
                      ∧ opens (tokens' !! pred i) = false)))) :
  resolveHeadersFromTokens htmlEscape tokens opts
  = resolveHeadersFromTokens htmlEscape tokens' opts.
Proof.
  rewrite !resolve_nest. do 2 f_equal. unfold captured. rewrite <-Hlength.
  assert (∀ idx, capture htmlEscape tokens opts idx
                 = capture htmlEscape tokens' opts idx) as Hcap.
  { intros idx. destruct (Hsame idx) as [Heq|(Ho & Ho' & _)].
    - destruct (Hsame (S idx)) as [Heq'|(_ & _ & [?|[Ho Ho']])];
        [by apply capture_same|done|].
      cbn [pred] in Ho, Ho'. by rewrite !capture_not_open.
    - by rewrite !capture_not_open. }
  induction (seq 0 (length tokens)) as [|i l IH]; [done|].
  cbn [omap list_omap]. by rewrite Hcap, IH.
Qed.

(** A paragraph after a heading can hold anything. *)
Lemma X18_other_tokens_witness :
  resolveHeadersFromTokens id
    (Example.heading "h1" "One" ++ [Example.child "text" "this"])
    (Example.options [1; 2]%Z)
  = resolveHeadersFromTokens id
      (Example.heading "h1" "One" ++ [Example.child "text" "that"])
      (Example.options [1; 2]%Z).
Proof.
  apply (X18_other_tokens id
           (Example.heading "h1" "One" ++ [Example.child "text" "this"])
           (Example.heading "h1" "One" ++ [Example.child "text" "that"])).
  - reflexivity.
  - intros [|[|[|[|i]]]].
    + left. reflexivity.
    + left. reflexivity.
    + left. reflexivity.
    + right. split; [reflexivity|]. split; [reflexivity|].
      right. split; reflexivity.
    + left. reflexivity.
Defined.

(** ** Sections *)

Lemma below_beyond lvl hs : below lvl hs ++ beyond lvl hs = hs.
Proof.
  induction hs as [|h hs IH]; cbn [below beyond]; [done|].
  destruct (lvl <? level h)%Z; [|done]. cbn [app]. by rewrite IH.
Qed.

Lemma below_length lvl hs : length (below lvl hs) ≤ length hs.
Proof. rewrite <-(below_beyond lvl hs) at 2. rewrite length_app. lia. Qed.

Lemma beyond_length lvl hs : length (beyond lvl hs) ≤ length hs.
Proof. rewrite <-(below_beyond lvl hs) at 2. rewrite length_app. lia. Qed.

Lemma below_Forall lvl hs : Forall (λ h, (lvl < level h)%Z) (below lvl hs).
Proof.
  induction hs as [|h hs IH]; cbn [below]; [constructor|].
  destruct (Z.ltb_spec lvl (level h)); by constructor.
Qed.

Lemma beyond_head lvl hs h : head (beyond lvl hs) = Some h → (level h ≤ lvl)%Z.
Proof.
  induction hs as [|x hs IH]; cbn [beyond]; [done|].
  destruct (Z.ltb_spec lvl (level x)); [done|]. by intros [= <-].
Qed.

Lemma below_app lvl a b :
  below lvl (a ++ b)
  = if beyond lvl a is [] then a ++ below lvl b else below lvl a.
Proof.
  induction a as [|h a IH]; cbn [app below beyond]; [done|].
  destruct (lvl <? level h)%Z; [|done]. rewrite IH.
  by destruct (beyond lvl a).
Qed.

Lemma beyond_app lvl a b :
  beyond lvl (a ++ b)
  = if beyond lvl a is [] then beyond lvl b else beyond lvl a ++ b.
Proof.
  induction a as [|h a IH]; cbn [app beyond]; [done|].
  destruct (lvl <? level h)%Z; [|done]. apply IH.
Qed.

Lemma sections_upto_fuel n m hs :
  length hs ≤ n → length hs ≤ m → sections_upto n hs = sections_upto m hs.
Proof.
  revert m hs. induction n as [|n IH]; intros m hs Hn Hm.
  { destruct hs; [|simpl in Hn; lia]. by destruct m. }
  destruct hs as [|h hs]; [by destruct m|].
  destruct m as [|m]; [simpl in Hm; lia|]. simpl in Hn, Hm.
  cbn [sections_upto].
  pose proof (below_length (level h) hs). pose proof (beyond_length (level h) hs).
  f_equal; [f_equal|]; apply IH; lia.
Qed.

Lemma sections_cons h hs :
  sections (h :: hs)
  = Header (level h) (title h) (slug h) (sections (below (level h) hs))
    :: sections (beyond (level h) hs).
Proof.
  unfold sections. cbn [length sections_upto].
  pose proof (below_length (level h) hs). pose proof (beyond_length (level h) hs).
  f_equal; [f_equal|]; apply sections_upto_fuel; lia.
Qed.

Lemma sections_nil hs : sections hs = [] ↔ hs = [].
Proof. destruct hs; [done|]. by rewrite sections_cons. Qed.

Lemma shift_levels_snoc lvl R l :
  shift_levels lvl (R ++ [l])
  = match shift_levels lvl R with
    | [] => if (lvl <=? l)%Z then [] else [l]
    | _ :: _ => shift_levels lvl R ++ [l]
    end.
Proof.
  induction R as [|x R IH]; cbn [app shift_levels]; [done|].
  destruct (lvl <=? x)%Z; [apply IH|done].
Qed.

Lemma shift_levels_all lvl R :
  Forall (λ x, (lvl ≤ x)%Z) R → shift_levels lvl R = [].
Proof.
  induction 1 as [|x R Hx _ IH]; cbn [shift_levels]; [done|].
  by rewrite (proj2 (Z.leb_le lvl x)).
Qed.

Lemma graft_cons d x T G : G ≠ [] → graft d x (T :: G) = T :: graft d x G.
Proof.
  intros HG. destruct G as [|t G _] using rev_ind; [done|].
  destruct d as [|d]; [done|].
  change (T :: G ++ [t]) with ((T :: G) ++ [t]). by rewrite !graft_snoc.
Qed.

Lemma forest_levels_cons T G : G ≠ [] → forest_levels (T :: G) = forest_levels G.
Proof.
  intros HG. unfold forest_levels. destruct G as [|t G]; [done|].
  by rewrite last_cons_cons.
Qed.

Lemma place_cons x T G : G ≠ [] → place x (T :: G) = T :: place x G.
Proof.
  intros HG. unfold place. rewrite forest_levels_cons by done.
  by apply graft_cons.
Qed.

(** The levels down the last children are levels of the headings. *)
Lemma forest_levels_sections n hs :
  length hs ≤ n →
  Forall (λ l, l ∈ level <$> hs) (forest_levels (sections hs)).
Proof.
  revert hs. induction n as [|n IH]; intros hs Hn.
  { destruct hs; [constructor|simpl in Hn; lia]. }
  destruct hs as [|h hs]; [constructor|]. simpl in Hn.
  rewrite sections_cons.
  pose proof (below_length (level h) hs). pose proof (beyond_length (level h) hs).
  assert (∀ part, (∀ y, y ∈ part → y ∈ hs) →
            Forall (λ l, l ∈ level <$> part) (forest_levels (sections part)) →
            Forall (λ l, l ∈ level <$> h :: hs) (forest_levels (sections part)))
    as Hsub.
  { intros part Hpart Hf. eapply Forall_impl; [exact Hf|]. intros l.
    rewrite !list_elem_of_fmap. intros (y & -> & Hy). exists y.
    split; [done|]. right. by apply Hpart. }
  destruct (sections (beyond (level h) hs)) as [|t G] eqn:E.
  - change (forest_levels [?t]) with (forest_levels ([] ++ [t])).
    rewrite forest_levels_snoc. cbn [level children]. constructor.
    + rewrite fmap_cons. by left.
    + apply (Hsub (below (level h) hs)); [|apply IH; lia].
      intros y Hy. rewrite <-(below_beyond (level h) hs).
      apply elem_of_app. by left.
  - rewrite forest_levels_cons by done. rewrite <-E.
    apply (Hsub (beyond (level h) hs)); [|apply IH; lia].
    intros y Hy. rewrite <-(below_beyond (level h) hs).
    apply elem_of_app. by right.
Qed.

Lemma sections_snoc n hs x :
  length hs ≤ n → children x = [] →
  sections (hs ++ [x]) = place x (sections hs).
Proof.
  intros Hn Hx. revert hs Hn. induction n as [|n IH]; intros hs Hn.
  { destruct hs; [|simpl in Hn; lia]. cbn [app].
    rewrite sections_cons. cbn. by rewrite leaf_eta. }
  destruct hs as [|h hs].
  { cbn [app]. rewrite sections_cons. cbn. by rewrite leaf_eta. }
  simpl in Hn. cbn [app]. rewrite !sections_cons, below_app, beyond_app.
  pose proof (below_length (level h) hs) as Hlb.
  pose proof (beyond_length (level h) hs) as Hly.
  destruct (beyond (level h) hs) as [|r rest] eqn:Erest.
  - (* every heading after [h] is deeper than [h] *)
    assert (below (level h) hs = hs) as Hall.
    { rewrite <-(below_beyond (level h) hs) at 2. by rewrite Erest, app_nil_r. }
    rewrite Hall in *.
    change (sections []) with (@nil MarkdownHeader).
    unfold place at 1.
    change (forest_levels [?t]) with (forest_levels ([] ++ [t])).
    rewrite forest_levels_snoc. cbn [level children below beyond].
    rewrite reverse_cons, shift_levels_snoc.
    destruct (Z.ltb_spec (level h) (level x)) as [Hlt|Hle].
    + change (sections []) with (@nil MarkdownHeader).
      rewrite IH by lia. unfold place.
      set (R := shift_levels _ _).
      assert (length (match R with
                      | [] => if (level x <=? level h)%Z then [] else [level h]
                      | _ :: _ => R ++ [level h]
                      end) = S (length R)) as ->.
      { destruct R; [|rewrite length_app; simpl; lia].
        by rewrite (proj2 (Z.leb_gt _ _)) by lia. }
      change [Header ?l ?t ?s ?cs] with ([] ++ [Header l t s cs]) at 2.
      by rewrite graft_snoc.
    + rewrite shift_levels_all; cycle 1.
      { apply Forall_reverse.
        pose proof (forest_levels_sections n hs ltac:(lia)) as Hin.
        eapply Forall_impl; [exact Hin|]. cbn beta.
        intros l (y & -> & Hy)%list_elem_of_fmap.
        pose proof (below_Forall (level h) hs) as Hb. rewrite Hall in Hb.
        eapply Forall_forall in Hb; [|done]. lia. }
      rewrite (proj2 (Z.leb_le _ _)) by lia. cbn [length graft app].
      rewrite sections_cons. cbn [below beyond].
      change (sections []) with (@nil MarkdownHeader).
      by rewrite app_nil_r, leaf_eta.
  - (* the headings after [h] go on beyond its section *)
    rewrite IH by lia. rewrite place_cons; [done|].
    intros Hnil%sections_nil. done.
Qed.

Lemma nest_sections hs :
  Forall (λ h, children h = []) hs → nest hs = sections hs.
Proof.
  induction hs as [|x hs IH] using rev_ind; intros Hleaf; [done|].
  apply Forall_app in Hleaf as [Hleaf Hx]. apply Forall_cons in Hx as [Hx _].
  rewrite nest_snoc, IH by done. symmetry. by apply (sections_snoc (length hs)).
Qed.

(** X19. The result is the forest of the sections of the captured
    headings: a heading takes the captured headings that follow it for
    as long as they are deeper than itself, these form its children in
    the same way, and the next tree starts at the first heading that
    is not deeper. *)
Theorem X19_sections (htmlEscape : jsstring → jsstring)
    (tokens : list Token) (opts : Options.t) :
  resolveHeadersFromTokens htmlEscape tokens opts
  = Some (sections (captured htmlEscape tokens opts))
  ∧ sections [] = []
  ∧ (∀ h hs,
       sections (h :: hs)
       = Header (level h) (title h) (slug h) (sections (below (level h) hs))
         :: sections (beyond (level h) hs))
  ∧ (∀ lvl hs,
       below lvl hs ++ beyond lvl hs = hs
       ∧ Forall (λ h, (lvl < level h)%Z) (below lvl hs)
       ∧ ∀ h, head (beyond lvl hs) = Some h → (level h ≤ lvl)%Z).
Proof.
  split_and!.
  - rewrite resolve_nest. f_equal. apply nest_sections, captured_leaves.
  - done.
  - apply sections_cons.
  - intros lvl hs. split_and!;
      [apply below_beyond|apply below_Forall|apply beyond_head].
Qed.

Lemma omap_ext_all {A B} (c c' : A → option B) (l : list A) :
  (∀ i, c i = c' i) → omap c l = omap c' l.
Proof.
  intros H. induction l as [|i l IH]; [done|]. cbn [omap list_omap].
  by rewrite H, IH.
Qed.

Lemma capture_levels htmlEscape tokens lv lv' ah et sl fm idx :
  (∀ x, x ∈ lv ↔ x ∈ lv') →
  capture htmlEscape tokens (Options.mk lv ah et sl fm) idx
  = capture htmlEscape tokens (Options.mk lv' ah et sl fm) idx.
Proof.
  intros Hlv. unfold capture. destruct (tokens !! idx) as [open|]; [|done].
  cbn [mbind option_bind]. case_guard; [|done]. cbn [mbind option_bind].
  destruct (parseInt _) as [lvl|]; [|done]. cbn [mbind option_bind Options.level].
  specialize (Hlv lvl). repeat case_guard; try done; tauto.
Qed.

(** X20. The requested levels count as a set: two lists with the same
    members, in whatever order and however often repeated, give the
    same result. *)
Theorem X20_levels_as_set (htmlEscape : jsstring → jsstring)
    (tokens : list Token) (levels levels' : list Z)
    (allowHtml escapeText : bool) (slugifier : jsstring → jsstring)
    (formatter : option (jsstring → jsstring))
    (Hsame : ∀ x, x ∈ levels ↔ x ∈ levels') :
  resolveHeadersFromTokens htmlEscape tokens
    (Options.mk levels allowHtml escapeText slugifier formatter)
  = resolveHeadersFromTokens htmlEscape tokens
      (Options.mk levels' allowHtml escapeText slugifier formatter).
Proof.
  rewrite !resolve_nest. do 2 f_equal. unfold captured.
  apply omap_ext_all. intros idx. by apply capture_levels.
Qed.

(** The lists [1; 2] and [2; 1; 2] request the same levels. *)
Lemma X20_levels_as_set_witness :
  resolveHeadersFromTokens id (Example.heading "h2" "Two")
    (Options.mk [1; 2]%Z false false (slugify (U := latin1)) None)
  = resolveHeadersFromTokens id (Example.heading "h2" "Two")
      (Options.mk [2; 1; 2]%Z false false (slugify (U := latin1)) None).
Proof.
  apply (X20_levels_as_set id (Example.heading "h2" "Two")
           [1; 2]%Z [2; 1; 2]%Z).
  intros x. rewrite !elem_of_cons, !elem_of_nil. tauto.
Defined.

Lemma elem_of_escaped_items token item :
  item ∈ escaped_items token
  ↔ item ∈ default [] (Token.children token)
    ∧ str_eqb (Token.type item) (js "code_inline")
      || str_eqb (Token.type item) (js "text") = true.
Proof.
  unfold escaped_items. rewrite list_elem_of_In, filter_In, <- list_elem_of_In.
  done.
Qed.

Lemma title_escape h1 h2 token allowHtml escapeText :
  (escapeText = true →
   Forall (λ item, h1 (Token.content item) = h2 (Token.content item))
     (escaped_items token)) →
  resolveTitleFromToken h1 token allowHtml escapeText
  = resolveTitleFromToken h2 token allowHtml escapeText.
Proof.
  intros H. rewrite !resolveTitle_extractTitle. unfold extractTitle. do 2 f_equal.
  apply Forall_fmap_ext_1, Forall_forall. intros item Hitem.
  unfold piece. destruct escapeText; [|done]. cbn [andb].
  destruct (_ || _) eqn:E; [|done].
  specialize (H eq_refl). rewrite Forall_forall in H. apply H.
  apply elem_of_escaped_items. split; [|done].
  apply list_elem_of_In, filter_In in Hitem as [Hitem _].
  by apply list_elem_of_In.
Qed.

Lemma capture_escape h1 h2 tokens opts idx :
  (Options.escapeText opts = true →
   ∀ next, tokens !! S idx = Some next →
     Forall (λ item, h1 (Token.content item) = h2 (Token.content item))
       (escaped_items next)) →
  capture h1 tokens opts idx = capture h2 tokens opts idx.
Proof.
  intros H. unfold capture. destruct (tokens !! idx) as [open|]; [|done].
  cbn [mbind option_bind]. case_guard; [|done]. cbn [mbind option_bind].
  destruct (parseInt _) as [lvl|]; [|done]. cbn [mbind option_bind].
  case_guard; [|done]. cbn [mbind option_bind].
  destruct (tokens !! S idx) as [next|]; [|done]. cbn [mbind option_bind].
  unfold header_of.
  rewrite (title_escape h1 h2 next); [done|]. intros He. by apply H.
Qed.

(** X21. The escaping function is applied to nothing but the contents
    of the [text] and [code_inline] children of the tokens: two
    functions that agree on these give the same result, and with
    [escapeText] off the function is not consulted at all. *)
Theorem X21_htmlEscape_use (h1 h2 : jsstring → jsstring)
    (tokens : list Token) (opts : Options.t) :
  (Options.escapeText opts = false →
   resolveHeadersFromTokens h1 tokens opts
   = resolveHeadersFromTokens h2 tokens opts)
  ∧ ((∀ token item,
        token ∈ tokens → item ∈ escaped_items token →
        h1 (Token.content item) = h2 (Token.content item)) →
     resolveHeadersFromTokens h1 tokens opts
     = resolveHeadersFromTokens h2 tokens opts)
  ∧ (∀ token allowHtml,
       resolveTitleFromToken h1 token allowHtml false
       = resolveTitleFromToken h2 token allowHtml false).
Proof.
  split_and!.
  - intros He. rewrite !resolve_nest. do 2 f_equal. unfold captured.
    apply omap_ext_all. intros idx. apply capture_escape. congruence.
  - intros Hagree. rewrite !resolve_nest. do 2 f_equal. unfold captured.
    apply omap_ext_all. intros idx. apply capture_escape.
    intros _ next Hnext. apply Forall_forall. intros item Hitem.
    apply (Hagree next); [|done]. by eapply list_elem_of_lookup_2.
  - intros token allowHtml. by apply title_escape.
Qed.

(* ===================================================================== *)
(** * 16. Further properties of the title                                 *)
(* ===================================================================== *)

(** X7. The title has no white space at either end, so trimming it
    again changes nothing, whatever [htmlEscape] returns; it is empty
    exactly when the pieces of the children that make it up hold
    nothing but white space, as when the token has no children at
    all. *)
Theorem X7_title_trimmed (htmlEscape : jsstring → jsstring) (token : Token)
    (allowHtml escapeText : bool) :
  let t := resolveTitleFromToken htmlEscape token allowHtml escapeText in
  trim t = t
  ∧ (∀ c, head t = Some c → is_space c = false)
  ∧ (∀ c, last t = Some c → is_space c = false)
  ∧ (t = [] ↔
     Forall (λ c, is_space c = true)
       (concat (piece htmlEscape escapeText
                  <$> List.filter (in_title allowHtml)
                        (default [] (Token.children token)))))
  ∧ (Token.children token = None ∨ Token.children token = Some [] → t = []).
Proof.
  cbn zeta. rewrite resolveTitle_extractTitle. unfold extractTitle.
  split_and!; [apply trim_trim|apply head_trim|apply last_trim|apply trim_nil|].
  by intros [-> | ->].
Qed.

(* ===================================================================== *)
(** * 17. Further properties of the slugifier                             *)
(* ===================================================================== *)

(** ** Runs of hyphens *)

Lemma is_hyphen_decide c : is_hyphen c = bool_decide (c = 45%Z).
Proof. apply cset_mem_single. Qed.

Lemma special_hyphen : cset_mem 45 cls_special = true.
Proof. by vm_compute. Qed.

Section squash.
Context (cs : cset) (Hcs : cset_mem 45 cs = true).

(** Within a run nothing is written, so what follows a run is not a
    hyphen. *)
Lemma squash_head s c : head (squash cs true s) = Some c → c ≠ 45%Z.
Proof.
  induction s as [|x s IH]; cbn [squash]; [done|].
  destruct (cset_mem x cs) eqn:Hx; [done|].
  intros [= <-] ->. congruence.
Qed.

Lemma collapse_squash b s : collapse (squash cs b s) = squash cs b s.
Proof.
  revert b. induction s as [|x s IH]; intros b; cbn [squash]; [done|].
  destruct (cset_mem x cs) eqn:Hx.
  - destruct b; cbn [app]; [apply IH|].
    change (js "-" ++ ?t) with (45%Z :: t). cbn [collapse].
    destruct (head (squash cs true s)) as [c|] eqn:Hc; cbn [from_option].
    + apply squash_head in Hc.
      rewrite (is_hyphen_decide c), bool_decide_false by done.
      rewrite andb_false_r. by rewrite IH.
    + rewrite andb_false_r. by rewrite IH.
  - cbn [collapse]. rewrite (is_hyphen_decide x), bool_decide_false by congruence.
    cbn [andb]. by rewrite IH.
Qed.

Lemma squash_Forall b s :
  Forall (λ c, c = 45%Z ∨ (c ∈ s ∧ cset_mem c cs = false)) (squash cs b s).
Proof.
  revert b. induction s as [|x s IH]; intros b; cbn [squash]; [constructor|].
  assert (∀ t, Forall (λ c, c = 45%Z ∨ c ∈ s ∧ cset_mem c cs = false) t →
               Forall (λ c, c = 45%Z ∨ c ∈ x :: s ∧ cset_mem c cs = false) t)
    as Hw.
  { intros t Ht. eapply Forall_impl; [exact Ht|].
    intros c [->|[? ?]]; [by left|right]. split; [by right|done]. }
  destruct (cset_mem x cs) eqn:Hx.
  - apply Forall_app. split; [|by apply Hw].
    destruct b; [constructor|]. repeat constructor.
  - constructor; [|by apply Hw]. right. split; [by left|done].
Qed.

Lemma squash_keeps b s c :
  c ∈ s → cset_mem c cs = false → c ∈ squash cs b s.
Proof.
  intros Hc Hno. revert b.
  induction s as [|x s IH]; intros b; [by apply elem_of_nil in Hc|].
  cbn [squash]. apply elem_of_cons in Hc as [->|Hc].
  - rewrite Hno. by left.
  - destruct (cset_mem x cs); [|right; by apply IH].
    apply elem_of_app. right. by apply IH.
Qed.

Lemma squash_single b s : single_hyphens (squash cs b s).
Proof.
  revert b. induction s as [|x s IH]; intros b; cbn [squash]; [by intros []|].
  destruct (cset_mem x cs) eqn:Hx.
  - destruct b; cbn [app]; [apply IH|].
    change (js "-" ++ ?t) with (45%Z :: t).
    intros [|i]; cbn [lookup list_lookup]; [|apply IH].
    intros _ Hh. apply (squash_head s 45%Z); [|done].
    rewrite head_lookup. exact Hh.
  - intros [|i]; cbn [lookup list_lookup]; [|apply IH].
    intros [= ->]. congruence.
Qed.
End squash.

(** ** The two ends *)

Lemma drop_hyphens_head s c : head (drop_hyphens s) = Some c → c ≠ 45%Z.
Proof.
  induction s as [|x s IH]; cbn [drop_hyphens]; [done|].
  destruct (is_hyphen x) eqn:Hx; [done|]. by intros [= <-] ->.
Qed.

Lemma drop_hyphens_fixed s :
  (∀ c, head s = Some c → c ≠ 45%Z) → drop_hyphens s = s.
Proof.
  destruct s as [|c s]; [done|]. intros H. cbn [drop_hyphens].
  rewrite is_hyphen_decide, bool_decide_false; [done|]. by apply H.
Qed.

Lemma drop_hyphens_nil s : drop_hyphens s = [] ↔ Forall (λ c, c = 45%Z) s.
Proof.
  induction s as [|x s IH]; cbn [drop_hyphens]; [done|].
  rewrite is_hyphen_decide. case_bool_decide as Hx.
  - rewrite IH, Forall_cons. tauto.
  - split; [done|]. by intros [? _]%Forall_cons.
Qed.

(** Trimming leaves a stretch of the string. *)
Lemma trim_hyphens_segment s : ∃ j k, trim_hyphens s = take k (drop j s).
Proof.
  unfold trim_hyphens.
  rewrite (drop_hyphens_run (reverse _)), reverse_drop, reverse_involutive,
    drop_hyphens_run.
  by eexists _, _.
Qed.

Lemma trim_hyphens_head s c : head (trim_hyphens s) = Some c → c ≠ 45%Z.
Proof.
  unfold trim_hyphens.
  rewrite (drop_hyphens_run (reverse _)), reverse_drop, reverse_involutive.
  intros Hc. apply (drop_hyphens_head s c).
  rewrite head_lookup in *. apply lookup_take_Some in Hc. tauto.
Qed.

Lemma trim_hyphens_last s c : last (trim_hyphens s) = Some c → c ≠ 45%Z.
Proof. unfold trim_hyphens. rewrite last_reverse. apply drop_hyphens_head. Qed.

Lemma trim_hyphens_fixed s :
  (∀ c, head s = Some c → c ≠ 45%Z) → (∀ c, last s = Some c → c ≠ 45%Z) →
  trim_hyphens s = s.
Proof.
  intros Hh Hl. unfold trim_hyphens. rewrite (drop_hyphens_fixed s) by done.
  rewrite drop_hyphens_fixed; [apply reverse_involutive|].
  intros c. rewrite head_reverse. apply Hl.
Qed.

Lemma trim_hyphens_nil s : trim_hyphens s = [] ↔ Forall (λ c, c = 45%Z) s.
Proof.
  unfold trim_hyphens. rewrite <-(reverse_involutive []). split.
  - intros H%(inj reverse). apply drop_hyphens_nil in H.
    rewrite Forall_reverse in H.
    destruct (drop_hyphens s) as [|c t] eqn:E; [by apply drop_hyphens_nil|].
    apply Forall_cons in H as [-> _].
    by destruct (drop_hyphens_head s 45%Z); [rewrite E|].
  - intros H. by apply drop_hyphens_nil in H as ->.
Qed.

Lemma segment_single j k s : single_hyphens s → single_hyphens (take k (drop j s)).
Proof.
  intros H i Hi Hi'. apply lookup_take_Some in Hi as [Hi _].
  apply lookup_take_Some in Hi' as [Hi' _]. rewrite lookup_drop in Hi, Hi'.
  apply (H (j + i)); [done|]. by replace (S (j + i)) with (j + S i) by lia.
Qed.

Lemma prefix_underscore_head s c :
  head (prefix_underscore s) = Some c → is_digit c = false.
Proof.
  destruct s as [|x s]; [done|]. cbn [prefix_underscore].
  destruct (is_digit x) eqn:Hx; cbn; by intros [= <-].
Qed.

(** ** The shape of the slug *)

Lemma elem_of_strip cs s c : c ∈ strip cs s ↔ c ∈ s ∧ cset_mem c cs = false.
Proof.
  unfold strip. rewrite !list_elem_of_In, filter_In, negb_true_iff. tauto.
Qed.

Lemma ordinary_strip n c :
  c ∈ strip [(0x0000, 0x001F)%Z] (strip [(0x0300, 0x036F)%Z] n)
  ∧ cset_mem c cls_special = false
  ↔ c ∈ n ∧ ordinary c = true.
Proof.
  rewrite !elem_of_strip. unfold ordinary, is_special, is_control, is_combining.
  rewrite negb_true_iff, !orb_false_iff. tauto.
Qed.

Lemma slugify_body `{U : Unicode} s :
  slugify s = toLowerCase (prefix_underscore (slug_body s)).
Proof.
  rewrite slugify_steps_source. unfold slugify_steps, slug_body.
  do 2 f_equal. f_equal. apply (collapse_squash cls_special special_hyphen).
Qed.

Lemma slug_body_shape `{U : Unicode} (s : jsstring) :
  Forall (λ c, c = 45%Z ∨ (c ∈ normalizeNFKD s ∧ ordinary c = true))
    (slug_body s)
  ∧ single_hyphens (slug_body s)
  ∧ (∀ c, head (slug_body s) = Some c → c ≠ 45%Z)
  ∧ (∀ c, last (slug_body s) = Some c → c ≠ 45%Z)
  ∧ (slug_body s = [] ↔ Forall (λ c, ordinary c = false) (normalizeNFKD s)).
Proof.
  unfold slug_body. set (n := normalizeNFKD s). set (y := strip _ (strip _ n)).
  destruct (trim_hyphens_segment (squash cls_special false y)) as (j & k & Hseg).
  split_and!.
  - rewrite Hseg. apply Forall_take, Forall_drop.
    eapply Forall_impl; [apply (squash_Forall cls_special special_hyphen)|]. cbn beta.
    intros c [->|Hc]; [by left|right]. by apply ordinary_strip.
  - rewrite Hseg. apply segment_single, (squash_single cls_special special_hyphen).
  - apply trim_hyphens_head.
  - apply trim_hyphens_last.
  - rewrite trim_hyphens_nil. split.
    + intros Hall. apply Forall_forall. intros c Hc.
      destruct (ordinary c) eqn:Ho; [|done]. exfalso.
      assert (c ∈ y ∧ cset_mem c cls_special = false) as [Hy Hsp]
        by (by apply ordinary_strip).
      eapply Forall_forall in Hall;
        [|by apply (squash_keeps cls_special special_hyphen)].
      subst c. by rewrite special_hyphen in Hsp.
    + intros Hall. eapply Forall_impl; [apply (squash_Forall cls_special special_hyphen)|].
      cbn beta. intros c [->|Hc]; [done|]. apply ordinary_strip in Hc as [Hc Ho].
      eapply Forall_forall in Hall; [|done]. congruence.
Qed.

(** ** Plain text *)

Lemma plain_cases (P : Z → bool) :
  forallb P (seqZ 0 127) = true → ∀ c, plain c = true → P c = true.
Proof.
  rewrite forallb_forall. intros H c Hc. apply H, list_elem_of_In, elem_of_seqZ.
  unfold plain in Hc. apply andb_true_iff in Hc as [?%Z.leb_le ?%Z.ltb_lt]. lia.
Qed.

Lemma decompose_plain c : plain c = true → Latin1.decompose c = [c].
Proof.
  intros Hc.
  pose proof (plain_cases (λ c, bool_decide (Latin1.decompose c = [c]))
                ltac:(by vm_compute) c Hc) as H.
  cbv beta in H. by apply bool_decide_eq_true in H.
Qed.

Lemma normalize_plain s :
  Forall (λ c, plain c = true) s → normalizeNFKD (Unicode := latin1) s = s.
Proof.
  induction 1 as [|c s Hc _ IH]; [done|]. cbn [normalizeNFKD latin1] in *.
  cbn [mbind list_bind]. by rewrite decompose_plain, IH.
Qed.

Lemma ordinary_plain c :
  plain c = true → ordinary c = true → slug_unit (Latin1.lower c) = true.
Proof.
  intros Hc Ho.
  pose proof (plain_cases (λ c, implb (ordinary c) (slug_unit (Latin1.lower c)))
                ltac:(by vm_compute) c Hc) as H.
  cbv beta in H. by rewrite Ho in H.
Qed.

Lemma slug_unit_plain c : slug_unit c = true → plain c = true.
Proof.
  unfold slug_unit, is_digit, cls_digit, cset_mem, plain. simpl.
  rewrite !orb_true_iff, !andb_true_iff, !Z.leb_le, Z.ltb_lt. lia.
Qed.

Lemma slug_unit_facts c :
  slug_unit c = true →
  Latin1.lower c = c ∧ cset_mem c cls_special = false
  ∧ cset_mem c [(0x0000, 0x001F)%Z] = false
  ∧ cset_mem c [(0x0300, 0x036F)%Z] = false.
Proof.
  intros Hc. pose proof (slug_unit_plain c Hc) as Hp.
  pose proof (plain_cases
    (λ c, implb (slug_unit c)
            (bool_decide (Latin1.lower c = c) && negb (cset_mem c cls_special)
             && negb (cset_mem c [(0x0000, 0x001F)%Z])
             && negb (cset_mem c [(0x0300, 0x036F)%Z])))
    ltac:(by vm_compute) c Hp) as H.
  cbv beta in H. rewrite Hc in H. cbn [implb] in H.
  rewrite !andb_true_iff, !negb_true_iff, !bool_decide_eq_true in H. tauto.
Qed.

Lemma lower_hyphen c : Latin1.lower c = 45%Z ↔ c = 45%Z.
Proof.
  unfold Latin1.lower. split; [|by intros ->].
  destruct (_ || _) eqn:E; [|done].
  rewrite orb_true_iff, !andb_true_iff, !Z.leb_le in E. lia.
Qed.

Lemma lower_digit c : is_digit (Latin1.lower c) = is_digit c.
Proof.
  unfold Latin1.lower. destruct (_ || _) eqn:E; [|done].
  rewrite orb_true_iff, !andb_true_iff, !Z.leb_le in E.
  unfold is_digit, cls_digit, cset_mem. simpl.
  rewrite !orb_false_r. apply eq_true_iff_eq.
  rewrite !andb_true_iff, !Z.leb_le. lia.
Qed.

Lemma lower_prefix_underscore b :
  Latin1.lower <$> prefix_underscore b = prefix_underscore (Latin1.lower <$> b).
Proof.
  destruct b as [|c b]; [done|]. cbn [prefix_underscore fmap list_fmap].
  rewrite lower_digit. by destruct (is_digit c).
Qed.

Lemma single_hyphens_lower b :
  single_hyphens b → single_hyphens (Latin1.lower <$> b).
Proof.
  intros H i. rewrite !list_lookup_fmap.
  destruct (b !! i) as [c|] eqn:Hc; [|done].
  destruct (b !! S i) as [c'|] eqn:Hc'; [|done]. cbn.
  intros [= ->%lower_hyphen] [= ->%lower_hyphen]. by apply (H i).
Qed.

(** The slug of plain text before the underscore: slug units with
    single hyphens between them. *)
Lemma slugify_plain s :
  forallb plain s = true →
  ∃ r, slugify (U := latin1) s = prefix_underscore r
       ∧ Forall (λ c, slug_unit c = true ∨ c = 45%Z) r
       ∧ single_hyphens r
       ∧ (∀ c, head r = Some c → c ≠ 45%Z)
       ∧ (∀ c, last r = Some c → c ≠ 45%Z).
Proof.
  intros Hs. assert (Forall (λ c, plain c = true) s) as Hs'.
  { apply Forall_forall. intros c Hc%list_elem_of_In.
    by eapply forallb_forall in Hs. }
  destruct (slug_body_shape (U := latin1) s)
    as (Hall & Hsingle & Hhead & Hlast & _).
  exists (Latin1.lower <$> slug_body (U := latin1) s). rewrite slugify_body.
  change (toLowerCase ?t) with (Latin1.lower <$> t).
  split_and!.
  - apply lower_prefix_underscore.
  - apply Forall_fmap. eapply Forall_impl; [done|]. cbn beta.
    intros c [->|[Hc Ho]]; [by right|left].
    rewrite normalize_plain in Hc by done.
    apply ordinary_plain; [|done]. by eapply Forall_forall in Hs'.
  - by apply single_hyphens_lower.
  - intros c. rewrite head_lookup, list_lookup_fmap, <-head_lookup.
    destruct (head (slug_body s)) as [x|] eqn:Hx; [|done]. intros [= <-].
    rewrite lower_hyphen. by apply Hhead.
  - intros c. rewrite fmap_last.
    destruct (last (slug_body s)) as [x|] eqn:Hx; [|done]. intros [= <-].
    rewrite lower_hyphen. by apply Hlast.
Qed.

Lemma strip_fixed cs s :
  Forall (λ c, cset_mem c cs = false) s → strip cs s = s.
Proof.
  intros H. apply filter_all. eapply Forall_impl; [done|].
  cbn beta. by intros c ->.
Qed.

Lemma single_hyphens_tail c s : single_hyphens (c :: s) → single_hyphens s.
Proof. intros H i. apply (H (S i)). Qed.

(** In a string of slug units and single hyphens the special
    characters are the hyphens, and each is a run of its own. *)
Lemma squash_slug r :
  Forall (λ c, slug_unit c = true ∨ c = 45%Z) r → single_hyphens r →
  squash cls_special false r = r
  ∧ ((∀ c, head r = Some c → c ≠ 45%Z) → squash cls_special true r = r).
Proof.
  induction 1 as [|c r Hc _ IH]; intros Hsingle; [done|].
  destruct (IH (single_hyphens_tail _ _ Hsingle)) as [IH1 IH2].
  cbn [squash]. destruct Hc as [Hc| ->].
  - apply slug_unit_facts in Hc as (_ & -> & _). by rewrite IH1.
  - rewrite special_hyphen. split.
    + cbn [app]. change (js "-" ++ ?t) with (45%Z :: t). f_equal.
      apply IH2. intros c Hc ->. apply (Hsingle 0); [done|].
      by rewrite head_lookup in Hc.
    + intros Hh. by destruct (Hh 45%Z).
Qed.

(** X8. The step that collapses runs of hyphens never changes its
    input: the hyphen is one of the special characters, so the step
    before it has turned every run of hyphens and special characters
    into one hyphen already.  [slugify] is the chain without that
    step. *)
Theorem X8_hyphen_runs `{U : Unicode} (s : jsstring) :
  replaceAll rHyphens (λ _, js "-") (replaceAll rSpecial (λ _, js "-") s)
  = replaceAll rSpecial (λ _, js "-") s
  ∧ slugify s
    = (s |> normalizeNFKD
         |> replaceAll rCombining (λ _, [])
         |> replaceAll rControl (λ _, [])
         |> replaceAll rSpecial (λ _, js "-")
         |> replaceAll rEdges (λ _, [])
         |> replaceOnce rLeadingDigit (λ m, js "_" ++ m)
         |> toLowerCase).
Proof.
  assert (∀ t, replaceAll rHyphens (λ _, js "-")
                 (replaceAll rSpecial (λ _, js "-") t)
               = replaceAll rSpecial (λ _, js "-") t) as H.
  { intros t. unfold rSpecial. rewrite replaceAll_hyphens, replaceAll_rep1.
    apply (collapse_squash cls_special special_hyphen). }
  split; [apply H|]. unfold slugify. by rewrite H.
Qed.

(** X9. For every input and whatever the Unicode tables are, the slug
    is the lower-casing of a string [b], with an underscore before it
    if [b] starts with a digit, where every code unit of [b] is a
    hyphen or a code unit of the normalized input that is neither
    white space nor a special, control or combining character; no
    hyphen of [b] is followed by a hyphen, and [b] neither starts nor
    ends with one.  What is lower-cased does not start with a digit. *)
Theorem X9_slug_shape `{U : Unicode} (s : jsstring) :
  ∃ b,
    slugify s = toLowerCase (prefix_underscore b)
    ∧ Forall (λ c, c = 45%Z ∨ (c ∈ normalizeNFKD s ∧ ordinary c = true)) b
    ∧ single_hyphens b
    ∧ (∀ c, head b = Some c → c ≠ 45%Z)
    ∧ (∀ c, last b = Some c → c ≠ 45%Z)
    ∧ (∀ c, head (prefix_underscore b) = Some c → is_digit c = false).
Proof.
  exists (slug_body s).
  destruct (slug_body_shape s) as (Hall & Hsingle & Hhead & Hlast & _).
  split_and!; [apply slugify_body|done..|apply prefix_underscore_head].
Qed.

(** X10. With the Latin-1 tables, the slug of a string of Basic Latin
    without U+007F consists of lower-case letters, digits, hyphens and
    underscores only; no hyphen is followed by a hyphen; the slug
    neither starts nor ends with a hyphen and does not start with a
    digit; an underscore occurs only as the first code unit, and then
    a digit follows it. *)
Theorem X10_slug_plain (s : jsstring) (Hs : forallb plain s = true) :
  let r := slugify (U := latin1) s in
  Forall (λ c, url_safe c = true) r
  ∧ single_hyphens r
  ∧ (∀ c, head r = Some c → c ≠ 45%Z ∧ is_digit c = false)
  ∧ (∀ c, last r = Some c → c ≠ 45%Z)
  ∧ (∀ i, r !! i = Some 95%Z → i = 0 ∧ ∃ d, r !! 1 = Some d ∧ is_digit d = true).
Proof.
  cbn zeta.
  destruct (slugify_plain s Hs) as (r & -> & Hall & Hsingle & Hhead & Hlast).
  assert (Forall (λ c, url_safe c = true) r) as Hsafe.
  { eapply Forall_impl; [done|]. cbn beta. unfold url_safe.
    intros c [->| ->]; [done|]. by rewrite orb_true_r. }
  assert (∀ i, r !! i ≠ Some 95%Z) as Hno.
  { intros i Hi. eapply Forall_lookup_1 in Hall; [|done].
    destruct Hall as [Hu|?]; [|done]. by vm_compute in Hu. }
  destruct r as [|c r]; [by split_and!|]. cbn [prefix_underscore].
  destruct (is_digit c) eqn:Hc; cbn [app].
  - change (js "_" ++ ?t) with (95%Z :: t). split_and!.
    + by constructor.
    + intros [|i]; [done|]. apply Hsingle.
    + by intros ? [= <-].
    + intros x. rewrite last_cons_cons. apply Hlast.
    + intros [|i]; cbn [lookup list_lookup].
      * intros _. split; [done|]. by exists c.
      * intros Hi. by destruct (Hno i).
  - split_and!; [done..| | |].
    + intros x [= <-]. split; [by apply Hhead|done].
    + done.
    + intros i Hi. by destruct (Hno i).
Qed.

(** The slug of "2 + 2 = 4?", which is "_2-2-4". *)
Lemma X10_slug_plain_witness :
  Forall (λ c, url_safe c = true) (slugify (U := latin1) (js "2 + 2 = 4?"))
  ∧ single_hyphens (slugify (U := latin1) (js "2 + 2 = 4?")).
Proof.
  split.
  - apply (X10_slug_plain (js "2 + 2 = 4?")). reflexivity.
  - apply (X10_slug_plain (js "2 + 2 = 4?")). reflexivity.
Defined.

(** X11. With the Latin-1 tables, slugs of Basic Latin text are
    stable: the slug of the slug of a string of Basic Latin without
    U+007F is that slug. *)
Theorem X11_slug_idempotent (s : jsstring) (Hs : forallb plain s = true) :
  slugify (U := latin1) (slugify (U := latin1) s) = slugify (U := latin1) s.
Proof.
  destruct (slugify_plain s Hs) as (r & -> & Hall & Hsingle & Hhead & Hlast).
  assert (∀ c, c ∈ r → plain c = true ∧ Latin1.lower c = c
                       ∧ cset_mem c [(0x0000, 0x001F)%Z] = false
                       ∧ cset_mem c [(0x0300, 0x036F)%Z] = false) as Hunit.
  { intros c Hc. eapply Forall_forall in Hall; [|done].
    destruct Hall as [Hu| ->]; [|by split_and!].
    pose proof (slug_unit_plain c Hu). apply slug_unit_facts in Hu. tauto. }
  assert (∀ c, c ∈ prefix_underscore r →
               plain c = true ∧ Latin1.lower c = c
               ∧ cset_mem c [(0x0000, 0x001F)%Z] = false
               ∧ cset_mem c [(0x0300, 0x036F)%Z] = false) as Hunit'.
  { intros c. destruct r as [|x r]; [by intros ?%elem_of_nil|].
    cbn [prefix_underscore]. destruct (is_digit x); [|exact (Hunit c)].
    change (js "_" ++ ?t) with (95%Z :: t).
    intros [->|Hc]%elem_of_cons; [by split_and!|exact (Hunit c Hc)]. }
  rewrite (slugify_body (prefix_underscore r)). unfold slug_body.
  rewrite normalize_plain
    by (apply Forall_forall; intros c Hc; apply Hunit' in Hc; tauto).
  rewrite (strip_fixed [(0x0300, 0x036F)%Z])
    by (apply Forall_forall; intros c Hc; apply Hunit' in Hc; tauto).
  rewrite (strip_fixed [(0x0000, 0x001F)%Z])
    by (apply Forall_forall; intros c Hc; apply Hunit' in Hc; tauto).
  assert (trim_hyphens (squash cls_special false (prefix_underscore r)) = r) as ->.
  { destruct (squash_slug r Hall Hsingle) as [Hsq Hsq'].
    destruct r as [|x r]; [done|]. cbn [prefix_underscore].
    destruct (is_digit x) eqn:Hx.
    - change (squash cls_special false (js "_" ++ x :: r))
        with (45%Z :: squash cls_special true (x :: r)).
      rewrite Hsq' by done.
      change (trim_hyphens (45%Z :: x :: r)) with (trim_hyphens (x :: r)).
      by apply trim_hyphens_fixed.
    - rewrite Hsq. by apply trim_hyphens_fixed. }
  change (toLowerCase ?t) with (Latin1.lower <$> t).
  apply list_eq. intros i. rewrite list_lookup_fmap.
  destruct (prefix_underscore r !! i) as [c|] eqn:Hc; [|done]. cbn.
  f_equal. apply list_elem_of_lookup_2, Hunit' in Hc. tauto.
Qed.

(** The slug of "Hello, World!" is "hello-world", and so is the slug
    of that. *)
Lemma X11_slug_idempotent_witness :
  slugify (U := latin1) (slugify (U := latin1) (js "Hello, World!"))
  = slugify (U := latin1) (js "Hello, World!").
Proof. apply (X11_slug_idempotent (js "Hello, World!")). reflexivity. Defined.

(** X12. With the Latin-1 tables and for text they cover, a control
    character, a tab or a line break among them, is dropped without
    a hyphen in its place: the slug is that of the text without
    it. *)
Theorem X12_slug_control (s1 s2 : jsstring) (c : Z)
    (Hcovered : forallb Latin1.covered (s1 ++ s2) = true)
    (Hc : is_control c = true) :
  slugify (U := latin1) (s1 ++ [c] ++ s2) = slugify (U := latin1) (s1 ++ s2).
Proof.
  unfold is_control in Hc.
  assert (plain c = true) as Hp.
  { unfold cset_mem in Hc. simpl in Hc.
    rewrite orb_false_r, andb_true_iff, !Z.leb_le in Hc. unfold plain.
    apply andb_true_iff. rewrite Z.leb_le, Z.ltb_lt. lia. }
  assert (cset_mem c [(0x0300, 0x036F)%Z] = false) as Hcomb.
  { unfold cset_mem in *. simpl in *.
    rewrite orb_false_r, andb_true_iff, !Z.leb_le in Hc.
    rewrite orb_false_r. apply andb_false_iff. rewrite !Z.leb_gt. lia. }
  assert (normalizeNFKD (Unicode := latin1) (s1 ++ [c] ++ s2)
          = normalizeNFKD s1 ++ [c] ++ normalizeNFKD s2) as Hn.
  { cbn [normalizeNFKD latin1]. rewrite !bind_app. do 2 f_equal.
    cbn [mbind list_bind]. by rewrite decompose_plain. }
  assert (normalizeNFKD (Unicode := latin1) (s1 ++ s2)
          = normalizeNFKD s1 ++ normalizeNFKD s2) as Hn'.
  { cbn [normalizeNFKD latin1]. by rewrite bind_app. }
  unfold slugify. do 5 f_equal.
  unfold rControl, rCombining. rewrite !replaceAll_chars, Hn, Hn'.
  unfold strip. rewrite !List.filter_app. cbn [List.filter].
  rewrite Hcomb. cbn [negb app List.filter]. by rewrite Hc.
Qed.

(** A tab between two words glues them: "a", tab, "b" gives "ab". *)
Lemma X12_slug_control_witness :
  slugify (U := latin1) (js "a" ++ [9%Z] ++ js "b")
  = slugify (U := latin1) (js "a" ++ js "b").
Proof.
  apply (X12_slug_control (js "a") (js "b") 9%Z); reflexivity.
Defined.

(** X13. If lower-casing gives the empty string for the empty string
    only, the slug is empty exactly when every code unit of the
    normalized input is white space or a special, control or combining
    character. *)
Theorem X13_slug_empty `{U : Unicode} (s : jsstring)
    (Hlower : ∀ t, toLowerCase t = [] ↔ t = []) :
  slugify s = [] ↔ Forall (λ c, ordinary c = false) (normalizeNFKD s).
Proof.
  destruct (slug_body_shape s) as (_ & _ & _ & _ & <-).
  rewrite slugify_body, Hlower. destruct (slug_body s) as [|c b]; [done|].
  cbn [prefix_underscore]. by destruct (is_digit c).
Qed.

(** A heading of punctuation only has the empty slug. *)
Lemma X13_slug_empty_witness :
  slugify (U := latin1) (js "?!") = []
  ↔ Forall (λ c, ordinary c = false) (normalizeNFKD (Unicode := latin1) (js "?!")).
Proof.
  apply (X13_slug_empty (U := latin1) (js "?!")).
  intros t. split; [apply fmap_nil_inv|by intros ->].
Defined.

(* ===================================================================== *)
(** * 18. Further properties of the guard                                 *)
(* ===================================================================== *)

(** ** Matching somewhere *)

Lemma after_nil p : after p [] = p.
Proof. done. Qed.

Lemma after_cons p c x : after p (c :: x) = after (Some c) x.
Proof. unfold after. rewrite last_cons. by destruct (last x). Qed.

Lemma after_app p x y : after p (x ++ y) = after (after p x) y.
Proof.
  revert p. induction x as [|c x IH]; intros p; [done|].
  cbn [app]. by rewrite !after_cons, IH.
Qed.

Lemma matches_in_ext m1 m2 p s :
  (∀ p t, m1 p t = m2 p t) → matches_in m1 p s = matches_in m2 p s.
Proof.
  intros H. revert p. induction s as [|c s IH]; intros p; cbn [matches_in];
    rewrite H; [done|]. by rewrite IH.
Qed.

Lemma matches_in_split m p pre post :
  matches_in m p (pre ++ post) = false → m (after p pre) post = None.
Proof.
  revert p. induction pre as [|c pre IH]; intros p; cbn [app matches_in].
  - rewrite after_nil. destruct post; cbn [matches_in]; by destruct (m p _).
  - destruct (m p (c :: pre ++ post)); [done|]. rewrite after_cons. apply IH.
Qed.

(** Where nothing matches nothing is replaced. *)
Lemma replace_go_none m repl p s :
  matches_in m p s = false → replace_go m repl 0 p s = s.
Proof.
  revert p. induction s as [|c s IH]; intros p; cbn [matches_in replace_go];
    destruct (m p _); try done.
  intros H. by rewrite IH.
Qed.

Lemma replace_go_skip_after m repl k p s :
  k ≤ length s →
  replace_go m repl k p s = replace_go m repl 0 (after p (take k s)) (drop k s).
Proof.
  revert p s. induction k as [|k IH]; intros p s Hk; [done|].
  destruct s as [|c s]; [simpl in Hk; lia|]. cbn [replace_go take drop].
  rewrite after_cons. apply IH. simpl in Hk. lia.
Qed.

(** ** Markers lengthen *)

Lemma length_inserted x s t : inserted x s t → length s ≤ length t.
Proof.
  induction 1 as [|s t u (a & b & -> & ->) _ IH]; [done|].
  etrans; [|exact IH]. rewrite !length_app. lia.
Qed.

Lemma length_break_at off t : length (break_at off t) = length t + 6.
Proof.
  unfold break_at. rewrite !length_app. change (length marker) with 6.
  pose proof (f_equal length (take_drop off t)) as H.
  rewrite length_app in H. lia.
Qed.

Lemma replace_go_longer m off p s :
  matches_in m p s = true →
  length s < length (replace_go m (break_at off) 0 p s).
Proof.
  revert p. induction s as [|c s IH]; intros p; cbn [matches_in replace_go].
  - destruct (m p []) as [n|]; [|done]. intros _.
    rewrite length_app, length_break_at. simpl. lia.
  - destruct (m p (c :: s)) as [n|] eqn:Hm.
    + intros _. rewrite length_app, length_break_at.
      destruct n as [|n].
      * pose proof (length_inserted _ _ _
                      (replace_go_inserted m off 0 (Some c) s)) as H.
        rewrite drop_0 in H. simpl. lia.
      * pose proof (length_inserted _ _ _
                      (replace_go_inserted m off n (Some c) s)) as H.
        rewrite length_drop in H. cbn [take length]. rewrite length_take. lia.
    + intros H. specialize (IH _ H). simpl. lia.
Qed.

Lemma replace_go_fixed m off p s :
  replace_go m (break_at off) 0 p s = s ↔ matches_in m p s = false.
Proof.
  split; [|apply replace_go_none].
  intros Heq. destruct (matches_in m p s) eqn:E; [|done].
  apply (replace_go_longer m off) in E. rewrite Heq in E. lia.
Qed.

Lemma guard_words_fixed ws off s :
  guard_words ws off s = s ↔ matches_in (find_word ws) None s = false.
Proof. apply replace_go_fixed. Qed.

Lemma guard_words_length ws off s : length s ≤ length (guard_words ws off s).
Proof. apply length_inserted with marker, guard_words_inserted. Qed.

Lemma guard_words_same_length ws off s :
  length (guard_words ws off s) ≤ length s → guard_words ws off s = s.
Proof.
  intros H. apply guard_words_fixed.
  destruct (matches_in _ _ _) eqn:E; [|done].
  apply (replace_go_longer _ off) in E. unfold guard_words in H. lia.
Qed.

Lemma guard_words_fixed2 ws1 off1 ws2 off2 s :
  guard_words ws2 off2 (guard_words ws1 off1 s) = s
  ↔ matches_in (find_word ws1) None s = false
    ∧ matches_in (find_word ws2) None s = false.
Proof.
  split.
  - intros Heq.
    pose proof (guard_words_length ws1 off1 s) as L1.
    pose proof (guard_words_length ws2 off2 (guard_words ws1 off1 s)) as L2.
    rewrite Heq in L2.
    assert (guard_words ws1 off1 s = s) as E1
      by (apply guard_words_same_length; lia).
    rewrite E1 in Heq.
    split; [by apply (guard_words_fixed ws1 off1)
           |by apply (guard_words_fixed ws2 off2)].
  - intros [H1 H2]. apply (guard_words_fixed ws1 off1) in H1. rewrite H1.
    by apply guard_words_fixed.
Qed.

Lemma guard_words_fixed3 ws1 off1 ws2 off2 ws3 off3 s :
  guard_words ws3 off3 (guard_words ws2 off2 (guard_words ws1 off1 s)) = s
  ↔ matches_in (find_word ws1) None s = false
    ∧ matches_in (find_word ws2) None s = false
    ∧ matches_in (find_word ws3) None s = false.
Proof.
  split.
  - intros Heq.
    pose proof (guard_words_length ws1 off1 s) as L1.
    pose proof (guard_words_length ws2 off2 (guard_words ws1 off1 s)) as L2.
    pose proof (guard_words_length ws3 off3
                  (guard_words ws2 off2 (guard_words ws1 off1 s))) as L3.
    rewrite Heq in L3.
    assert (guard_words ws2 off2 (guard_words ws1 off1 s) = s) as E2.
    { rewrite <-Heq at 2. symmetry. apply guard_words_same_length.
      rewrite Heq. lia. }
    rewrite E2 in Heq. apply guard_words_fixed2 in E2 as [H1 H2].
    split_and!; [done..|]. by apply (guard_words_fixed ws3 off3).
  - intros (H1 & H2 & H3).
    rewrite (proj2 (guard_words_fixed2 ws1 off1 ws2 off2 s)) by (by split).
    by apply guard_words_fixed.
Qed.

(** ** What a pass leaves *)

(** Up to the first marker the text is the text that was there. *)
Lemma replace_go_take m off k p s :
  take k (replace_go m (break_at off) 0 p s) = take k s
  ∨ 60%Z ∈ take k (replace_go m (break_at off) 0 p s).
Proof.
  revert k p. induction s as [|c s IH]; intros k p.
  - cbn [replace_go]. destruct (m p []) as [n|]; [|by left].
    rewrite take_nil, app_nil_r. unfold break_at. rewrite take_nil, drop_nil.
    destruct k; [by left|right]. cbn. left.
  - cbn [replace_go]. destruct (m p (c :: s)) as [n|].
    + set (T := take n (c :: s)).
      set (rest := match n with 0 => _ | S _ => _ end).
      unfold break_at. set (P := take off T). rewrite <-!app_assoc.
      destruct (decide (k ≤ length P)) as [Hk|Hk].
      * left. rewrite take_app_le by exact Hk.
        unfold P, T in *. rewrite !length_take in Hk.
        rewrite !take_take. f_equal. lia.
      * right. rewrite take_app_ge by lia.
        apply elem_of_app. right.
        destruct (k - length P) as [|k'] eqn:E; [lia|]. cbn. left.
    + destruct k as [|k]; [by left|]. cbn [take].
      destruct (IH k (Some c)) as [->|H]; [by left|right]. by right.
Qed.

Lemma starts_with_replace_go m off w p s :
  60%Z ∉ w →
  starts_with w (replace_go m (break_at off) 0 p s) = true →
  starts_with w s = true.
Proof.
  intros Hw. unfold starts_with. rewrite !bool_decide_eq_true. intros H.
  destruct (replace_go_take m off (length w) p s) as [<-|Hin]; [done|].
  by rewrite H in Hin.
Qed.

Lemma find_word_single w p s :
  find_word [w] p s
  = if boundary p s && starts_with w s then Some (length w) else None.
Proof.
  unfold find_word. cbn [List.find].
  destruct (boundary p s); [|done]. by destruct (starts_with w s).
Qed.

Lemma boundary_head p c s t : boundary p (c :: s) = boundary p (c :: t).
Proof. done. Qed.

Lemma all_matched_drop ws w1 p pre s :
  all_matched ws w1 p (pre ++ s) → all_matched ws w1 (after p pre) s.
Proof.
  intros H pre' post ->. rewrite <-after_app. apply H. by rewrite app_assoc.
Qed.

Lemma all_matched_refl w p s : all_matched [w] w p s.
Proof. by intros pre post _ H. Qed.

Lemma all_matched_none ws w1 p s :
  matches_in (find_word [w1]) p s = false → all_matched ws w1 p s.
Proof.
  intros H pre post -> Hm. apply matches_in_split in H. rewrite H in Hm.
  by destruct Hm.
Qed.

Section pass.
Context (ws : list jsstring) (off : nat) (w1 : jsstring).
Context (Hbreaks : breaks ws off w1 = true).

Local Abbreviation occ := (matches_in (find_word [w1])).
Local Abbreviation go := (replace_go (find_word ws) (break_at off) 0).

Lemma target_cons : ∃ h w1', w1 = h :: w1'.
Proof.
  unfold breaks in Hbreaks. destruct w1 as [|h w1']; [done|]. by eexists _, _.
Qed.

Lemma target_marker : 60%Z ∉ w1.
Proof.
  unfold breaks in Hbreaks. destruct w1 as [|h w1']; [done|].
  apply andb_true_iff in Hbreaks as [H _].
  by apply negb_true_iff, bool_decide_eq_false in H.
Qed.

Lemma occ_nil p : occ p [] = false.
Proof.
  destruct target_cons as (h & w1' & ->). cbn [matches_in].
  rewrite find_word_single, starts_with_cons_nil. by rewrite andb_false_r.
Qed.

(** The target does not start at a code unit other than its first. *)
Lemma occ_skip x p t :
  (∀ h w1', w1 = h :: w1' → Forall (λ c, c ≠ h) x) →
  occ p (x ++ t) = occ (after p x) t.
Proof.
  destruct target_cons as (h & w1' & Hw1). intros Hx. specialize (Hx h w1' Hw1).
  revert p. induction Hx as [|c x Hc _ IH]; intros p; [done|].
  cbn [app matches_in]. rewrite find_word_single, Hw1, starts_with_cons.
  rewrite bool_decide_false by done. rewrite andb_false_r, <-Hw1.
  by rewrite after_cons, IH.
Qed.

Lemma word_facts w :
  w ∈ ws →
  off < length w
  ∧ (∀ h w1', w1 = h :: w1' → Forall (λ c, c ≠ h) (tail (break_at off w)))
  ∧ (∀ t, starts_with w1 (break_at off w ++ t) = false).
Proof.
  intros Hw. unfold breaks in Hbreaks. destruct w1 as [|h w1'] eqn:Hw1; [done|].
  apply andb_true_iff in Hbreaks as [_ H]. rewrite forallb_forall in H.
  apply list_elem_of_In, H in Hw.
  rewrite !andb_true_iff, !bool_decide_eq_true, negb_true_iff in Hw.
  destruct Hw as [[[Hoff Htail] Hstart] Hlen]. split_and!; [done| |].
  - intros ? ? [= <- <-]. apply Forall_forall. intros c Hc%list_elem_of_In.
    rewrite forallb_forall in Htail.
    by apply Htail, negb_true_iff, Z.eqb_neq in Hc.
  - intros t. unfold starts_with in *. rewrite take_app_le by done.
    exact Hstart.
Qed.

(** After the pass the target starts nowhere at a word boundary. *)
Lemma pass_clean n s p :
  length s ≤ n → all_matched ws w1 p s → occ p (go p s) = false.
Proof.
  revert s p. induction n as [|n IH]; intros s p Hn Hall.
  { destruct s; [|simpl in Hn; lia]. cbn [replace_go].
    destruct (find_word ws p []) as [k|] eqn:Hm; [|apply occ_nil].
    apply find_word_take in Hm as (w & Hw & Htake & Hlen).
    apply word_facts in Hw as (Hoff & _). rewrite take_nil in Htake. subst w.
    simpl in Hoff. lia. }
  destruct s as [|c s]; [apply (IH [] p); [simpl; lia|done]|].
  cbn [replace_go]. destruct (find_word ws p (c :: s)) as [k|] eqn:Hm.
  - pose proof Hm as Hm'.
    apply find_word_take in Hm' as (w & Hw & Htake & Hlen).
    apply word_facts in Hw as (Hoff & Htail & Hstart).
    destruct k as [|k]; [lia|].
    assert (k ≤ length s) as Hk.
    { pose proof (f_equal length Htake) as Hl. rewrite length_take in Hl.
      simpl in Hl. lia. }
    rewrite replace_go_skip_after by done. rewrite Htake.
    assert (c :: s = w ++ drop k s) as Hs.
    { rewrite <-Htake. cbn [take app]. by rewrite take_drop. }
    assert (after (Some c) (take k s) = after p w) as Hafter.
    { rewrite <-Htake. cbn [take]. by rewrite after_cons. }
    rewrite Hafter.
    assert (after p (break_at off w) = after p w) as Hlast.
    { assert (after p w = after (after p (take off w)) (drop off w)) as ->.
      { by rewrite <-after_app, take_drop. }
      unfold break_at. rewrite app_assoc, after_app. unfold after at 1 3.
      destruct (last (drop off w)) eqn:E; [done|].
      apply last_None in E. apply (f_equal length) in E.
      rewrite length_drop in E. simpl in E. lia. }
    destruct (break_at off w) as [|x0 X] eqn:EX.
    { apply (f_equal length) in EX. rewrite length_break_at in EX.
      simpl in EX. lia. }
    pose proof (Hstart (go (after p w) (drop k s))) as Hst0.
    cbn [app] in Hst0. cbn [app matches_in].
    rewrite find_word_single, Hst0, andb_false_r.
    rewrite occ_skip by done. rewrite <-(after_cons p), Hlast.
    apply IH.
    + apply (f_equal length) in Hs. rewrite length_app in Hs. simpl in *. lia.
    + apply all_matched_drop. by rewrite <-Hs.
  - cbn [matches_in]. rewrite find_word_single.
    destruct (boundary p _ && starts_with w1 _) eqn:E.
    + exfalso. apply andb_true_iff in E as [Hb Hst].
      assert (go p (c :: s) = c :: go (Some c) s) as Hout.
      { cbn [replace_go]. by rewrite Hm. }
      rewrite <-Hout in Hst.
      apply starts_with_replace_go in Hst; [|apply target_marker].
      destruct (Hall [] (c :: s) eq_refl) as [k Hk];
        [|by rewrite after_nil, Hm in Hk].
      rewrite after_nil, find_word_single.
      rewrite (boundary_head p c _ s) in Hb. by rewrite Hb, Hst.
    + apply IH; [simpl in Hn; lia|]. apply (all_matched_drop ws w1 p [c]), Hall.
Qed.
End pass.

Lemma guard_words_clean ws off w1 s :
  breaks ws off w1 = true → all_matched ws w1 None s →
  matches_in (find_word [w1]) None (guard_words ws off s) = false.
Proof. intros Hb Hall. by apply (pass_clean ws off w1 Hb (length s)). Qed.

Lemma matches_in_word w p s :
  matches_in (match_at (Cat WordBoundary (lits w))) p s
  = matches_in (find_word [w]) p s.
Proof. apply matches_in_ext. intros. apply match_at_word. Qed.

(** X14. Without a mapping the guard does what it is for: in its
    result neither of its two patterns matches anywhere, so no
    [import.meta] and no [process.env] starts at a word boundary, and
    guarding the result again changes nothing.  With a mapping this can
    fail: for the key "x", the text " ximport.meta", in which
    [import.meta] starts at no word boundary, becomes
    " x<wbr/>import.meta", in which it does. *)
Theorem X14_guard_clean (source : jsstring) :
  (∃ out,
     preventViteConstantsReplacement source None = Some out
     ∧ matches_in (match_at rImportMeta) None out = false
     ∧ matches_in (match_at rProcessEnv) None out = false
     ∧ preventViteConstantsReplacement out None = Some out)
  ∧ preventViteConstantsReplacement (js " ximport.meta") (Some [js "x"])
    = Some (js " x<wbr/>import.meta")
  ∧ matches_in (match_at rImportMeta) None (js " ximport.meta") = false
  ∧ matches_in (match_at rImportMeta) None (js " x<wbr/>import.meta") = true.
Proof.
  split; [|split_and!; by vm_compute].
  set (im := js "import.meta"). set (pe := js "process.env").
  set (out1 := guard_words [im] 7 source).
  set (out2 := guard_words [pe] 8 out1).
  assert (matches_in (find_word [im]) None out1 = false) as H1.
  { apply guard_words_clean; [by vm_compute|apply all_matched_refl]. }
  assert (matches_in (find_word [pe]) None out2 = false) as H2.
  { apply guard_words_clean; [by vm_compute|apply all_matched_refl]. }
  assert (matches_in (find_word [im]) None out2 = false) as H3.
  { apply guard_words_clean; [by vm_compute|by apply all_matched_none]. }
  exists out2. split_and!.
  - by rewrite prevent_guarded.
  - unfold rImportMeta. by rewrite matches_in_word.
  - unfold rProcessEnv. by rewrite matches_in_word.
  - rewrite prevent_guarded by done. f_equal. unfold guarded.
    fold im pe. rewrite (proj2 (guard_words_fixed [im] 7 out2)) by done.
    by apply guard_words_fixed.
Qed.

(** X15. For a mapping that is absent or has at least one key and no
    empty key, the guard returns the source as it is exactly when
    there is nothing to guard: neither of the two fixed patterns, nor
    the pattern built from the keys, matches anywhere in the source. *)
Theorem X15_guard_unchanged (source : jsstring)
    (define : option (list jsstring)) (Husable : usable define = true) :
  preventViteConstantsReplacement source define = Some source
  ↔ matches_in (match_at rImportMeta) None source = false
    ∧ matches_in (match_at rProcessEnv) None source = false
    ∧ match define with
      | Some keys =>
          ∀ r, RegExp (defineSource keys) = Some r →
               matches_in (match_at r) None source = false
      | None => True
      end.
Proof.
  rewrite prevent_guarded by done. unfold guarded.
  unfold rImportMeta, rProcessEnv. rewrite !matches_in_word.
  destruct define as [keys|].
  - assert (keys ≠ [] ∧ alternatives keys = keys) as [Hne Halt].
    { simpl in Husable. by destruct keys. }
    assert ((∀ r, RegExp (defineSource keys) = Some r →
                  matches_in (match_at r) None source = false)
            ↔ matches_in (find_word keys) None source = false) as ->.
    { rewrite RegExp_defineSource, Halt. split.
      - intros H. rewrite <-(H _ eq_refl). apply matches_in_ext.
        intros. symmetry. by apply match_at_words.
      - intros H r [= <-]. rewrite <-H. apply matches_in_ext.
        intros. by apply match_at_words. }
    rewrite <-guard_words_fixed3. split; [by intros [= ->]|by intros ->].
  - split.
    + intros [= Heq]. apply guard_words_fixed2 in Heq as [? ?]. by split_and!.
    + intros (H1 & H2 & _). f_equal. by apply guard_words_fixed2.
Qed.

(** A text that mentions neither name comes back as it is. *)
Lemma X15_guard_unchanged_witness :
  preventViteConstantsReplacement (js "const answer = 42") (Some [js "VERSION"])
  = Some (js "const answer = 42").
Proof.
  apply (proj2 (X15_guard_unchanged (js "const answer = 42")
                  (Some [js "VERSION"]) eq_refl)).
  split; [reflexivity|]. split; [reflexivity|].
  intros r Hr. injection Hr as <-. reflexivity.
Defined.

(** X16. The guard never fails, whatever the keys: escaped and joined,
    they always give a pattern that [RegExp] accepts.  Without the
    escaping a key with a parenthesis in it would not. *)
Theorem X16_guard_total (source : jsstring) (define : option (list jsstring)) :
  is_Some (preventViteConstantsReplacement source define)
  ∧ RegExp (js "\b(" ++ join (js "|") [js "a(b"] ++ js ")") = None.
Proof.
  split; [|by vm_compute]. unfold preventViteConstantsReplacement.
  destruct define as [keys|]; [|by eexists].
  rewrite RegExp_defineSource. by eexists.
Qed.
